(** * Verification of the scheduling and routing core of cc_sdk_knowledge_extractor

    Shallow embedding of
    - [AsyncQueue] (src/unnamed/part_005, async-queue.ts),
    - [WorkerPool] (src/src/queue/worker-pool.ts),
    - [Scanner] (src/unnamed/part_005, scanner.ts) and the tables of
      src/src/core/constants.ts,
    - [SkillRegistry.getRoutingDecision] (src/src/routing/file-router.ts),
    - [OutputManager.getOutputPath] (src/src/output/output-manager.ts) with the
      POSIX functions of node:path that it calls,
    - the item-building loop of [App.processCourse] (src/src/core/app.ts).

    JavaScript runs all of this on one thread: every synchronous method body
    is atomic, and the only interleaving points are the [await]s.  Queue
    methods are therefore functions on an explicit queue state; the worker
    pool is a step relation whose steps are the pieces of [workerLoop]
    between two [await]s. *)

From Stdlib Require Import List String Ascii ZArith Lia Bool Arith Sorted DecimalString Permutation.
Import ListNotations.
Open Scope string_scope.
Open Scope list_scope.
Open Scope nat_scope.

(* ------------------------------------------------------------------ *)
(** ** Data model (src/src/types/index.ts) *)

Inductive FileCategory :=
  | Text | Code | Document | Database | Archive | Image | Html
  | Video | Audio | Unknown.

Record ScannedFile := mkScannedFile {
  sf_path : string;
  sf_relativePath : string;
  sf_name : string;
  sf_extension : string;
  sf_size : Z;
  sf_category : FileCategory;
  sf_courseId : string;
  sf_coursePath : string
}.

Inductive QueueItemStatus :=
  | StPending | StScanning | StRouting | StProcessing
  | StCompleted | StFailed | StSkipped.

Inductive ProcessingStage := Scan | Route | Convert | Validate | Generate.

Inductive RoutingMethod := Passthrough | Skill | ArchiveM | Skip | Unsupported.

Record RoutingDecision := mkDecision {
  method : RoutingMethod;
  skillName : option string;
  outputFormat : option string
}.

(** [ProcessingError]; [stack] and [context] are never read by the core. *)
Record ProcessingError := mkError {
  err_code : string;
  err_message : string;
  err_recoverable : bool
}.

(** [QueueItem]; the [Date] fields [startedAt]/[completedAt] are omitted. *)
Record QueueItem := mkItem {
  id : string;
  file : ScannedFile;
  status : QueueItemStatus;
  stage : ProcessingStage;
  priority : Z;
  attempts : Z;
  maxAttempts : Z;
  routedTo : option RoutingDecision;
  outputPath : option string;
  error : option ProcessingError
}.

Definition set_status (s : QueueItemStatus) (it : QueueItem) : QueueItem :=
  mkItem (id it) (file it) s (stage it) (priority it) (attempts it)
    (maxAttempts it) (routedTo it) (outputPath it) (error it).

Definition set_error (e : option ProcessingError) (it : QueueItem) : QueueItem :=
  mkItem (id it) (file it) (status it) (stage it) (priority it) (attempts it)
    (maxAttempts it) (routedTo it) (outputPath it) e.

Definition set_attempts (n : Z) (it : QueueItem) : QueueItem :=
  mkItem (id it) (file it) (status it) (stage it) (priority it) n
    (maxAttempts it) (routedTo it) (outputPath it) (error it).

(* ------------------------------------------------------------------ *)
(** ** JavaScript containers used by [AsyncQueue] *)

(** [Set<string>]: insertion-ordered, no duplicates. *)
Definition set_has (x : string) (s : list string) : bool :=
  existsb (String.eqb x) s.

Definition set_add (x : string) (s : list string) : list string :=
  if set_has x s then s else s ++ [x].

Definition set_delete (x : string) (s : list string) : list string :=
  filter (fun y => negb (String.eqb x y)) s.

(** [Map<string, QueueItem>.set]: overwrites in place or appends. *)
Fixpoint map_set {V} (k : string) (v : V) (m : list (string * V)) : list (string * V) :=
  match m with
  | [] => [(k, v)]
  | (k', v') :: m' => if String.eqb k k' then (k, v) :: m' else (k', v') :: map_set k v m'
  end.

(** [items.sort((a, b) => a.priority - b.priority)].  Array.prototype.sort is
    stable (ES2019), and the stable sort of a list by a key is unique, so a
    stable insertion sort computes the same array. *)
Fixpoint insert_by_priority (x : QueueItem) (l : list QueueItem) : list QueueItem :=
  match l with
  | [] => [x]
  | y :: l' => if (priority x <? priority y)%Z then x :: y :: l'
               else y :: insert_by_priority x l'
  end.

Definition sort_by_priority (l : list QueueItem) : list QueueItem :=
  fold_left (fun acc x => insert_by_priority x acc) l [].

(* ------------------------------------------------------------------ *)
(** ** [AsyncQueue] *)

(** A waiter is the [resolve] function of a suspended [dequeue()]; we name
    it by the caller that is suspended (a worker index). *)
Definition waiter := nat.

Record AsyncQueue := mkQueue {
  items : list QueueItem;
  processing : list string;
  completed : list (string * QueueItem);
  failed : list (string * QueueItem);
  skipped : list (string * QueueItem);
  closed : bool;
  waiters : list waiter;
  maxConcurrent : nat
}.

(** [constructor(private readonly maxConcurrent: number = 1)] *)
Definition new_AsyncQueue (maxConcurrent : nat) : AsyncQueue :=
  mkQueue [] [] [] [] [] false [] maxConcurrent.

(** A call [waiter(x)]: resumes the suspended caller with [x]. *)
Definition wake := (waiter * option QueueItem)%type.

Definition with_items (q : AsyncQueue) l :=
  mkQueue l (processing q) (completed q) (failed q) (skipped q) (closed q) (waiters q) (maxConcurrent q).
Definition with_processing (q : AsyncQueue) p :=
  mkQueue (items q) p (completed q) (failed q) (skipped q) (closed q) (waiters q) (maxConcurrent q).
Definition with_waiters (q : AsyncQueue) w :=
  mkQueue (items q) (processing q) (completed q) (failed q) (skipped q) (closed q) w (maxConcurrent q).
Definition with_completed (q : AsyncQueue) c :=
  mkQueue (items q) (processing q) c (failed q) (skipped q) (closed q) (waiters q) (maxConcurrent q).
Definition with_failed (q : AsyncQueue) f :=
  mkQueue (items q) (processing q) (completed q) f (skipped q) (closed q) (waiters q) (maxConcurrent q).
Definition with_skipped (q : AsyncQueue) s :=
  mkQueue (items q) (processing q) (completed q) (failed q) s (closed q) (waiters q) (maxConcurrent q).
Definition with_closed (q : AsyncQueue) b :=
  mkQueue (items q) (processing q) (completed q) (failed q) (skipped q) b (waiters q) (maxConcurrent q).

(** [notifyWaiters]: the [while] loop shifts one waiter per iteration, so
    it is structural on the waiter list. *)
Fixpoint notify_loop (ws : list waiter) (its : list QueueItem) (proc : list string)
    (max : nat) : list waiter * list QueueItem * list string * list wake :=
  match ws, its with
  | w :: ws', it :: its' =>
      if Nat.ltb (List.length proc) max then
        let '(ws'', its'', proc'', ev) := notify_loop ws' its' (set_add (id it) proc) max in
        (ws'', its'', proc'', (w, Some it) :: ev)
      else (ws, its, proc, [])
  | _, _ => (ws, its, proc, [])
  end.

Definition notifyWaiters (q : AsyncQueue) : AsyncQueue * list wake :=
  let '(ws, its, proc, ev) := notify_loop (waiters q) (items q) (processing q) (maxConcurrent q) in
  (mkQueue its proc (completed q) (failed q) (skipped q) (closed q) ws (maxConcurrent q), ev).

(** [enqueue] / [enqueueMany]: an [async] method that throws yields a
    rejected promise and leaves the queue unchanged. *)
Definition enqueueMany (its : list QueueItem) (q : AsyncQueue)
    : option (AsyncQueue * list wake) :=
  if closed q then None
  else Some (notifyWaiters (with_items q (sort_by_priority (items q ++ its)))).

Definition enqueue (it : QueueItem) (q : AsyncQueue) : option (AsyncQueue * list wake) :=
  if closed q then None
  else Some (notifyWaiters (with_items q (sort_by_priority (items q ++ [it])))).

(** What the promise returned by [dequeue()] does: it is settled at once
    with a value, or the caller is left suspended as a waiter. *)
Inductive DequeueOutcome := Returned (r : option QueueItem) | Suspended.

Definition dequeue (w : waiter) (q : AsyncQueue) : AsyncQueue * DequeueOutcome :=
  if closed q && Nat.eqb (List.length (items q)) 0 then (q, Returned None)
  else
    match items q with
    | it :: rest =>
        if Nat.ltb (List.length (processing q)) (maxConcurrent q) then
          (with_processing (with_items q rest) (set_add (id it) (processing q)),
           Returned (Some it))
        else if closed q then (q, Returned None)
        else (with_waiters q (waiters q ++ [w]), Suspended)
    | [] =>
        if closed q then (q, Returned None)
        else (with_waiters q (waiters q ++ [w]), Suspended)
    end.

Definition markCompleted (it : QueueItem) (q : AsyncQueue) : AsyncQueue * list wake :=
  let q1 := with_processing q (set_delete (id it) (processing q)) in
  let it' := set_status StCompleted it in
  notifyWaiters (with_completed q1 (map_set (id it) it' (completed q1))).

Definition markFailed (it : QueueItem) (code message : string) (q : AsyncQueue)
    : AsyncQueue * list wake :=
  let q1 := with_processing q (set_delete (id it) (processing q)) in
  let it' := set_error (Some (mkError code message false)) (set_status StFailed it) in
  notifyWaiters (with_failed q1 (map_set (id it) it' (failed q1))).

Definition markSkipped (it : QueueItem) (reason : string) (q : AsyncQueue)
    : AsyncQueue * list wake :=
  let q1 := with_processing q (set_delete (id it) (processing q)) in
  let it' := set_error (Some (mkError "SKIPPED" reason false)) (set_status StSkipped it) in
  notifyWaiters (with_skipped q1 (map_set (id it) it' (skipped q1))).

(** The body of [requeue] up to its final [notifyWaiters()]. *)
Definition requeue_body (it : QueueItem) (q : AsyncQueue) : AsyncQueue * list wake :=
  let q1 := with_processing q (set_delete (id it) (processing q)) in
  let it1 := set_attempts (attempts it + 1) it in
  if (attempts it1 <? maxAttempts it1)%Z then
    let it2 := set_status StPending it1 in
    (with_items q1 (sort_by_priority (items q1 ++ [it2])), [])
  else markFailed it1 "MAX_ATTEMPTS"
         (String.append "Exceeded max attempts ("
            (String.append (NilZero.string_of_int (Z.to_int (maxAttempts it1))) ")")) q1.

Definition requeue (it : QueueItem) (q : AsyncQueue) : AsyncQueue * list wake :=
  let '(q1, ev1) := requeue_body it q in
  let '(q2, ev2) := notifyWaiters q1 in
  (q2, ev1 ++ ev2).

Definition close (q : AsyncQueue) : AsyncQueue * list wake :=
  (with_waiters (with_closed q true) [], map (fun w => (w, None)) (waiters q)).

(** Every queue method a caller can invoke, with its arguments.  The
    [JavaScript] callers (the worker pool, [App]) reach the queue only
    through these. *)
Inductive QueueOp :=
  | OpEnqueue (it : QueueItem)
  | OpEnqueueMany (its : list QueueItem)
  | OpDequeue (w : waiter)
  | OpMarkCompleted (it : QueueItem)
  | OpMarkFailed (it : QueueItem) (code message : string)
  | OpMarkSkipped (it : QueueItem) (reason : string)
  | OpRequeue (it : QueueItem)
  | OpClose.

(** One queue call: the new queue and the callers it resumes.  A
    [dequeue(w)] that settles at once resumes its own caller [w]. *)
Definition run_op (op : QueueOp) (q : AsyncQueue) : AsyncQueue * list wake :=
  match op with
  | OpEnqueue it => match enqueue it q with Some r => r | None => (q, []) end
  | OpEnqueueMany its => match enqueueMany its q with Some r => r | None => (q, []) end
  | OpDequeue w =>
      match dequeue w q with
      | (q', Returned r) => (q', [(w, r)])
      | (q', Suspended) => (q', [])
      end
  | OpMarkCompleted it => markCompleted it q
  | OpMarkFailed it c m => markFailed it c m q
  | OpMarkSkipped it r => markSkipped it r q
  | OpRequeue it => requeue it q
  | OpClose => close q
  end.

Definition apply_op (op : QueueOp) (q : AsyncQueue) : AsyncQueue := fst (run_op op q).

(** Queue states reachable from the queue built by
    [WorkerPool.constructor]: [this.queue = new AsyncQueue(workerCount)]. *)
Inductive queue_reachable (W : nat) : AsyncQueue -> Prop :=
  | qr_init : queue_reachable W (new_AsyncQueue W)
  | qr_step : forall q op, queue_reachable W q -> queue_reachable W (apply_op op q).

(** The number of items in the [processing] set is within the limit. *)
Definition within_limit (q : AsyncQueue) : Prop :=
  List.length (processing q) <= maxConcurrent q.

(* ------------------------------------------------------------------ *)
(** ** [WorkerPool] *)

(** What the call [await this.processor(item)] did.  [ProcessingResult] has
    no error field: a processor reports an error by writing [item.error] on
    the item object it receives (the object the queue holds), so a returned
    outcome records [success] and the value of [item.error] once the
    returned promise settles.  [ProcThrew] is a rejected promise. *)
Inductive ProcOutcome :=
  | ProcReturned (success : bool) (item_error : option ProcessingError)
  | ProcThrew (message : string).

(** [ProcessingResult]: [queueItem] (by its id) and [success]; [duration]
    and [warnings] are not read by the core. *)
Record ProcessingResult := mkResult {
  res_item : string;
  res_success : bool
}.

(** Where the [workerLoop] of one worker is. *)
Inductive WorkerState :=
  | WLoopHead                (** at [while (this.running)] *)
  | WWaiting                 (** suspended in [await this.queue.dequeue()] *)
  | WBusy (it : QueueItem)   (** suspended in [await this.processor(item)] *)
  | WExited.                 (** the loop has returned *)

(** [acquired] is a ghost field: the ids of the items handed to a worker,
    in order (one entry per acquisition). *)
Record WorkerPool := mkPool {
  workerCount : nat;
  queue : AsyncQueue;
  workers : list WorkerState;
  results : list ProcessingResult;
  running : bool;
  acquired : list string
}.

Definition new_WorkerPool (workerCount : nat) : WorkerPool :=
  mkPool workerCount (new_AsyncQueue workerCount) [] [] false [].

Fixpoint set_nth {A} (n : nat) (x : A) (l : list A) : list A :=
  match l, n with
  | [], _ => []
  | _ :: l', O => x :: l'
  | y :: l', S n' => y :: set_nth n' x l'
  end.

(** Resuming suspended [dequeue()] callers: with an item the worker goes on
    with [item.status = "processing"] and the processor call; with [null] it
    leaves the loop ([break]). *)
Fixpoint resume (ev : list wake) (ws : list WorkerState) (acq : list string)
    : list WorkerState * list string :=
  match ev with
  | [] => (ws, acq)
  | (w, Some it) :: ev' =>
      resume ev' (set_nth w (WBusy (set_status StProcessing it)) ws) (acq ++ [id it])
  | (w, None) :: ev' => resume ev' (set_nth w WExited ws) acq
  end.

Definition with_queue (p : WorkerPool) (q : AsyncQueue) (ev : list wake) : WorkerPool :=
  let '(ws, acq) := resume ev (workers p) (acquired p) in
  mkPool (workerCount p) q ws (results p) (running p) acq.

(** The part of [workerLoop] after [await this.processor(item)]: the
    [catch] branch, then the queue update. *)
Definition after_processor (it : QueueItem) (o : ProcOutcome) : QueueItem * ProcessingResult :=
  match o with
  | ProcReturned s e => (set_error e it, mkResult (id it) s)
  | ProcThrew m =>
      (set_error (Some (mkError "PROCESSOR_ERROR" m false)) it, mkResult (id it) false)
  end.

Definition update_queue (it : QueueItem) (success : bool) (q : AsyncQueue)
    : AsyncQueue * list wake :=
  if success then markCompleted it q
  else if match error it with Some e => err_recoverable e | None => false end
          && (attempts it <? maxAttempts it)%Z
  then requeue it q
  else match error it with
       | Some e => markFailed it (err_code e) (err_message e) q
       | None => markFailed it "UNKNOWN" "Unknown error" q
       end.

(** The pool's entry points and the pieces of [workerLoop] between two
    [await]s.  [start()] runs every new loop up to its first [await]; here
    each loop then takes [PLoop] steps, which allows every interleaving the
    event loop allows (and possibly more). *)
Inductive PoolStep :=
  | PSubmit (it : QueueItem)
  | PSubmitMany (its : list QueueItem)
  | PStart
  | PClose                     (** the first statement of [waitForCompletion()] *)
  | PCompletionDone            (** [Promise.all(this.workers)] settled *)
  | PShutdown
  | PLoop (w : nat)
  | PFinish (w : nat) (o : ProcOutcome).

Definition all_exited (ws : list WorkerState) : bool :=
  forallb (fun s => match s with WExited => true | _ => false end) ws.

Definition pool_step (s : PoolStep) (p : WorkerPool) : option WorkerPool :=
  match s with
  | PSubmit it =>
      match enqueue it (queue p) with
      | Some (q, ev) => Some (with_queue p q ev)
      | None => Some p
      end
  | PSubmitMany its =>
      match enqueueMany its (queue p) with
      | Some (q, ev) => Some (with_queue p q ev)
      | None => Some p
      end
  | PStart =>
      if running p then Some p
      else Some (mkPool (workerCount p) (queue p)
                   (workers p ++ repeat WLoopHead (workerCount p))
                   (results p) true (acquired p))
  | PClose => let '(q, ev) := close (queue p) in Some (with_queue p q ev)
  | PCompletionDone =>
      if all_exited (workers p)
      then Some (mkPool (workerCount p) (queue p) (workers p) (results p) false (acquired p))
      else None
  | PShutdown =>
      let '(q, ev) := close (queue p) in
      Some (with_queue (mkPool (workerCount p) (queue p) (workers p) (results p) false
                          (acquired p)) q ev)
  | PLoop w =>
      match nth_error (workers p) w with
      | Some WLoopHead =>
          if running p then
            match dequeue w (queue p) with
            | (q, Returned (Some it)) =>
                Some (mkPool (workerCount p) q
                        (set_nth w (WBusy (set_status StProcessing it)) (workers p))
                        (results p) (running p) (acquired p ++ [id it]))
            | (q, Returned None) =>
                Some (mkPool (workerCount p) q (set_nth w WExited (workers p))
                        (results p) (running p) (acquired p))
            | (q, Suspended) =>
                Some (mkPool (workerCount p) q (set_nth w WWaiting (workers p))
                        (results p) (running p) (acquired p))
            end
          else Some (mkPool (workerCount p) (queue p) (set_nth w WExited (workers p))
                       (results p) (running p) (acquired p))
      | _ => None
      end
  | PFinish w o =>
      match nth_error (workers p) w with
      | Some (WBusy it) =>
          let '(it', r) := after_processor it o in
          let '(q, ev) := update_queue it' (res_success r) (queue p) in
          Some (with_queue (mkPool (workerCount p) (queue p)
                              (set_nth w WLoopHead (workers p))
                              (results p ++ [r]) (running p) (acquired p)) q ev)
      | _ => None
      end
  end.

Inductive pool_reachable (W : nat) : WorkerPool -> Prop :=
  | pr_init : pool_reachable W (new_WorkerPool W)
  | pr_step : forall p s p', pool_reachable W p -> pool_step s p = Some p' ->
      pool_reachable W p'.

Fixpoint run_steps (ss : list PoolStep) (p : WorkerPool) : option WorkerPool :=
  match ss with
  | [] => Some p
  | s :: ss' => match pool_step s p with Some p' => run_steps ss' p' | None => None end
  end.

(** Counting acquisitions and results per item id. *)
Definition count_id (x : string) (l : list string) : nat :=
  List.length (filter (String.eqb x) l).

Definition busy_with (x : string) (s : WorkerState) : bool :=
  match s with WBusy it => String.eqb x (id it) | _ => false end.

Definition busy_count (x : string) (ws : list WorkerState) : nat :=
  List.length (filter (busy_with x) ws).

Definition busy_ind (x : string) (s : WorkerState) : nat := if busy_with x s then 1 else 0.

Definition is_busy (s : WorkerState) : bool :=
  match s with WBusy _ => true | _ => false end.

(** The ids of the items the workers are processing. *)
Definition busy_ids (ws : list WorkerState) : list string :=
  flat_map (fun s => match s with WBusy it => [id it] | _ => [] end) ws.

(** [Map.get] on the association list of [map_set]. *)
Fixpoint map_get {V} (k : string) (m : list (string * V)) : option V :=
  match m with
  | [] => None
  | (k', v) :: m' => if String.eqb k k' then Some v else map_get k m'
  end.

(** A queue call that resumes the first [n] waiters, in order, and keeps the
    others suspended. *)
Definition wakes_prefix (q q' : AsyncQueue) (ev : list wake) : Prop :=
  waiters q' = skipn (List.length ev) (waiters q) /\
  map fst ev = firstn (List.length ev) (waiters q).

(** The waiters are exactly the suspended workers, once each; and every
    acquisition has produced a result or is still being processed. *)
Definition pool_inv (p : WorkerPool) : Prop :=
  NoDup (waiters (queue p)) /\
  (forall w, In w (waiters (queue p)) <-> nth_error (workers p) w = Some WWaiting) /\
  (forall x, count_id x (map res_item (results p)) + busy_count x (workers p)
             = count_id x (acquired p)).

(** Order of the pending array: ascending [priority]. *)
Definition prio_le (a b : QueueItem) : Prop := (priority a <= priority b)%Z.

Definition has_priority (p : Z) (it : QueueItem) : bool := Z.eqb (priority it) p.

(** A single consumer that repeatedly acquires an item and completes it
    (one worker of a pool with [W = 1] whose processor always succeeds). *)
Fixpoint drain (fuel : nat) (q : AsyncQueue) : list QueueItem :=
  match fuel with
  | O => []
  | S f =>
      match dequeue 0 q with
      | (q', Returned (Some it)) => it :: drain f (fst (markCompleted it q'))
      | _ => []
      end
  end.

(* ------------------------------------------------------------------ *)
(** ** Strings as JavaScript sees them (ASCII) *)

Definition slash : ascii := "/".

(** [String.prototype.toLowerCase] on ASCII characters. *)
Definition lower_ascii (c : ascii) : ascii :=
  let n := nat_of_ascii c in
  if Nat.leb 65 n && Nat.leb n 90 then ascii_of_nat (n + 32) else c.

Fixpoint to_lower (s : string) : string :=
  match s with
  | EmptyString => EmptyString
  | String c s' => String (lower_ascii c) (to_lower s')
  end.

Definition starts_with (pre s : string) : bool := String.prefix pre s.

Definition ends_with (suf s : string) : bool :=
  let n := String.length s in
  let k := String.length suf in
  Nat.leb k n && String.eqb (substring (n - k) k s) suf.

(** [s.slice(a, b)] with JavaScript's clamping of negative and large
    indices. *)
Definition js_index (len : nat) (x : Z) : nat :=
  if (x <? 0)%Z then Z.to_nat (Z.max 0 (Z.of_nat len + x)) else Nat.min (Z.to_nat x) len.

Definition js_slice (s : string) (a b : Z) : string :=
  let n := String.length s in
  let i := js_index n a in
  let j := js_index n b in
  if Nat.ltb i j then substring i (j - i) s else "".

(** The characters of [s] from the last to the first, with their index. *)
Definition rev_indexed (s : string) : list (Z * ascii) :=
  rev (combine (map Z.of_nat (seq 0 (String.length s))) (list_ascii_of_string s)).

(** [s.replace(/[\\/]/g, "_")] *)
Fixpoint replace_seps (s : string) : string :=
  match s with
  | EmptyString => EmptyString
  | String c s' =>
      String (if Ascii.eqb c slash || Ascii.eqb c "092"%char then "_"%char else c)
        (replace_seps s')
  end.

(* ------------------------------------------------------------------ *)
(** ** [node:path] (POSIX) *)

(** The segments of a path between its ['/'] characters. *)
Fixpoint split_slash (s : string) : list string :=
  match s with
  | EmptyString => [""]
  | String c s' =>
      let r := split_slash s' in
      if Ascii.eqb c slash then "" :: r
      else match r with
           | x :: r' => String c x :: r'
           | [] => [String c ""]
           end
  end.

(** [normalizeString(path, allowAboveRoot)], written over segments: empty
    and ["."] segments are dropped, [".."] removes the last kept segment,
    or is kept when nothing can be removed and [allowAboveRoot] holds.
    [acc] holds the kept segments, last first. *)
Fixpoint norm_aux (allow : bool) (segs acc : list string) : list string :=
  match segs with
  | [] => rev acc
  | s :: rest =>
      if String.eqb s "" || String.eqb s "." then norm_aux allow rest acc
      else if String.eqb s ".." then
        match acc with
        | x :: acc' =>
            if String.eqb x ".." then norm_aux allow rest (if allow then ".." :: acc else acc)
            else norm_aux allow rest acc'
        | [] => norm_aux allow rest (if allow then [".."] else [])
        end
      else norm_aux allow rest (s :: acc)
  end.

Definition normalizeString (p : string) (allowAboveRoot : bool) : string :=
  String.concat "/" (norm_aux allowAboveRoot (split_slash p) []).

Definition is_absolute (p : string) : bool := starts_with "/" p.

Definition normalize (p : string) : string :=
  if String.eqb p "" then "."
  else
    let abs := is_absolute p in
    let trailing := ends_with "/" p in
    let n := normalizeString p (negb abs) in
    if String.eqb n "" then (if abs then "/" else if trailing then "./" else ".")
    else
      let n' := if trailing then String.append n "/" else n in
      if abs then String.append "/" n' else n'.

(** [path.join(...args)] *)
Definition join (args : list string) : string :=
  match filter (fun a => negb (String.eqb a "")) args with
  | [] => "."
  | a :: rest => normalize (fold_left (fun j x => String.append j (String.append "/" x)) rest a)
  end.

(** [path.resolve(...args)]: the arguments from the last to the first, then
    [process.cwd()], are prefixed until one is absolute. *)
Fixpoint resolve_aux (rev_args : list string) (acc : string) : string * bool :=
  match rev_args with
  | [] => (acc, false)
  | a :: rest =>
      if String.eqb a "" then resolve_aux rest acc
      else
        let acc' := String.append a (String.append "/" acc) in
        if is_absolute a then (acc', true) else resolve_aux rest acc'
  end.

Definition resolve (cwd : string) (args : list string) : string :=
  let '(rp, abs) := resolve_aux (rev args ++ [cwd]) "" in
  let n := normalizeString rp (negb abs) in
  if abs then String.append "/" n else if String.eqb n "" then "." else n.

(** The non-empty segments of a resolved path. *)
Definition path_segs (p : string) : list string :=
  filter (fun s => negb (String.eqb s "")) (split_slash p).

Fixpoint strip_common (a b : list string) : list string * list string :=
  match a, b with
  | x :: a', y :: b' => if String.eqb x y then strip_common a' b' else (a, b)
  | _, _ => (a, b)
  end.

(** [path.relative(from, to)]: node compares the two resolved paths
    character by character up to the last common ['/']; on resolved
    absolute paths this is the common segment prefix. *)
Definition relative (cwd from to : string) : string :=
  if String.eqb from to then ""
  else
    let f := resolve cwd [from] in
    let t := resolve cwd [to] in
    if String.eqb f t then ""
    else
      let '(fs, ts) := strip_common (path_segs f) (path_segs t) in
      String.concat "/" (repeat ".." (List.length fs) ++ ts).

(** [path.dirname(path)]: the loop [for (i = len - 1; i >= 1; --i)]. *)
Fixpoint dirname_loop (rl : list (Z * ascii)) (matchedSlash : bool) : Z :=
  match rl with
  | [] => -1
  | (i, c) :: rl' =>
      if (i <? 1)%Z then -1
      else if Ascii.eqb c slash then
        (if matchedSlash then dirname_loop rl' matchedSlash else i)
      else dirname_loop rl' false
  end.

Definition dirname (p : string) : string :=
  if String.eqb p "" then "."
  else
    let hasRoot := is_absolute p in
    let e := dirname_loop (rev_indexed p) true in
    if (e =? -1)%Z then (if hasRoot then "/" else ".")
    else if hasRoot && (e =? 1)%Z then "//"
    else js_slice p 0 e.

(** The loop of [path.basename(path, suffix)] with a suffix: state
    [(start, end, matchedSlash, extIdx, firstNonSlashEnd)]. *)
Fixpoint basename_suffix_loop (suffix : string) (rl : list (Z * ascii))
    (start e : Z) (matchedSlash : bool) (extIdx fnse : Z) : Z * Z * Z :=
  match rl with
  | [] => (start, e, fnse)
  | (i, c) :: rl' =>
      if Ascii.eqb c slash then
        if matchedSlash then basename_suffix_loop suffix rl' start e matchedSlash extIdx fnse
        else (i + 1, e, fnse)%Z
      else
        let '(ms, fnse') := if (fnse =? -1)%Z then (false, (i + 1)%Z) else (matchedSlash, fnse) in
        if (extIdx >=? 0)%Z then
          if Ascii.eqb c (match get (Z.to_nat extIdx) suffix with Some d => d | None => Ascii.zero end)
          then
            let extIdx' := (extIdx - 1)%Z in
            basename_suffix_loop suffix rl' start (if (extIdx' =? -1)%Z then i else e) ms extIdx' fnse'
          else basename_suffix_loop suffix rl' start fnse' ms (-1) fnse'
        else basename_suffix_loop suffix rl' start e ms extIdx fnse'
  end.

(** The loop of [path.basename(path)] without a suffix. *)
Fixpoint basename_loop (rl : list (Z * ascii)) (start e : Z) (matchedSlash : bool) : Z * Z :=
  match rl with
  | [] => (start, e)
  | (i, c) :: rl' =>
      if Ascii.eqb c slash then
        if matchedSlash then basename_loop rl' start e matchedSlash else ((i + 1)%Z, e)
      else if (e =? -1)%Z then basename_loop rl' start (i + 1)%Z false
      else basename_loop rl' start e matchedSlash
  end.

Definition basename (p suffix : string) : string :=
  if Nat.ltb 0 (String.length suffix) && Nat.leb (String.length suffix) (String.length p) then
    if String.eqb suffix p then ""
    else
      let '(start, e, fnse) :=
        basename_suffix_loop suffix (rev_indexed p) 0 (-1) true
          (Z.of_nat (String.length suffix) - 1) (-1) in
      let e' := if (start =? e)%Z then fnse else if (e =? -1)%Z then Z.of_nat (String.length p) else e in
      js_slice p start e'
  else
    let '(start, e) := basename_loop (rev_indexed p) 0 (-1) true in
    if (e =? -1)%Z then "" else js_slice p start e.

(** The loop of [path.extname(path)]: state
    [(startDot, startPart, end, matchedSlash, preDotState)]. *)
Fixpoint extname_loop (rl : list (Z * ascii)) (startDot startPart e : Z)
    (matchedSlash : bool) (preDotState : Z) : Z * Z * Z * Z :=
  match rl with
  | [] => (startDot, startPart, e, preDotState)
  | (i, c) :: rl' =>
      if Ascii.eqb c slash then
        if matchedSlash then extname_loop rl' startDot startPart e matchedSlash preDotState
        else (startDot, (i + 1)%Z, e, preDotState)
      else
        let '(ms, e') := if (e =? -1)%Z then (false, (i + 1)%Z) else (matchedSlash, e) in
        if Ascii.eqb c "." then
          if (startDot =? -1)%Z then extname_loop rl' i startPart e' ms preDotState
          else extname_loop rl' startDot startPart e' ms
                 (if (preDotState =? 1)%Z then preDotState else 1%Z)
        else if negb (startDot =? -1)%Z then extname_loop rl' startDot startPart e' ms (-1)
        else extname_loop rl' startDot startPart e' ms preDotState
  end.

Definition extname (p : string) : string :=
  let '(startDot, startPart, e, preDotState) := extname_loop (rev_indexed p) (-1) 0 (-1) true 0 in
  if (startDot =? -1)%Z || (e =? -1)%Z || (preDotState =? 0)%Z
     || ((preDotState =? 1)%Z && (startDot =? e - 1)%Z && (startDot =? startPart + 1)%Z)
  then ""
  else js_slice p startDot e.

(* ------------------------------------------------------------------ *)
(** ** Tables of src/src/core/constants.ts *)

(** The arrays of [FILE_EXTENSIONS], one per category. *)
Definition ext_text : list string :=
  [".txt"; ".md"; ".csv"; ".json"; ".xml"; ".srt"; ".vtt"; ".yaml"; ".yml";
   ".toml"; ".ini"; ".cfg"; ".conf"].
Definition ext_code : list string :=
  [".ts"; ".tsx"; ".js"; ".jsx"; ".py"; ".java"; ".c"; ".cpp"; ".h"; ".hpp";
   ".cs"; ".go"; ".rs"; ".rb"; ".php"; ".swift"; ".kt"; ".scala"; ".lua";
   ".sh"; ".bash"; ".ps1"; ".bat"; ".cmd"; ".sql"; ".r"; ".m"; ".f90";
   ".asm"; ".s"; ".pl"; ".pm"; ".tcl"; ".vim"; ".el"; ".clj"; ".ex"; ".exs";
   ".erl"; ".hs"; ".ml"; ".fs"; ".v"; ".sv"; ".vhd"; ".vhdl"].
Definition ext_document : list string :=
  [".pdf"; ".docx"; ".doc"; ".pptx"; ".ppt"; ".xlsx"; ".xls"; ".odt"; ".ods"; ".odp"].
Definition ext_database : list string :=
  [".db"; ".sqlite"; ".sqlite3"; ".mdb"; ".accdb"; ".dbf"; ".h2"].
Definition ext_archive : list string :=
  [".zip"; ".rar"; ".7z"; ".tar"; ".gz"; ".tgz"; ".bz2"; ".xz"; ".tar.gz"; ".tar.bz2"; ".tar.xz"].
Definition ext_image : list string :=
  [".png"; ".jpg"; ".jpeg"; ".gif"; ".bmp"; ".tiff"; ".tif"; ".webp"; ".svg"].
Definition ext_html : list string := [".html"; ".htm"; ".xhtml"; ".mhtml"].
Definition ext_video : list string :=
  [".mp4"; ".mkv"; ".avi"; ".mov"; ".wmv"; ".flv"; ".webm"; ".m4v"; ".mpeg"; ".mpg"; ".3gp"].
Definition ext_audio : list string :=
  [".mp3"; ".wav"; ".flac"; ".aac"; ".ogg"; ".wma"; ".m4a"; ".opus"; ".aiff"].

(** [FILE_EXTENSIONS], in the key order that [Object.entries] returns. *)
Definition FILE_EXTENSIONS : list (FileCategory * list string) :=
  [(Text, ext_text); (Code, ext_code); (Document, ext_document); (Database, ext_database);
   (Archive, ext_archive); (Image, ext_image); (Html, ext_html); (Video, ext_video);
   (Audio, ext_audio); (Unknown, [])].

(** [Set.prototype.has] on a set built from string arrays. *)
Definition set_mem (x : string) (s : list string) : bool := existsb (String.eqb x) s.

Definition SKIP_EXTENSIONS : list string := ext_video ++ ext_audio.

Definition TEXT_EXTENSIONS : list string := ext_text ++ ext_code.

(** [SKILL_MAPPINGS]: extension, skill, output format. *)
Definition SKILL_MAPPINGS : list (string * (string * string)) :=
  [(".pdf", ("pdf", ".md")); (".docx", ("docx", ".md")); (".doc", ("docx", ".md"));
   (".pptx", ("pptx", ".md")); (".ppt", ("pptx", ".md"));
   (".xlsx", ("xlsx-processor", ".csv")); (".xls", ("xlsx-processor", ".csv"));
   (".db", ("db-identify", ".csv")); (".sqlite", ("db-identify", ".csv"));
   (".sqlite3", ("db-identify", ".csv")); (".mdb", ("db-identify", ".csv"));
   (".accdb", ("db-identify", ".csv"));
   (".html", ("html2markdown", ".md")); (".htm", ("html2markdown", ".md"));
   (".png", ("image-ocr", ".txt")); (".jpg", ("image-ocr", ".txt"));
   (".jpeg", ("image-ocr", ".txt")); (".gif", ("image-ocr", ".txt"));
   (".bmp", ("image-ocr", ".txt")); (".tiff", ("image-ocr", ".txt"));
   (".tif", ("image-ocr", ".txt"));
   (".zip", ("archive-extractor", "directory")); (".rar", ("archive-extractor", "directory"));
   (".7z", ("archive-extractor", "directory")); (".tar", ("archive-extractor", "directory"));
   (".gz", ("archive-extractor", "directory")); (".tgz", ("archive-extractor", "directory"));
   (".tar.gz", ("archive-extractor", "directory"));
   (".tar.bz2", ("archive-extractor", "directory"))].

(** The properties every object literal inherits from [Object.prototype];
    [obj[key]] finds them when [key] is not an own property. *)
Definition OBJECT_PROTOTYPE_KEYS : list string :=
  ["constructor"; "__defineGetter__"; "__defineSetter__"; "hasOwnProperty";
   "__lookupGetter__"; "__lookupSetter__"; "isPrototypeOf"; "propertyIsEnumerable";
   "toString"; "valueOf"; "__proto__"; "toLocaleString"].

(** What [SKILL_MAPPINGS[ext]] evaluates to: an own entry, an inherited
    [Object.prototype] member (a function or an object: truthy, with no
    [skill] or [outputFormat] property), or [undefined]. *)
Inductive Lookup := LOwn (skill outputFormat : string) | LInherited | LUndefined.

Fixpoint assoc {V} (k : string) (m : list (string * V)) : option V :=
  match m with
  | [] => None
  | (k', v) :: m' => if String.eqb k k' then Some v else assoc k m'
  end.

Definition skill_mapping (ext : string) : Lookup :=
  match assoc ext SKILL_MAPPINGS with
  | Some (sk, fmt) => LOwn sk fmt
  | None => if set_mem ext OBJECT_PROTOTYPE_KEYS then LInherited else LUndefined
  end.

(* ------------------------------------------------------------------ *)
(** ** [SkillRegistry.getRoutingDecision] (the [metadata] field is only
    informative and is omitted) *)

Definition getRoutingDecision (extension : string) : RoutingDecision :=
  let ext := to_lower extension in
  if set_mem ext SKIP_EXTENSIONS then mkDecision Skip None None
  else if set_mem ext TEXT_EXTENSIONS then mkDecision Passthrough None (Some ext)
  else match skill_mapping ext with
       | LOwn sk fmt =>
           if String.eqb fmt "directory" then mkDecision ArchiveM (Some sk) (Some fmt)
           else mkDecision Skill (Some sk) (Some fmt)
       | LInherited => mkDecision Skill None None
       | LUndefined => mkDecision Unsupported None None
       end.

(** [FileRouter.routeByExtension] *)
Definition routeByExtension (f : ScannedFile) : RoutingDecision :=
  getRoutingDecision (sf_extension f).

(* ------------------------------------------------------------------ *)
(** ** [Scanner] (src/unnamed/part_005, scanner.ts) *)

(** [Scanner.getExtension] *)
Definition compoundExtensions : list string := [".tar.gz"; ".tar.bz2"; ".tar.xz"].

Definition getExtension (filename : string) : string :=
  let lowerName := to_lower filename in
  match find (fun ext => ends_with ext lowerName) compoundExtensions with
  | Some ext => ext
  | None => to_lower (extname filename)
  end.

(** [Scanner.categorizeFile]: the first entry of [FILE_EXTENSIONS] whose
    array includes the extension. *)
Definition categorizeFile (extension : string) : FileCategory :=
  match find (fun ce => set_mem extension (snd ce)) FILE_EXTENSIONS with
  | Some (category, _) => category
  | None => Unknown
  end.

Definition is_video_or_audio (c : FileCategory) : bool :=
  match c with Video | Audio => true | _ => false end.

(** The file system below the scanned directory, as [readdirSync] and
    [statSync] see it: a regular file with its size, a directory (readable
    or not) with its entries in [readdirSync] order, some other kind of
    entry, or an entry whose [statSync] throws. *)
#[warnings="-register-all"]
Inductive FsNode :=
  | FsFile (size : Z)
  | FsDir (readable : bool) (entries : list (string * FsNode))
  | FsOther
  | FsStatError.

(** [ScanOptions] without [excludePatterns], which only the constructor
    reads; an absent flag is [undefined], i.e. [false]. *)
Record ScanOptions := mkScanOptions {
  recursive : bool;
  includeHidden : bool
}.

(** [{ recursive: true }], the default of [scanDirectory]. *)
Definition default_ScanOptions : ScanOptions := mkScanOptions true false.

(** A [Scanner]: its exclude patterns, each given by the [test] method of
    the compiled [RegExp]. *)
Record Scanner := mkScanner {
  excludePatterns : list (string -> bool)
}.

Definition shouldExclude (sc : Scanner) (path : string) : bool :=
  existsb (fun test => test path) (excludePatterns sc).

(** [Scanner.scanRecursive]; [files.push] appends, so the result lists the
    files in the order they are pushed.  [cwd] is [process.cwd()], read by
    [relative]. *)
Fixpoint scanRecursive (sc : Scanner) (cwd currentPath courseId coursePath : string)
    (options : ScanOptions) (dir : FsNode) {struct dir} : list ScannedFile :=
  match dir with
  | FsDir true entries =>
      (fix loop (es : list (string * FsNode)) : list ScannedFile :=
         match es with
         | [] => []
         | (entry, node) :: es' =>
             let pushed :=
               if negb (includeHidden options) && starts_with "." entry then []
               else if starts_with "__cc" entry then []
               else
                 let fullPath := join [currentPath; entry] in
                 if shouldExclude sc fullPath then []
                 else match node with
                      | FsDir _ _ =>
                          if recursive options
                          then scanRecursive sc cwd fullPath courseId coursePath options node
                          else []
                      | FsFile size =>
                          let ext := getExtension entry in
                          let category := categorizeFile ext in
                          if is_video_or_audio category then []
                          else [mkScannedFile fullPath (relative cwd coursePath fullPath)
                                  entry ext size category courseId coursePath]
                      | FsOther | FsStatError => []
                      end
             in pushed ++ loop es'
         end) entries
  | _ => []   (* [readdirSync] throws *)
  end.

(** [Scanner.scanDirectory]; [existsSync] is false exactly when [statSync]
    fails. *)
Definition scanDirectory (sc : Scanner) (cwd dirPath courseId coursePath : string)
    (options : ScanOptions) (root : FsNode) : list ScannedFile :=
  match root with
  | FsStatError => []
  | _ => scanRecursive sc cwd dirPath courseId coursePath options root
  end.

(** The scanner of [CourseDetector] ([new Scanner()]: no exclude patterns),
    as [createCourse] calls it. *)
Definition course_files (cwd coursePath courseId : string) (root : FsNode) : list ScannedFile :=
  scanDirectory (mkScanner []) cwd coursePath courseId coursePath default_ScanOptions root.

(* ------------------------------------------------------------------ *)
(** ** [OutputManager.getOutputPath] (src/src/output/output-manager.ts) *)

Definition js_truthy_string (s : string) : bool := negb (String.eqb s "").

Definition getOutputPath (cwd : string) (f : ScannedFile) (outputDir : string)
    (outputFormat : option string) : string :=
  let relPath := relative cwd (sf_coursePath f) (sf_path f) in
  let relDir := dirname relPath in
  let prefix :=
    if js_truthy_string relDir && negb (String.eqb relDir ".")
    then String.append (replace_seps relDir) "_" else "" in
  let currentExt := sf_extension f in
  let newExt :=
    match outputFormat with
    | Some fmt => if js_truthy_string fmt && negb (String.eqb fmt "directory") then fmt else currentExt
    | None => currentExt
    end in
  let baseName := basename (sf_name f) currentExt in
  let outputName := String.append prefix (String.append baseName newExt) in
  join [outputDir; outputName].

(* ------------------------------------------------------------------ *)
(** ** The item-building loop of [App.processCourse] (src/src/core/app.ts) *)

(** A warning of [errorLogger.logWarning(message, path)]. *)
Record Warning := mkWarning { warn_message : string; warn_path : string }.

(** [createQueueItem(file, { stage: "convert" })] with the id that
    [crypto.randomUUID()] returned, then [routedTo] and [outputPath] set. *)
Definition build_item (uuid : string) (f : ScannedFile) (decision : RoutingDecision)
    (outputPath : string) : QueueItem :=
  mkItem uuid f StPending Convert 0%Z 0%Z 3%Z (Some decision) (Some outputPath) None.

(** The [for (const file of course.files)] loop: the queue items it pushes
    and the warnings it logs.  [uuids n] is the [n]-th value of
    [crypto.randomUUID()]. *)
Fixpoint build_queue_items (cwd validatedFilesPath : string) (uuids : nat -> string)
    (n : nat) (files : list ScannedFile) : list QueueItem * list Warning :=
  match files with
  | [] => ([], [])
  | f :: fs =>
      let decision := routeByExtension f in
      match method decision with
      | Unsupported =>
          let '(its, ws) := build_queue_items cwd validatedFilesPath uuids n fs in
          (its, mkWarning (String.append "Unsupported file type: " (sf_extension f)) (sf_path f) :: ws)
      | Skip => build_queue_items cwd validatedFilesPath uuids n fs
      | _ =>
          let outPath := getOutputPath cwd f validatedFilesPath (outputFormat decision) in
          let '(its, ws) := build_queue_items cwd validatedFilesPath uuids (S n) fs in
          (build_item (uuids n) f decision outPath :: its, ws)
      end
  end.

(** [processCourse] then calls [workerPool.submitMany(queueItems)]: the
    pool's first step. *)
Definition processCourse_first_step (cwd validatedFilesPath : string) (uuids : nat -> string)
    (files : list ScannedFile) : PoolStep :=
  PSubmitMany (fst (build_queue_items cwd validatedFilesPath uuids 0 files)).

(* ------------------------------------------------------------------ *)
(** ** Sample inputs *)

Definition sample_file (name ext : string) : ScannedFile :=
  mkScannedFile (String.append "/course/" name) name name ext 0%Z Code "course" "/course".

(** What [createQueueItem(file, { priority })] builds, with a given id. *)
Definition sample_item (i : string) (p : Z) : QueueItem :=
  mkItem i (sample_file (String.append i ".ts") ".ts") StPending Scan p 0%Z 3%Z None None None.

(** Two workers; item "x" is taken by worker 0, then the queue is closed. *)
Definition q_closed_busy : AsyncQueue :=
  apply_op OpClose (apply_op (OpDequeue 0) (apply_op (OpEnqueue (sample_item "x" 0)) (new_AsyncQueue 2))).

(** Scenario A: priorities [3,1,2,1,0], ids "a".."e" in submission order. *)
Definition scenario_A : list QueueItem :=
  [sample_item "a" 3; sample_item "b" 1; sample_item "c" 2; sample_item "d" 1; sample_item "e" 0].

Definition submit_each (its : list QueueItem) (q : AsyncQueue) : AsyncQueue :=
  fold_left (fun q it => apply_op (OpEnqueue it) q) its q.

(** The pool reached from [new WorkerPool(W, processor)] by a schedule. *)
Definition run_from (W : nat) (ss : list PoolStep) : WorkerPool :=
  match run_steps ss (new_WorkerPool W) with Some p => p | None => new_WorkerPool W end.

(** Scenario B, as [App.processCourse] drives the pool ([submitMany],
    [start], [waitForCompletion]), with one worker and a processor whose
    every call has outcome [o]. *)
Definition scenario_B_steps (o : ProcOutcome) (X : QueueItem) : list PoolStep :=
  [PSubmitMany [X]; PStart; PLoop 0; PClose;
   PFinish 0 o; PLoop 0; PFinish 0 o; PLoop 0; PFinish 0 o; PLoop 0; PCompletionDone].

(** A processor that returns [{ success: false }] after setting a
    recoverable [item.error]. *)
Definition fails_recoverably (c m : string) : ProcOutcome :=
  ProcReturned false (Some (mkError c m true)).

(** No worker can acquire an item any more: the queue is closed and empty
    and no worker is processing. *)
Definition quiescent (p : WorkerPool) : Prop :=
  closed (queue p) = true /\ items (queue p) = [] /\ filter is_busy (workers p) = [].

(** One worker has taken item "x"; its processor call then rejects. *)
Definition c9_pool : WorkerPool :=
  run_from 1 [PSubmit (sample_item "x" 0); PStart; PLoop 0].

Definition c9_pool' : WorkerPool :=
  match pool_step (PFinish 0 (ProcThrew "boom")) c9_pool with Some p => p | None => c9_pool end.

(** Scenario B run to completion on the item "x" of [sample_item]. *)
Definition c10_pool : WorkerPool :=
  run_from 1 (scenario_B_steps (fails_recoverably "E" "failed") (sample_item "x" 0)).


(** Normalized absolute paths: ["/"] followed by segments that are
    non-empty, not ["."] or [".."], and free of ['/']. *)
Definition has_slash (s : string) : bool := existsb (Ascii.eqb slash) (list_ascii_of_string s).

Definition good_seg (s : string) : bool :=
  negb (String.eqb s "") && negb (String.eqb s ".") && negb (String.eqb s "..") && negb (has_slash s).

Definition abs_path (segs : list string) : string := String.append "/" (String.concat "/" segs).

Definition seg_or_empty (s : string) : Prop := s = "" \/ good_seg s = true.

Definition nonempty (s : string) : bool := negb (String.eqb s "").

(** The indices of a list of [(index, character)] pairs of [p] decrease
    strictly, below [bound]. *)
Fixpoint desc_ok (p : string) (bound : Z) (rl : list (Z * ascii)) : Prop :=
  match rl with
  | [] => True
  | (i, c) :: r => (0 <= i < bound)%Z /\ get (Z.to_nat i) p = Some c /\ desc_ok p i r
  end.

(** [p] has a ['.'] at [sd], strictly before the end index [e]. *)
Definition dot_at (p : string) (sd e : Z) : Prop :=
  (0 <= sd < e)%Z /\ (e <= Z.of_nat (String.length p))%Z /\ get (Z.to_nat sd) p = Some "."%char.

(** What an extension looks like: empty, or starting with a dot. *)
Definition extension_form (e : string) : bool := String.eqb e "" || starts_with "." e.

(** Scenario D: a course whose only file is [CODE/project1/main.cpp]. *)
Definition c5_tree (size : Z) : FsNode :=
  FsDir true [("CODE", FsDir true [("project1", FsDir true [("main.cpp", FsFile size)])])].

(** A course folder with hidden, output, video, audio and other files. *)
Definition c7_tree : FsNode :=
  FsDir true
    [(".git", FsDir true [("config", FsFile 10%Z)]);
     ("__cc_validated_files", FsDir true [("old.md", FsFile 5%Z)]);
     ("01-intro", FsDir true
        [("lecture.MP4", FsFile 1000%Z); ("lecture.srt", FsFile 20%Z);
         ("podcast.mp3", FsFile 500%Z); ("notes.md", FsFile 30%Z)]);
     ("slides.pdf", FsFile 40%Z)].

(** Two records of the same file that differ in the fields
    [getOutputPath] does not read. *)
Definition c8_file : ScannedFile :=
  mkScannedFile "/courses/c1/docs/guide.pdf" "docs/guide.pdf" "guide.pdf" ".pdf" 40%Z Document "c1" "/courses/c1".

Definition c8_file' : ScannedFile :=
  mkScannedFile "/courses/c1/docs/guide.pdf" "" "guide.pdf" ".pdf" 0%Z Unknown "other" "/courses/c1".

Record QueueStats := mkStats {
  st_total : nat; st_pending : nat; st_processing : nat;
  st_completed : nat; st_failed : nat; st_skipped : nat
}.

Definition getStats (q : AsyncQueue) : QueueStats :=
  mkStats
    (List.length (items q) + List.length (processing q) + List.length (completed q)
     + List.length (failed q) + List.length (skipped q))
    (List.length (items q)) (List.length (processing q)) (List.length (completed q))
    (List.length (failed q)) (List.length (skipped q)).

Definition getCompletedItems (q : AsyncQueue) : list QueueItem := map snd (completed q).

Definition getFailedItems (q : AsyncQueue) : list QueueItem := map snd (failed q).

Definition getSkippedItems (q : AsyncQueue) : list QueueItem := map snd (skipped q).

Definition isEmpty (q : AsyncQueue) : bool :=
  Nat.eqb (List.length (items q)) 0 && Nat.eqb (List.length (processing q)) 0.

Definition isComplete (q : AsyncQueue) : bool := closed q && isEmpty q.

Definition no_lost_wakeup (q : AsyncQueue) : Prop :=
  waiters q <> [] ->
  closed q = false /\ (items q = [] \/ maxConcurrent q <= List.length (processing q)).

Definition wake_items (ev : list wake) : list QueueItem :=
  flat_map (fun '(_, r) => match r with Some it => [it] | None => [] end) ev.

(* proofs *)

Definition new_entry {V} (k : string) (m : list (string * V)) : nat :=
  match map_get k m with Some _ => 0 | None => 1 end.

Definition stopped (p : WorkerPool) : Prop :=
  running p = false /\ closed (queue p) = true /\ waiters (queue p) = [].

(** An entry that [scanRecursive] passes over by its name alone. *)
Definition skipped_by_name (options : ScanOptions) (entry : string) : bool :=
  (negb (includeHidden options) && starts_with "." entry) || starts_with "__cc" entry.

(** The tree without the entries that [scanRecursive] skips by name, at
    every depth. *)
Fixpoint prune_skipped (options : ScanOptions) (n : FsNode) {struct n} : FsNode :=
  match n with
  | FsDir r es =>
      FsDir r ((fix loop (es : list (string * FsNode)) : list (string * FsNode) :=
                  match es with
                  | [] => []
                  | (e, c) :: es' =>
                      if skipped_by_name options e then loop es'
                      else (e, prune_skipped options c) :: loop es'
                  end) es)
  | _ => n
  end.

Definition lower_pair (x : Z * ascii) : Z * ascii := (fst x, lower_ascii (snd x)).

(** Every extension that [FILE_EXTENSIONS] lists. *)
Definition all_extensions : list string := flat_map snd FILE_EXTENSIONS.

(** The listed extensions that [getRoutingDecision] leaves unsupported. *)
Definition unrouted_listed : list string :=
  [".odt"; ".ods"; ".odp"; ".dbf"; ".h2"; ".bz2"; ".xz"; ".tar.xz"; ".webp"; ".svg";
   ".xhtml"; ".mhtml"].

Definition is_text_or_code (c : FileCategory) : bool :=
  match c with Text | Code => true | _ => false end.

Definition is_skill_category (c : FileCategory) : bool :=
  match c with Document | Database | Image | Html => true | _ => false end.

Definition method_is (m : RoutingMethod) (d : RoutingDecision) : bool :=
  match m, method d with
  | Passthrough, Passthrough | Skill, Skill | ArchiveM, ArchiveM | Skip, Skip
  | Unsupported, Unsupported => true
  | _, _ => false
  end.

Definition is_unknown (c : FileCategory) : bool := match c with Unknown => true | _ => false end.

Definition is_archive (c : FileCategory) : bool := match c with Archive => true | _ => false end.

(** How the category of an extension and its routing decision line up. *)
Definition category_route_agree (e : string) : bool :=
  let c := categorizeFile e in
  let d := getRoutingDecision e in
  Bool.eqb (is_video_or_audio c) (method_is Skip d) &&
  Bool.eqb (is_text_or_code c) (method_is Passthrough d) &&
  Bool.eqb (method_is Unsupported d) (is_unknown c || set_mem e unrouted_listed) &&
  (negb (method_is ArchiveM d) || is_archive c) &&
  (negb (method_is Skill d) || is_skill_category c).

(** [SkillInfo] (src/src/types/index.ts) *)
Record SkillInfo := mkSkillInfo {
  sk_name : string;
  sk_description : string;
  sk_supportedExtensions : list string;
  sk_outputFormat : string;
  sk_isGenerator : bool
}.

(** The [register] calls of [registerDefaultSkills], in order. *)
Definition default_skills : list SkillInfo :=
  [mkSkillInfo "pdf" "Extract text and tables from PDF files" [".pdf"] ".md" false;
   mkSkillInfo "docx" "Extract content from Word documents" [".docx"; ".doc"] ".md" false;
   mkSkillInfo "pptx" "Extract content from PowerPoint presentations" [".pptx"; ".ppt"] ".md" false;
   mkSkillInfo "xlsx-processor" "Extract data from spreadsheets" [".xlsx"; ".xls"; ".xlsm"] ".csv" false;
   mkSkillInfo "db-extractor-sqlite" "Extract SQLite database to CSV/JSON/Markdown"
     [".db"; ".sqlite"; ".sqlite3"] ".csv" false;
   mkSkillInfo "db-identify" "Identify database format" [".mdb"; ".accdb"] ".json" false;
   mkSkillInfo "html2markdown" "Convert HTML to Markdown" [".html"; ".htm"; ".xhtml"] ".md" false;
   mkSkillInfo "image-ocr" "Extract text from images using OCR"
     [".png"; ".jpg"; ".jpeg"; ".gif"; ".bmp"; ".tiff"; ".tif"] ".txt" false;
   mkSkillInfo "archive-extractor" "Extract archives using 7-Zip"
     [".zip"; ".rar"; ".7z"; ".tar"; ".gz"; ".tgz"; ".tar.gz"; ".tar.bz2"] "directory" false;
   mkSkillInfo "quiz-generator" "Generate quiz/exam content from course materials" [] ".md" true;
   mkSkillInfo "summary-generator" "Generate documentation and summaries from course materials"
     [] ".md" true].

Module SkillRegistry.

(** [register]: [skills.set(skill.name, skill)]. *)
Definition register (skill : SkillInfo) (skills : list (string * SkillInfo)) : list (string * SkillInfo) :=
  map_set (sk_name skill) skill skills.

(** The [skills] map of [new SkillRegistry()] (the exported [skillRegistry]). *)
Definition skillRegistry : list (string * SkillInfo) :=
  fold_left (fun m s => register s m) default_skills [].

Definition get (skills : list (string * SkillInfo)) (nm : string) : option SkillInfo := map_get nm skills.

Definition has (skills : list (string * SkillInfo)) (nm : string) : bool :=
  match map_get nm skills with Some _ => true | None => false end.

(** [getByExtension]: the first skill, in insertion order, whose
    [sk_supportedExtensions] includes the lower-cased extension. *)
Definition getByExtension (skills : list (string * SkillInfo)) (extension : string) : option SkillInfo :=
  let ext := to_lower extension in
  find (fun skill => set_mem ext (sk_supportedExtensions skill)) (map snd skills).

Definition getGenerators (skills : list (string * SkillInfo)) : list SkillInfo :=
  filter (fun s => sk_isGenerator s) (map snd skills).

Definition getProcessors (skills : list (string * SkillInfo)) : list SkillInfo :=
  filter (fun s => negb (sk_isGenerator s)) (map snd skills).

End SkillRegistry.

(** The extensions that [SKILL_MAPPINGS] sends to [db-identify] although
    [SkillRegistry.getByExtension] finds [db-extractor-sqlite] for them. *)
Definition sqlite_exts : list string := [".db"; ".sqlite"; ".sqlite3"].

Definition access_exts : list string := [".mdb"; ".accdb"].

(** [GENERATOR_SKILLS] (src/src/core/constants.ts) *)
Definition GENERATOR_SKILLS : list (string * string) :=
  [("exam", "quiz-generator"); ("quiz", "quiz-generator"); ("summary", "summary-generator");
   ("docs", "summary-generator"); ("documentation", "summary-generator")].

(** The white space that [String.prototype.trim] removes, on ASCII. *)
Definition js_space (c : ascii) : bool :=
  let n := nat_of_ascii c in (Nat.leb 9 n && Nat.leb n 13) || Nat.eqb n 32.

Fixpoint drop_space (l : list ascii) : list ascii :=
  match l with
  | [] => []
  | c :: l' => if js_space c then drop_space l' else l
  end.

Definition trim (s : string) : string :=
  string_of_list_ascii (rev (drop_space (rev (drop_space (list_ascii_of_string s))))).

(** What [GENERATOR_SKILLS[key]] evaluates to. *)
Inductive GenLookup := GOwn (skill : string) | GInherited | GUndefined.

(** [getGeneratorSkill] *)
Definition getGeneratorSkill (contentType : string) : GenLookup :=
  let normalized := trim (to_lower contentType) in
  match assoc normalized GENERATOR_SKILLS with
  | Some sk => GOwn sk
  | None => if set_mem normalized OBJECT_PROTOTYPE_KEYS then GInherited else GUndefined
  end.

(** [routeMany] of a [FileRouter] built with [useSkillForRouting = false]
    (the default), where [route] is [routeByExtension]: the [Map] from path
    to decision. *)
Definition routeMany (files : list ScannedFile) : list (string * RoutingDecision) :=
  fold_left (fun results f => map_set (sf_path f) (routeByExtension f) results) files [].

(** The object that [categorizeByMethod] returns. *)
Record Buckets := mkBuckets {
  b_passthrough : list ScannedFile;
  b_skill : list ScannedFile;
  b_archive : list ScannedFile;
  b_skip : list ScannedFile;
  b_unsupported : list ScannedFile
}.

Definition push_bucket (m : RoutingMethod) (f : ScannedFile) (b : Buckets) : Buckets :=
  match m with
  | Passthrough => mkBuckets (b_passthrough b ++ [f]) (b_skill b) (b_archive b) (b_skip b) (b_unsupported b)
  | Skill => mkBuckets (b_passthrough b) (b_skill b ++ [f]) (b_archive b) (b_skip b) (b_unsupported b)
  | ArchiveM => mkBuckets (b_passthrough b) (b_skill b) (b_archive b ++ [f]) (b_skip b) (b_unsupported b)
  | Skip => mkBuckets (b_passthrough b) (b_skill b) (b_archive b) (b_skip b ++ [f]) (b_unsupported b)
  | Unsupported => mkBuckets (b_passthrough b) (b_skill b) (b_archive b) (b_skip b) (b_unsupported b ++ [f])
  end.

Definition categorizeByMethod (files : list ScannedFile) (decisions : list (string * RoutingDecision)) : Buckets :=
  fold_left (fun result f =>
               match map_get (sf_path f) decisions with
               | None => result
               | Some decision => push_bucket (method decision) f result
               end) files (mkBuckets [] [] [] [] []).

Definition method_eqb (a b : RoutingMethod) : bool :=
  match a, b with
  | Passthrough, Passthrough | Skill, Skill | ArchiveM, ArchiveM | Skip, Skip
  | Unsupported, Unsupported => true
  | _, _ => false
  end.

(** The files [categorizeByMethod] puts in the bucket of a method. *)
Definition bucket (m : RoutingMethod) (b : Buckets) : list ScannedFile :=
  match m with
  | Passthrough => b_passthrough b | Skill => b_skill b | ArchiveM => b_archive b
  | Skip => b_skip b | Unsupported => b_unsupported b
  end.

(** Every entry name in the tree is a proper path segment (what
    [readdirSync] returns on POSIX: no ["/"], not ["."] or [".."]). *)
Fixpoint good_names (n : FsNode) : bool :=
  match n with
  | FsDir _ es =>
      (fix loop (es : list (string * FsNode)) : bool :=
         match es with
         | [] => true
         | (e, c) :: es' => good_seg e && good_names c && loop es'
         end) es
  | _ => true
  end.

(** A name on the way to a scanned file: not an output directory of ours
    and, unless hidden entries are included, not hidden. *)
Definition scanned_seg (options : ScanOptions) (s : string) : Prop :=
  good_seg s = true /\ starts_with "__cc" s = false /\
  (includeHidden options = false -> starts_with "." s = false).

(** [Course] (src/src/types/index.ts) *)
Record Course := mkCourse {
  c_id : string;
  c_name : string;
  c_path : string;
  c_codePath : string;
  c_validatedFilesPath : string;
  c_generatedPath : string;
  c_files : list ScannedFile;
  c_hasExistingSrt : bool
}.

Record CourseDetectionResult := mkDetection {
  courses : list Course;
  warnings : list string;
  hasRootSrtFiles : bool
}.

(** [OUTPUT_DIRS] *)
Definition codeFolder : string := "CODE".

Definition validatedFiles : string := "__cc_validated_files".

Definition generatedPrefix : string := "__ccg_".

(** [existsSync] of a child: its [statSync] succeeds. *)
Definition child_exists (name : string) (n : FsNode) : bool :=
  match n with
  | FsDir _ es => match assoc name es with Some FsStatError | None => false | Some _ => true end
  | _ => false
  end.

(** A successful [mkdirSync] of an empty child directory. *)
Definition mkdir_child (name : string) (n : FsNode) : FsNode :=
  match n with
  | FsDir r es => FsDir r (map_set name (FsDir true []) es)
  | _ => n
  end.

Definition has_srt_name (e : string) : bool := ends_with ".srt" (to_lower e).

(** [hasSrtFiles]: [false] when [readdirSync] throws. *)
Definition hasSrtFiles (n : FsNode) : bool :=
  match n with
  | FsDir true es => existsb has_srt_name (map fst es)
  | _ => false
  end.

(** [createCourse], for the course directory [node]; [mkdirOk p] tells
    whether [mkdirSync(p, { recursive: true })] succeeds ([None]: it
    throws). *)
Definition createCourse (mkdirOk : string -> bool) (cwd coursePath courseId contentType : string)
    (node : FsNode) : option Course :=
  let codePath := join [coursePath; codeFolder] in
  let validatedFilesPath := join [codePath; validatedFiles] in
  let generatedPath := join [codePath; String.append generatedPrefix contentType] in
  let node' :=
    if child_exists codeFolder node then Some node
    else if mkdirOk codePath then Some (mkdir_child codeFolder node) else None in
  match node' with
  | None => None
  | Some n' =>
      let hasExistingSrt := hasSrtFiles n' in
      let files := scanDirectory (mkScanner []) cwd coursePath courseId coursePath default_ScanOptions n' in
      Some (mkCourse courseId courseId coursePath codePath validatedFilesPath generatedPath files hasExistingSrt)
  end.

Definition srt_warning : string :=
  "Found .srt files in input root. You may be inside a course folder. For multi-mode processing, run from the parent directory containing course folders.".

Fixpoint detect_loop (mkdirOk : string -> bool) (cwd inputDir contentType : string)
    (es : list (string * FsNode)) : option (list Course) :=
  match es with
  | [] => Some []
  | (entry, node) :: es' =>
      let entryPath := join [inputDir; entry] in
      match node with
      | FsDir _ _ =>
          if starts_with "." entry || starts_with "__cc" entry
          then detect_loop mkdirOk cwd inputDir contentType es'
          else match createCourse mkdirOk cwd entryPath entry contentType node with
               | None => None
               | Some course =>
                   match detect_loop mkdirOk cwd inputDir contentType es' with
                   | None => None
                   | Some cs => Some (course :: cs)
                   end
               end
      | _ => detect_loop mkdirOk cwd inputDir contentType es'
      end
  end.

(** [detectCourses] on the input directory [root]; [None]: an exception
    escapes ([readdirSync] of an existing non-directory, or [mkdirSync]). *)
Definition detectCourses (mkdirOk : string -> bool) (cwd inputDir contentType : string)
    (root : FsNode) : option CourseDetectionResult :=
  match root with
  | FsStatError => Some (mkDetection [] ["Input directory does not exist"] false)
  | FsDir true rootFiles =>
      let hasRootSrtFiles := existsb has_srt_name (map fst rootFiles) in
      let warnings := if hasRootSrtFiles then [srt_warning] else [] in
      match detect_loop mkdirOk cwd inputDir contentType rootFiles with
      | None => None
      | Some courses =>
          let warnings :=
            if Nat.eqb (List.length courses) 0 && negb hasRootSrtFiles
            then warnings ++ ["No course directories found in input path"] else warnings in
          Some (mkDetection courses warnings hasRootSrtFiles)
      end
  | _ => None
  end.

(** The entries of the input directory that [detectCourses] takes as
    courses. *)
Definition course_entry (e : string * FsNode) : bool :=
  match snd e with
  | FsDir _ _ => negb (starts_with "." (fst e) || starts_with "__cc" (fst e))
  | _ => false
  end.

(** The course that [createCourse] builds for the entry [e] of the input
    directory [abs_path segs]. *)
Definition expected_course (cwd : string) (segs : list string) (contentType : string)
    (e : string * FsNode) : Course :=
  let '(id, node) := e in
  mkCourse id id (abs_path (segs ++ [id])) (abs_path (segs ++ [id; codeFolder]))
    (abs_path (segs ++ [id; codeFolder; validatedFiles]))
    (join [abs_path (segs ++ [id; codeFolder]); String.append generatedPrefix contentType])
    (course_files cwd (abs_path (segs ++ [id])) id node) (hasSrtFiles node).

Definition idx (k : nat) (l : list ascii) : list (Z * ascii) :=
  combine (map Z.of_nat (seq k (List.length l))) l.

(** [FileRouter.getOutputPath] *)
Module FileRouter.

Definition getOutputPath (cwd : string) (file : ScannedFile) (decision : RoutingDecision)
    (validatedFilesPath : string) : string :=
  let relDir := relative cwd (sf_coursePath file) (dirname (sf_path file)) in
  let prefix := if js_truthy_string relDir then String.append (replace_seps relDir) "_" else "" in
  let outputExt :=
    match outputFormat decision with
    | Some fmt => if js_truthy_string fmt && negb (String.eqb fmt "directory") then fmt else sf_extension file
    | None => sf_extension file
    end in
  let baseName := basename (sf_name file) (sf_extension file) in
  let outputName := String.append prefix (String.append baseName outputExt) in
  join [validatedFilesPath; outputName].

End FileRouter.

(** The prefix for the directory segments [rel]: each one, its separators
    replaced, followed by ["_"]. *)
Definition flat_prefix (rel : list string) : string :=
  String.concat "" (map (fun s => String.append (replace_seps s) "_") rel).

(* ================================================================== *)

(** ** Live worker loops *)

(** A worker loop that has returned. *)
Definition is_exited (s : WorkerState) : bool := match s with WExited => true | _ => false end.

(** The loops that have not returned. *)
Definition active (ws : list WorkerState) : nat :=
  List.length (filter (fun s => negb (is_exited s)) ws).

(** The state [resume] gives a resumed worker. *)
Definition wake_state (r : option QueueItem) : WorkerState :=
  match r with Some it => WBusy (set_status StProcessing it) | None => WExited end.

(** The invariant behind the drain property of [waitForCompletion]: the
    processing ids are distinct and held by busy workers, at most [W] loops
    run, a stopped pool has no live loop, and once every started loop has
    returned the queue is closed and empty. *)
Definition drain_inv (W : nat) (p : WorkerPool) : Prop :=
  NoDup (processing (queue p)) /\
  incl (processing (queue p)) (busy_ids (workers p)) /\
  active (workers p) <= W /\
  (running p = false -> all_exited (workers p) = true) /\
  (workers p <> [] -> all_exited (workers p) = true ->
     closed (queue p) = true /\ items (queue p) = []) /\
  no_lost_wakeup (queue p).

(* ---- worker lists ---- *)

(** One item submitted to a one-worker pool, processed, then the queue closed. *)
Definition drain_schedule : list PoolStep :=
  [PSubmit (sample_item "a" 0); PStart; PLoop 0; PFinish 0 (ProcReturned true None); PClose; PLoop 0].

(** ** Counting scanned files by category *)

(** The string a [FileCategory] value is at run time. *)
Definition category_key (c : FileCategory) : string :=
  match c with
  | Text => "text" | Code => "code" | Document => "document" | Database => "database"
  | Archive => "archive" | Image => "image" | Html => "html" | Video => "video"
  | Audio => "audio" | Unknown => "unknown"
  end.

(** One pass of the loop of [countByCategory]:
    [counts[file.category] = (counts[file.category] ?? 0) + 1]. *)
Definition count_step (counts : list (string * nat)) (file : ScannedFile) : list (string * nat) :=
  let k := category_key (sf_category file) in
  map_set k (match map_get k counts with Some n => n | None => 0 end + 1) counts.

(** [FileScanner.countByCategory]: the [counts] object, keys in insertion order. *)
Definition countByCategory (files : list ScannedFile) : list (string * nat) :=
  fold_left count_step files [].

(** The number of files of category [c]. *)
Definition files_of (c : FileCategory) (files : list ScannedFile) : nat :=
  List.length (filter (fun f => String.eqb (category_key (sf_category f)) (category_key c)) files).

Definition sum_counts (m : list (string * nat)) : nat := fold_right (fun kv s => snd kv + s) 0 m.

(** * Proofs *)

(** ** Containers *)

Lemma set_add_length : forall x s, List.length (set_add x s) <= S (List.length s).
Proof.
  intros x s. unfold set_add. destruct (set_has x s).
  - lia.
  - rewrite length_app. simpl. lia.
Qed.

Lemma set_delete_length : forall x s, List.length (set_delete x s) <= List.length s.
Proof.
  intros x s. unfold set_delete. induction s as [|y s IH]; simpl; [lia|].
  destruct (negb (String.eqb x y)); simpl; lia.
Qed.

(** ** The concurrency bound *)

Lemma notify_loop_bound : forall ws its proc max ws' its' proc' ev,
  notify_loop ws its proc max = (ws', its', proc', ev) ->
  List.length proc <= max -> List.length proc' <= max.
Proof.
  induction ws as [|w ws IH]; intros its proc max ws' its' proc' ev Hn Hle.
  - simpl in Hn. inversion Hn; subst. exact Hle.
  - destruct its as [|it its]; simpl in Hn.
    + inversion Hn; subst. exact Hle.
    + destruct (Nat.ltb (List.length proc) max) eqn:Hlt.
      * destruct (notify_loop ws its (set_add (id it) proc) max)
          as [[[ws1 its1] proc1] ev1] eqn:Hrec.
        inversion Hn; subst.
        apply (IH _ _ _ _ _ _ _ Hrec).
        apply Nat.ltb_lt in Hlt. pose proof (set_add_length (id it) proc). lia.
      * inversion Hn; subst. exact Hle.
Qed.

Lemma notifyWaiters_bound : forall q,
  within_limit q -> within_limit (fst (notifyWaiters q)).
Proof.
  intros q H. unfold notifyWaiters.
  destruct (notify_loop (waiters q) (items q) (processing q) (maxConcurrent q))
    as [[[ws its] proc] ev] eqn:Hn.
  unfold within_limit in *. simpl. eapply notify_loop_bound; eauto.
Qed.

Lemma notifyWaiters_max : forall q, maxConcurrent (fst (notifyWaiters q)) = maxConcurrent q.
Proof.
  intros q. unfold notifyWaiters.
  destruct (notify_loop (waiters q) (items q) (processing q) (maxConcurrent q))
    as [[[ws its] proc] ev]. reflexivity.
Qed.

Lemma with_processing_delete_bound : forall q x,
  within_limit q -> within_limit (with_processing q (set_delete x (processing q))).
Proof.
  intros q x H. unfold within_limit in *. simpl.
  pose proof (set_delete_length x (processing q)). lia.
Qed.

Lemma markFailed_bound : forall it c m q,
  within_limit q -> within_limit (fst (markFailed it c m q)).
Proof.
  intros. unfold markFailed. apply notifyWaiters_bound.
  apply (with_processing_delete_bound q (id it)) in H. exact H.
Qed.

Lemma markFailed_max : forall it c m q,
  maxConcurrent (fst (markFailed it c m q)) = maxConcurrent q.
Proof. intros. unfold markFailed. rewrite notifyWaiters_max. reflexivity. Qed.

Lemma requeue_bound : forall it q,
  within_limit q -> within_limit (fst (requeue it q)).
Proof.
  intros it q H. unfold requeue, requeue_body.
  destruct (attempts (set_attempts (attempts it + 1) it) <?
            maxAttempts (set_attempts (attempts it + 1) it))%Z.
  - destruct (notifyWaiters _) as [q2 ev2] eqn:Hn.
    simpl. change q2 with (fst (q2, ev2)). rewrite <- Hn.
    apply notifyWaiters_bound.
    apply (with_processing_delete_bound q (id it)) in H. exact H.
  - destruct (markFailed _ _ _ _) as [q1 ev1] eqn:Hm.
    destruct (notifyWaiters q1) as [q2 ev2] eqn:Hn.
    simpl. change q2 with (fst (q2, ev2)). rewrite <- Hn.
    apply notifyWaiters_bound. change q1 with (fst (q1, ev1)). rewrite <- Hm.
    apply markFailed_bound. apply (with_processing_delete_bound q (id it)) in H. exact H.
Qed.

Lemma dequeue_bound : forall w q,
  within_limit q -> within_limit (fst (dequeue w q)).
Proof.
  intros w q H. unfold dequeue.
  destruct (closed q && Nat.eqb (List.length (items q)) 0); [exact H|].
  destruct (items q) as [|it rest]; [destruct (closed q); exact H|].
  destruct (Nat.ltb (List.length (processing q)) (maxConcurrent q)) eqn:Hlt.
  - unfold within_limit. simpl. apply Nat.ltb_lt in Hlt.
    pose proof (set_add_length (id it) (processing q)). lia.
  - destruct (closed q); exact H.
Qed.

(** Every queue operation preserves the bound (and leaves the limit as it is). *)
Lemma apply_op_bound : forall op q,
  within_limit q -> within_limit (apply_op op q) /\ maxConcurrent (apply_op op q) = maxConcurrent q.
Proof.
  intros op q H. unfold apply_op. destruct op; simpl.
  - unfold enqueue. destruct (closed q); [split; auto|].
    split; [apply notifyWaiters_bound; exact H | rewrite notifyWaiters_max; reflexivity].
  - unfold enqueueMany. destruct (closed q); [split; auto|].
    split; [apply notifyWaiters_bound; exact H | rewrite notifyWaiters_max; reflexivity].
  - pose proof (dequeue_bound w q H) as Hb.
    assert (Hm : maxConcurrent (fst (dequeue w q)) = maxConcurrent q).
    { unfold dequeue. destruct (closed q && Nat.eqb (List.length (items q)) 0); [reflexivity|].
      destruct (items q); [destruct (closed q); reflexivity|].
      destruct (Nat.ltb _ _); [reflexivity|destruct (closed q); reflexivity]. }
    destruct (dequeue w q) as [q' [r|]]; simpl in *; split; assumption.
  - unfold markCompleted. split; [apply notifyWaiters_bound|rewrite notifyWaiters_max; reflexivity].
    apply (with_processing_delete_bound q (id it)) in H. exact H.
  - split; [apply markFailed_bound; exact H | apply markFailed_max].
  - unfold markSkipped. split; [apply notifyWaiters_bound|rewrite notifyWaiters_max; reflexivity].
    apply (with_processing_delete_bound q (id it)) in H. exact H.
  - split; [apply requeue_bound; exact H|].
    unfold requeue, requeue_body.
    destruct (_ <? _)%Z.
    + destruct (notifyWaiters _) as [q2 ev2] eqn:Hn. simpl.
      change q2 with (fst (q2, ev2)). rewrite <- Hn, notifyWaiters_max. reflexivity.
    + destruct (markFailed _ _ _ _) as [q1 ev1] eqn:Hm.
      destruct (notifyWaiters q1) as [q2 ev2] eqn:Hn. simpl.
      change q2 with (fst (q2, ev2)). rewrite <- Hn, notifyWaiters_max.
      change q1 with (fst (q1, ev1)). rewrite <- Hm, markFailed_max. reflexivity.
  - split; [exact H | reflexivity].
Qed.

Lemma queue_reachable_bound : forall W q,
  queue_reachable W q -> within_limit q /\ maxConcurrent q = W.
Proof.
  intros W q Hr. induction Hr as [|q op Hr [Hb Hm]].
  - split; [unfold within_limit; simpl; lia | reflexivity].
  - destruct (apply_op_bound op q Hb) as [Hb' Hm']. split; [exact Hb'|congruence].
Qed.

(** ** Who receives the no-more-work sentinel *)

Lemma notify_loop_wakes_some : forall ws its proc max ws' its' proc' ev w r,
  notify_loop ws its proc max = (ws', its', proc', ev) -> In (w, r) ev -> r <> None.
Proof.
  induction ws as [|w0 ws IH]; intros its proc max ws' its' proc' ev w r Hn Hin.
  - simpl in Hn. inversion Hn; subst. destruct Hin.
  - destruct its as [|it its]; simpl in Hn.
    + inversion Hn; subst. destruct Hin.
    + destruct (Nat.ltb (List.length proc) max).
      * destruct (notify_loop ws its (set_add (id it) proc) max)
          as [[[ws1 its1] proc1] ev1] eqn:Hrec.
        inversion Hn; subst. destruct Hin as [Heq|Hin].
        -- inversion Heq; subst. discriminate.
        -- eapply IH; eauto.
      * inversion Hn; subst. destruct Hin.
Qed.

Lemma notifyWaiters_wakes_some : forall q w r,
  In (w, r) (snd (notifyWaiters q)) -> r <> None.
Proof.
  intros q w r Hin. unfold notifyWaiters in Hin.
  destruct (notify_loop (waiters q) (items q) (processing q) (maxConcurrent q))
    as [[[ws its] proc] ev] eqn:Hn.
  eapply notify_loop_wakes_some; eauto.
Qed.

Lemma markFailed_wakes_some : forall it c m q w r,
  In (w, r) (snd (markFailed it c m q)) -> r <> None.
Proof. intros. unfold markFailed in H. eapply notifyWaiters_wakes_some; eauto. Qed.

Lemma dequeue_None_closed : forall w q q',
  dequeue w q = (q', Returned None) -> closed q' = true.
Proof.
  intros w q q' H. unfold dequeue in H.
  destruct (closed q) eqn:Hc; simpl in H.
  - destruct (Nat.eqb (List.length (items q)) 0).
    + inversion H; subst; exact Hc.
    + destruct (items q); [inversion H; subst; exact Hc|].
      destruct (Nat.ltb _ _); inversion H; subst; exact Hc.
  - destruct (items q); [discriminate|].
    destruct (Nat.ltb _ _); discriminate.
Qed.

(** Claim C2, as stated, fails: on a closed queue with nothing pending but an
    item still processing, [dequeue()] settles at once with [null]. *)
Lemma C2_counterexample :
  queue_reachable 2 q_closed_busy /\ closed q_closed_busy = true /\
  items q_closed_busy = [] /\ processing q_closed_busy = ["x"] /\
  snd (dequeue 1 q_closed_busy) = Returned None.
Proof.
  split.
  - unfold q_closed_busy. repeat apply qr_step. apply qr_init.
  - vm_compute. repeat split.
Qed.

(** Claim C2 (amended): a caller receives the sentinel [null] only from a call
    after which the queue is closed ([close()] itself, or a [dequeue()] on a
    closed queue); [notifyWaiters] hands out items only.  On a closed queue
    with nothing pending, [dequeue()] returns [null] whatever is still
    processing. *)
Theorem dequeue_sentinel_only_after_close :
  (forall op q w, In (w, None) (snd (run_op op q)) -> closed (fst (run_op op q)) = true) /\
  (forall w q, closed q = true -> items q = [] -> snd (dequeue w q) = Returned None).
Proof.
  split.
  - intros op q w Hin. destruct op; simpl in *.
    + unfold enqueue in *. destruct (closed q) eqn:Hc; [exact Hc|].
      exfalso. exact (notifyWaiters_wakes_some _ _ _ Hin eq_refl).
    + unfold enqueueMany in *. destruct (closed q) eqn:Hc; [exact Hc|].
      exfalso. exact (notifyWaiters_wakes_some _ _ _ Hin eq_refl).
    + destruct (dequeue w0 q) as [q' [r|]] eqn:Hd; simpl in *.
      * destruct Hin as [Heq|[]]. inversion Heq; subst.
        exact (dequeue_None_closed _ _ _ Hd).
      * destruct Hin.
    + exfalso. exact (notifyWaiters_wakes_some _ _ _ Hin eq_refl).
    + exfalso. exact (markFailed_wakes_some _ _ _ _ _ _ Hin eq_refl).
    + exfalso. exact (notifyWaiters_wakes_some _ _ _ Hin eq_refl).
    + exfalso. unfold requeue, requeue_body in Hin.
      destruct (_ <? _)%Z.
      * destruct (notifyWaiters _) as [q2 ev2] eqn:Hn. simpl in Hin.
        eapply (notifyWaiters_wakes_some _ w None); [|reflexivity].
        rewrite Hn. exact Hin.
      * destruct (markFailed _ _ _ _) as [q1 ev1] eqn:Hm.
        destruct (notifyWaiters q1) as [q2 ev2] eqn:Hn. simpl in Hin.
        apply in_app_or in Hin. destruct Hin as [Hin|Hin].
        -- eapply (markFailed_wakes_some _ _ _ _ w None); [|reflexivity]. rewrite Hm. exact Hin.
        -- eapply (notifyWaiters_wakes_some _ w None); [|reflexivity]. rewrite Hn. exact Hin.
    + reflexivity.
  - intros w q Hc Hi. unfold dequeue. rewrite Hc, Hi. reflexivity.
Qed.

(** ** Priority order of the pending array *)

Lemma in_insert_by_priority : forall x l z,
  In z (insert_by_priority x l) <-> x = z \/ In z l.
Proof.
  intros x l z. induction l as [|y l IH]; simpl.
  - intuition.
  - destruct (priority x <? priority y)%Z; simpl; [tauto|]. rewrite IH. tauto.
Qed.

Lemma insert_by_priority_sorted : forall x l,
  StronglySorted prio_le l -> StronglySorted prio_le (insert_by_priority x l).
Proof.
  intros x l. induction l as [|y l IH]; intros Hs; simpl.
  - repeat constructor.
  - inversion Hs as [|? ? Hs' Hall]; subst.
    destruct (priority x <? priority y)%Z eqn:Hlt.
    + apply Z.ltb_lt in Hlt. constructor; [exact Hs|].
      constructor; [unfold prio_le; lia|].
      eapply Forall_impl; [|exact Hall]. unfold prio_le. intros a Ha. lia.
    + apply Z.ltb_ge in Hlt. constructor; [apply IH; exact Hs'|].
      apply Forall_forall. intros z Hz. apply in_insert_by_priority in Hz.
      destruct Hz as [->|Hz]; [unfold prio_le; lia|].
      rewrite Forall_forall in Hall. apply Hall; exact Hz.
Qed.

Lemma sort_by_priority_snoc : forall l x,
  sort_by_priority (l ++ [x]) = insert_by_priority x (sort_by_priority l).
Proof. intros l x. unfold sort_by_priority. rewrite fold_left_app. reflexivity. Qed.

Lemma sort_by_priority_sorted : forall l, StronglySorted prio_le (sort_by_priority l).
Proof.
  induction l as [|x l IH] using rev_ind.
  - constructor.
  - rewrite sort_by_priority_snoc. apply insert_by_priority_sorted. exact IH.
Qed.

Lemma filter_insert_other : forall p x l, priority x <> p ->
  filter (has_priority p) (insert_by_priority x l) = filter (has_priority p) l.
Proof.
  intros p x l Hne. induction l as [|y l IH]; simpl.
  - unfold has_priority. destruct (Z.eqb_spec (priority x) p); [contradiction|reflexivity].
  - destruct (priority x <? priority y)%Z; simpl.
    + unfold has_priority at 1. destruct (Z.eqb_spec (priority x) p); [contradiction|reflexivity].
    + destruct (has_priority p y); [f_equal|]; exact IH.
Qed.

Lemma filter_none_above : forall p l,
  Forall (fun z => (p < priority z)%Z) l -> filter (has_priority p) l = [].
Proof.
  intros p l H. induction H as [|z l Hz H IH]; simpl; [reflexivity|].
  unfold has_priority at 1. destruct (Z.eqb_spec (priority z) p); [lia|exact IH].
Qed.

Lemma filter_insert_same : forall x l, StronglySorted prio_le l ->
  filter (has_priority (priority x)) (insert_by_priority x l)
  = filter (has_priority (priority x)) l ++ [x].
Proof.
  intros x l. induction l as [|y l IH]; intros Hs; cbn [insert_by_priority].
  - cbn [filter]. assert (Hx : has_priority (priority x) x = true) by apply Z.eqb_refl.
    rewrite Hx. reflexivity.
  - inversion Hs as [|? ? Hs' Hall]; subst.
    destruct (priority x <? priority y)%Z eqn:Hlt.
    + apply Z.ltb_lt in Hlt. cbn [filter].
      assert (Hx : has_priority (priority x) x = true) by apply Z.eqb_refl.
      assert (Hy : has_priority (priority x) y = false) by (apply Z.eqb_neq; lia).
      rewrite Hx, Hy, filter_none_above; [reflexivity|].
      eapply Forall_impl; [|exact Hall]. unfold prio_le. intros a Ha. lia.
    + cbn [filter]. destruct (has_priority (priority x) y); cbn [app];
        rewrite IH by exact Hs'; reflexivity.
Qed.

(** The sort is stable: within one priority the input order is kept. *)
Lemma sort_by_priority_stable : forall p l,
  filter (has_priority p) (sort_by_priority l) = filter (has_priority p) l.
Proof.
  intros p l. induction l as [|x l IH] using rev_ind; [reflexivity|].
  rewrite sort_by_priority_snoc, filter_app.
  destruct (Z.eq_dec (priority x) p) as [<-|Hne].
  - rewrite filter_insert_same by apply sort_by_priority_sorted.
    rewrite IH. cbn [filter].
    assert (Hx : has_priority (priority x) x = true) by apply Z.eqb_refl.
    rewrite Hx. reflexivity.
  - rewrite filter_insert_other by exact Hne. rewrite IH. cbn [filter].
    assert (Hx : has_priority p x = false) by (apply Z.eqb_neq; exact Hne).
    rewrite Hx, app_nil_r. reflexivity.
Qed.

Lemma StronglySorted_skipn : forall {A} (R : A -> A -> Prop) n l,
  StronglySorted R l -> StronglySorted R (skipn n l).
Proof.
  intros A R n. induction n as [|n IH]; intros l H; [exact H|].
  destruct l as [|x l]; [constructor|]. simpl. apply IH.
  inversion H; assumption.
Qed.

(** [notifyWaiters] hands the head of the pending array to the waiters, in
    order, and keeps the rest. *)
Lemma notify_loop_items : forall ws its proc max ws' its' proc' ev,
  notify_loop ws its proc max = (ws', its', proc', ev) ->
  its' = skipn (List.length ev) its /\
  map snd ev = map Some (firstn (List.length ev) its).
Proof.
  induction ws as [|w ws IH]; intros its proc max ws' its' proc' ev Hn.
  - simpl in Hn. inversion Hn; subst. split; reflexivity.
  - destruct its as [|it its]; simpl in Hn.
    + inversion Hn; subst. split; reflexivity.
    + destruct (Nat.ltb (List.length proc) max).
      * destruct (notify_loop ws its (set_add (id it) proc) max)
          as [[[ws1 its1] proc1] ev1] eqn:Hrec.
        inversion Hn; subst. destruct (IH _ _ _ _ _ _ _ Hrec) as [H1 H2].
        simpl. split; [exact H1|]. rewrite H2. reflexivity.
      * inversion Hn; subst. split; reflexivity.
Qed.

Lemma notifyWaiters_items : forall q,
  items (fst (notifyWaiters q)) = skipn (List.length (snd (notifyWaiters q))) (items q) /\
  map snd (snd (notifyWaiters q))
    = map Some (firstn (List.length (snd (notifyWaiters q))) (items q)).
Proof.
  intros q. unfold notifyWaiters.
  destruct (notify_loop (waiters q) (items q) (processing q) (maxConcurrent q))
    as [[[ws its] proc] ev] eqn:Hn.
  exact (notify_loop_items _ _ _ _ _ _ _ _ Hn).
Qed.

Lemma notifyWaiters_sorted : forall q,
  StronglySorted prio_le (items q) -> StronglySorted prio_le (items (fst (notifyWaiters q))).
Proof.
  intros q H. rewrite (proj1 (notifyWaiters_items q)). apply StronglySorted_skipn. exact H.
Qed.

Lemma apply_op_sorted : forall op q,
  StronglySorted prio_le (items q) -> StronglySorted prio_le (items (apply_op op q)).
Proof.
  intros op q H. unfold apply_op. destruct op; simpl.
  - unfold enqueue. destruct (closed q); [exact H|].
    apply notifyWaiters_sorted. apply sort_by_priority_sorted.
  - unfold enqueueMany. destruct (closed q); [exact H|].
    apply notifyWaiters_sorted. apply sort_by_priority_sorted.
  - assert (Hd : StronglySorted prio_le (items (fst (dequeue w q)))).
    { unfold dequeue. destruct (closed q && Nat.eqb (List.length (items q)) 0); [exact H|].
      destruct (items q) as [|it rest] eqn:Hi; [destruct (closed q); simpl; rewrite Hi; constructor|].
      destruct (Nat.ltb _ _); [simpl; inversion H; assumption|].
      destruct (closed q); simpl; rewrite Hi; exact H. }
    destruct (dequeue w q) as [q' [r|]]; exact Hd.
  - apply notifyWaiters_sorted. exact H.
  - apply notifyWaiters_sorted. exact H.
  - apply notifyWaiters_sorted. exact H.
  - unfold requeue, requeue_body. destruct (_ <? _)%Z.
    + destruct (notifyWaiters _) as [q2 ev2] eqn:Hn. simpl.
      change q2 with (fst (q2, ev2)). rewrite <- Hn.
      apply notifyWaiters_sorted. apply sort_by_priority_sorted.
    + destruct (markFailed _ _ _ _) as [q1 ev1] eqn:Hm.
      destruct (notifyWaiters q1) as [q2 ev2] eqn:Hn. simpl.
      change q2 with (fst (q2, ev2)). rewrite <- Hn. apply notifyWaiters_sorted.
      change q1 with (fst (q1, ev1)). rewrite <- Hm. unfold markFailed.
      apply notifyWaiters_sorted. exact H.
  - exact H.
Qed.

Lemma queue_reachable_sorted : forall W q,
  queue_reachable W q -> StronglySorted prio_le (items q).
Proof.
  intros W q Hr. induction Hr as [|q op Hr IH].
  - constructor.
  - apply apply_op_sorted. exact IH.
Qed.

Lemma drain_serial : forall n q,
  closed q = false -> waiters q = [] -> processing q = [] -> maxConcurrent q = 1 ->
  List.length (items q) <= n -> drain n q = items q.
Proof.
  induction n as [|n IH]; intros q Hc Hw Hp Hm Hl; simpl.
  - destruct (items q); [reflexivity|simpl in Hl; lia].
  - unfold dequeue. rewrite ?Hc. simpl.
    destruct (items q) as [|it rest] eqn:Hi; [rewrite ?Hc; reflexivity|].
    rewrite Hp, Hm. simpl. f_equal.
    unfold markCompleted, notifyWaiters, set_add, set_delete. simpl. rewrite Hw, String.eqb_refl.
    simpl. apply IH; simpl; auto. simpl in Hl. lia.
Qed.

Lemma enqueueMany_fresh : forall its,
  apply_op (OpEnqueueMany its) (new_AsyncQueue 1) = mkQueue (sort_by_priority its) [] [] [] [] false [] 1.
Proof. intros its. reflexivity. Qed.

Lemma submit_each_open : forall its l,
  submit_each its (mkQueue l [] [] [] [] false [] 1) =
  mkQueue (fold_left (fun l it => sort_by_priority (l ++ [it])) its l) [] [] [] [] false [] 1.
Proof.
  induction its as [|it its IH]; intros l; [reflexivity|].
  unfold submit_each. simpl. apply IH.
Qed.

Ltac prio_rw Ha Hb Hc Hd He :=
  repeat (cbn [fold_left insert_by_priority app sort_by_priority];
          rewrite ?Ha, ?Hb, ?Hc, ?Hd, ?He; cbn [Z.ltb Z.compare Pos.compare Pos.compare_cont]).

Lemma scenario_A_orders : forall a b c d e : QueueItem,
  priority a = 3%Z -> priority b = 1%Z -> priority c = 2%Z -> priority d = 1%Z -> priority e = 0%Z ->
  sort_by_priority [a; b; c; d; e] = [e; b; d; c; a] /\
  fold_left (fun l it => sort_by_priority (l ++ [it])) [a; b; c; d; e] [] = [e; b; d; c; a].
Proof.
  intros a b c d e Ha Hb Hc Hd He. unfold sort_by_priority.
  split; prio_rw Ha Hb Hc Hd He; reflexivity.
Qed.

(** Claim C3: Scenario A.  Any five items with priorities [3,1,2,1,0],
    submitted to a queue of concurrency 1 together ([enqueueMany]) or one by
    one ([enqueue]), are acquired by successive [dequeue] calls (each item
    completed before the next call) in the order [e, b, d, c, a]: priorities
    [0,1,1,2,3], the two priority-1 items [b] and [d] in submission order.
    In general, after [enqueueMany]/[enqueue] the pending array is the
    priority-sorted, stable rearrangement of the old pending array followed by
    the new items, minus the head items handed at once (in order) to waiting
    callers; and every reachable queue keeps its pending array sorted. *)
Theorem submit_priority_order : forall a b c d e : QueueItem,
  priority a = 3%Z -> priority b = 1%Z -> priority c = 2%Z -> priority d = 1%Z -> priority e = 0%Z ->
  drain 10 (apply_op (OpEnqueueMany [a; b; c; d; e]) (new_AsyncQueue 1)) = [e; b; d; c; a] /\
  map priority (drain 10 (apply_op (OpEnqueueMany [a; b; c; d; e]) (new_AsyncQueue 1)))
    = [0; 1; 1; 2; 3]%Z /\
  drain 10 (submit_each [a; b; c; d; e] (new_AsyncQueue 1)) = [e; b; d; c; a] /\
  map priority (drain 10 (submit_each [a; b; c; d; e] (new_AsyncQueue 1))) = [0; 1; 1; 2; 3]%Z /\
  (forall its q q' ev, enqueueMany its q = Some (q', ev) ->
     let l := sort_by_priority (items q ++ its) in
     StronglySorted prio_le l /\
     (forall p, filter (has_priority p) l = filter (has_priority p) (items q ++ its)) /\
     items q' = skipn (List.length ev) l /\
     map snd ev = map Some (firstn (List.length ev) l)) /\
  (forall it q q' ev, enqueue it q = Some (q', ev) ->
     let l := sort_by_priority (items q ++ [it]) in
     StronglySorted prio_le l /\
     (forall p, filter (has_priority p) l = filter (has_priority p) (items q ++ [it])) /\
     items q' = skipn (List.length ev) l /\
     map snd ev = map Some (firstn (List.length ev) l)) /\
  (forall W q, queue_reachable W q -> StronglySorted prio_le (items q)).
Proof.
  intros a b c d e Pa Pb Pc Pd Pe.
  destruct (scenario_A_orders a b c d e Pa Pb Pc Pd Pe) as [S1 S2].
  assert (D1 : drain 10 (apply_op (OpEnqueueMany [a; b; c; d; e]) (new_AsyncQueue 1)) = [e; b; d; c; a]).
  { rewrite enqueueMany_fresh, S1, drain_serial; simpl; auto; lia. }
  assert (D2 : drain 10 (submit_each [a; b; c; d; e] (new_AsyncQueue 1)) = [e; b; d; c; a]).
  { unfold new_AsyncQueue. rewrite submit_each_open, S2, drain_serial; simpl; auto; lia. }
  rewrite D1, D2. cbn [map]. rewrite Pa, Pb, Pc, Pd, Pe.
  split; [reflexivity|]. split; [reflexivity|]. split; [reflexivity|]. split; [reflexivity|].
  split; [|split; [|exact queue_reachable_sorted]].
  - intros its q q' ev He. unfold enqueueMany in He.
    destruct (closed q); [discriminate|]. injection He as Hn.
    destruct (notifyWaiters_items (with_items q (sort_by_priority (items q ++ its)))) as [H1 H2].
    rewrite Hn in H1, H2. simpl in H1, H2.
    repeat split.
    + apply sort_by_priority_sorted.
    + intros p. apply sort_by_priority_stable.
    + exact H1.
    + exact H2.
  - intros it q q' ev He. unfold enqueue in He.
    destruct (closed q); [discriminate|]. injection He as Hn.
    destruct (notifyWaiters_items (with_items q (sort_by_priority (items q ++ [it])))) as [H1 H2].
    rewrite Hn in H1, H2. simpl in H1, H2.
    repeat split.
    + apply sort_by_priority_sorted.
    + intros p. apply sort_by_priority_stable.
    + exact H1.
    + exact H2.
Qed.

(** Scenario A on the items [a]..[e] of [scenario_A]. *)
Lemma submit_priority_order_witness :
  map priority scenario_A = [3; 1; 2; 1; 0]%Z /\
  drain 10 (apply_op (OpEnqueueMany scenario_A) (new_AsyncQueue 1))
    = [sample_item "e" 0; sample_item "b" 1; sample_item "d" 1; sample_item "c" 2; sample_item "a" 3].
Proof.
  split; [reflexivity|].
  exact (proj1 (submit_priority_order (sample_item "a" 3) (sample_item "b" 1) (sample_item "c" 2)
    (sample_item "d" 1) (sample_item "e" 0) eq_refl eq_refl eq_refl eq_refl eq_refl)).
Defined.


(** ** The worker pool drives the queue only through its methods *)

Lemma with_queue_fields : forall p q ev,
  queue (with_queue p q ev) = q /\ workerCount (with_queue p q ev) = workerCount p /\
  results (with_queue p q ev) = results p /\ running (with_queue p q ev) = running p.
Proof.
  intros p q ev. unfold with_queue. destruct (resume ev (workers p) (acquired p)).
  repeat split.
Qed.

Lemma update_queue_op : forall it b q,
  exists op, (forall w, op <> OpDequeue w) /\ update_queue it b q = run_op op q.
Proof.
  intros it b q. unfold update_queue.
  destruct b; [exists (OpMarkCompleted it); split; [discriminate|reflexivity]|].
  destruct (_ && _); [exists (OpRequeue it); split; [discriminate|reflexivity]|].
  destruct (error it) as [e|].
  - exists (OpMarkFailed it (err_code e) (err_message e)); split; [discriminate|reflexivity].
  - exists (OpMarkFailed it "UNKNOWN" "Unknown error"); split; [discriminate|reflexivity].
Qed.

Lemma pool_step_queue : forall s p p', pool_step s p = Some p' ->
  workerCount p' = workerCount p /\
  (queue p' = queue p \/ exists op, queue p' = apply_op op (queue p)).
Proof.
  intros s p p' Hs. destruct s; cbn [pool_step] in Hs.
  - destruct (enqueue it (queue p)) as [[q ev]|] eqn:He; injection Hs as <-.
    + destruct (with_queue_fields p q ev) as [Hq [Hc _]].
      split; [exact Hc|]. right. exists (OpEnqueue it). unfold apply_op. simpl.
      rewrite He. exact Hq.
    + split; [reflexivity|left; reflexivity].
  - destruct (enqueueMany its (queue p)) as [[q ev]|] eqn:He; injection Hs as <-.
    + destruct (with_queue_fields p q ev) as [Hq [Hc _]].
      split; [exact Hc|]. right. exists (OpEnqueueMany its). unfold apply_op. simpl.
      rewrite He. exact Hq.
    + split; [reflexivity|left; reflexivity].
  - destruct (running p); injection Hs as <-; split; try reflexivity; left; reflexivity.
  - destruct (close (queue p)) as [q ev] eqn:Hc. injection Hs as <-.
    destruct (with_queue_fields p q ev) as [Hq [Hn _]].
    split; [exact Hn|]. right. exists OpClose. unfold apply_op. cbn [run_op]. rewrite Hc. exact Hq.
  - destruct (all_exited (workers p)); [|discriminate]. injection Hs as <-.
    split; [reflexivity|left; reflexivity].
  - destruct (close (queue p)) as [q ev] eqn:Hc. injection Hs as <-.
    destruct (with_queue_fields (mkPool (workerCount p) (queue p) (workers p) (results p)
                false (acquired p)) q ev) as [Hq [Hn _]].
    split; [exact Hn|]. right. exists OpClose. unfold apply_op. cbn [run_op]. rewrite Hc. exact Hq.
  - destruct (nth_error (workers p) w) as [[| | |]|]; try discriminate.
    destruct (running p).
    + destruct (dequeue w (queue p)) as [q [[it|]|]] eqn:Hd; injection Hs as <-;
        (split; [reflexivity|right; exists (OpDequeue w); unfold apply_op; cbn [run_op]; rewrite Hd; reflexivity]).
    + injection Hs as <-. split; [reflexivity|left; reflexivity].
  - destruct (nth_error (workers p) w) as [[| |it|]|]; try discriminate.
    destruct (after_processor it o) as [it' r].
    destruct (update_queue it' (res_success r) (queue p)) as [q ev] eqn:Hu.
    injection Hs as <-.
    destruct (with_queue_fields (mkPool (workerCount p) (queue p)
                (set_nth w WLoopHead (workers p)) (results p ++ [r]) (running p)
                (acquired p)) q ev) as [Hq [Hn _]].
    split; [exact Hn|]. right.
    destruct (update_queue_op it' (res_success r) (queue p)) as [op [_ Hop]].
    exists op. unfold apply_op. rewrite <- Hop, Hu. exact Hq.
Qed.

Lemma pool_reachable_queue : forall W p,
  pool_reachable W p -> queue_reachable W (queue p) /\ workerCount p = W.
Proof.
  intros W p Hr. induction Hr as [|p s p' Hr [IHq IHc] Hs].
  - split; [apply qr_init|reflexivity].
  - destruct (pool_step_queue s p p' Hs) as [Hc [Hq|[op Hq]]].
    + rewrite Hq. split; [exact IHq|congruence].
    + rewrite Hq. split; [apply qr_step; exact IHq|congruence].
Qed.

(** Claim C1: in every reachable state of a worker pool built with
    [workerCount = W] (whose queue has [maxConcurrent = W]), at most [W]
    items are in the queue's [processing] set; the same holds for every
    queue state reachable by any sequence of queue calls, and each queue
    call preserves the bound. *)
Theorem processing_within_worker_count :
  (forall W, maxConcurrent (queue (new_WorkerPool W)) = W) /\
  (forall W p, pool_reachable W p -> List.length (processing (queue p)) <= W) /\
  (forall W q, queue_reachable W q -> List.length (processing q) <= W) /\
  (forall op q, List.length (processing q) <= maxConcurrent q ->
     List.length (processing (apply_op op q)) <= maxConcurrent (apply_op op q)).
Proof.
  split; [reflexivity|].
  assert (Hq : forall W q, queue_reachable W q -> List.length (processing q) <= W).
  { intros W q Hr. destruct (queue_reachable_bound W q Hr) as [Hb Hm].
    unfold within_limit in Hb. lia. }
  split; [|split; [exact Hq|]].
  - intros W p Hr. apply Hq. apply (proj1 (pool_reachable_queue W p Hr)).
  - intros op q H. destruct (apply_op_bound op q H) as [Hb _]. exact Hb.
Qed.

(** ** Lists updated by index *)

Lemma set_nth_length : forall {A} n (x : A) l, List.length (set_nth n x l) = List.length l.
Proof.
  intros A n x l. revert n. induction l as [|y l IH]; intros [|n]; simpl; auto.
Qed.

Lemma nth_error_set_nth_eq : forall {A} n (x : A) l,
  n < List.length l -> nth_error (set_nth n x l) n = Some x.
Proof.
  intros A n x l. revert n. induction l as [|y l IH]; intros [|n] H; simpl in *;
    try lia; try reflexivity.
  apply IH. lia.
Qed.

Lemma nth_error_set_nth_ne : forall {A} n m (x : A) l,
  n <> m -> nth_error (set_nth n x l) m = nth_error l m.
Proof.
  intros A n m x l. revert n m. induction l as [|y l IH]; intros [|n] [|m] H; simpl;
    try contradiction; try reflexivity.
  apply IH. lia.
Qed.

Lemma busy_count_set_nth : forall x n s old l,
  nth_error l n = Some old ->
  busy_count x (set_nth n s l) + busy_ind x old = busy_count x l + busy_ind x s.
Proof.
  intros x n s old l. revert n. unfold busy_count, busy_ind.
  induction l as [|y l IH]; intros [|n] H; simpl in *; try discriminate.
  - injection H as ->. destruct (busy_with x s), (busy_with x old); simpl; lia.
  - specialize (IH n H). destruct (busy_with x y); simpl; lia.
Qed.

Lemma count_id_app : forall x l1 l2, count_id x (l1 ++ l2) = count_id x l1 + count_id x l2.
Proof. intros. unfold count_id. rewrite filter_app, length_app. reflexivity. Qed.

Lemma busy_count_app : forall x l1 l2, busy_count x (l1 ++ l2) = busy_count x l1 + busy_count x l2.
Proof. intros. unfold busy_count. rewrite filter_app, length_app. reflexivity. Qed.

Lemma busy_count_repeat_head : forall x n, busy_count x (repeat WLoopHead n) = 0.
Proof. intros x n. induction n; simpl; auto. Qed.

(** ** Resuming suspended callers *)

Lemma resume_spec : forall ev ws acq,
  NoDup (map fst ev) ->
  (forall w r, In (w, r) ev -> nth_error ws w = Some WWaiting) ->
  List.length (fst (resume ev ws acq)) = List.length ws /\
  (forall w, ~ In w (map fst ev) -> nth_error (fst (resume ev ws acq)) w = nth_error ws w) /\
  (forall w, In w (map fst ev) -> nth_error (fst (resume ev ws acq)) w <> Some WWaiting) /\
  (forall x, busy_count x (fst (resume ev ws acq)) + count_id x acq
             = busy_count x ws + count_id x (snd (resume ev ws acq))).
Proof.
  induction ev as [|[w r] ev IH]; intros ws acq Hnd Hw.
  - simpl. repeat split; auto; intros w [].
  - simpl in Hnd. inversion Hnd as [|? ? Hnotin Hnd']; subst.
    assert (Hw0 : nth_error ws w = Some WWaiting) by (eapply Hw; left; reflexivity).
    assert (Hlt : w < List.length ws).
    { apply nth_error_Some. rewrite Hw0. discriminate. }
    set (s := match r with Some it => WBusy (set_status StProcessing it) | None => WExited end).
    assert (Hres : resume ((w, r) :: ev) ws acq
                   = resume ev (set_nth w s ws) (match r with Some it => acq ++ [id it] | None => acq end)).
    { destruct r; reflexivity. }
    rewrite Hres.
    set (ws1 := set_nth w s ws).
    set (acq1 := match r with Some it => acq ++ [id it] | None => acq end).
    assert (Hw1 : forall w' r', In (w', r') ev -> nth_error ws1 w' = Some WWaiting).
    { intros w' r' Hin. unfold ws1. rewrite nth_error_set_nth_ne.
      - eapply Hw. right. exact Hin.
      - intros Heq. subst w'. apply Hnotin. apply in_map_iff. exists (w, r'). split; [reflexivity|exact Hin]. }
    destruct (IH ws1 acq1 Hnd' Hw1) as [Hl [Hsame [Hwoke Hcnt]]].
    repeat split.
    + rewrite Hl. unfold ws1. apply set_nth_length.
    + intros w' Hn. rewrite Hsame.
      * unfold ws1. apply nth_error_set_nth_ne. intros ->. apply Hn. left. reflexivity.
      * intros Hin. apply Hn. right. exact Hin.
    + intros w' [Heq|Hin].
      * simpl in Heq. subst w'. rewrite Hsame by exact Hnotin. unfold ws1.
        rewrite nth_error_set_nth_eq by exact Hlt. unfold s. destruct r; discriminate.
      * apply Hwoke. exact Hin.
    + intros x. specialize (Hcnt x).
      pose proof (busy_count_set_nth x w s WWaiting ws Hw0) as Hb.
      fold ws1 in Hb. unfold busy_ind in Hb. simpl in Hb.
      unfold acq1 in *. unfold s in Hb.
      destruct r as [it|].
      * rewrite count_id_app in Hcnt. unfold count_id at 2 in Hcnt. simpl in Hcnt.
        simpl in Hb. destruct (String.eqb x (id it)); simpl in *; lia.
      * simpl in Hb. lia.
Qed.

(** ** Which waiters a queue call resumes *)

Lemma notify_loop_waiters : forall ws its proc max ws' its' proc' ev,
  notify_loop ws its proc max = (ws', its', proc', ev) ->
  ws' = skipn (List.length ev) ws /\ map fst ev = firstn (List.length ev) ws.
Proof.
  induction ws as [|w ws IH]; intros its proc max ws' its' proc' ev Hn.
  - simpl in Hn. inversion Hn; subst. split; reflexivity.
  - destruct its as [|it its]; simpl in Hn.
    + inversion Hn; subst. split; reflexivity.
    + destruct (Nat.ltb (List.length proc) max).
      * destruct (notify_loop ws its (set_add (id it) proc) max)
          as [[[ws1 its1] proc1] ev1] eqn:Hrec.
        inversion Hn; subst. destruct (IH _ _ _ _ _ _ _ Hrec) as [H1 H2].
        simpl. split; [exact H1|]. rewrite H2. reflexivity.
      * inversion Hn; subst. split; reflexivity.
Qed.

Lemma notifyWaiters_prefix : forall q,
  wakes_prefix q (fst (notifyWaiters q)) (snd (notifyWaiters q)).
Proof.
  intros q. unfold notifyWaiters, wakes_prefix.
  destruct (notify_loop (waiters q) (items q) (processing q) (maxConcurrent q))
    as [[[ws its] proc] ev] eqn:Hn.
  exact (notify_loop_waiters _ _ _ _ _ _ _ _ Hn).
Qed.

Lemma notifyWaiters_prefix_eq : forall q q' ev,
  notifyWaiters q = (q', ev) -> wakes_prefix q q' ev.
Proof.
  intros q q' ev H. pose proof (notifyWaiters_prefix q) as Hp. rewrite H in Hp. exact Hp.
Qed.

Lemma wakes_prefix_same : forall q0 q q' ev,
  waiters q0 = waiters q -> wakes_prefix q q' ev -> wakes_prefix q0 q' ev.
Proof. intros q0 q q' ev Heq H. unfold wakes_prefix in *. rewrite Heq. exact H. Qed.

Lemma wakes_prefix_nil : forall q q', waiters q' = waiters q -> wakes_prefix q q' [].
Proof. intros q q' H. unfold wakes_prefix. simpl. split; [exact H|reflexivity]. Qed.

Lemma firstn_app_skipn : forall {A} n1 n2 (l : list A),
  firstn n1 l ++ firstn n2 (skipn n1 l) = firstn (n1 + n2) l.
Proof.
  intros A n1. induction n1 as [|n1 IH]; intros n2 l; [reflexivity|].
  destruct l as [|x l]; simpl; [destruct n2; reflexivity|]. f_equal. apply IH.
Qed.

Lemma wakes_prefix_trans : forall q1 q2 q3 ev1 ev2,
  wakes_prefix q1 q2 ev1 -> wakes_prefix q2 q3 ev2 -> wakes_prefix q1 q3 (ev1 ++ ev2).
Proof.
  intros q1 q2 q3 ev1 ev2 [H1 H2] [H3 H4]. unfold wakes_prefix.
  rewrite length_app. split.
  - rewrite H3, H1, skipn_skipn. f_equal. lia.
  - rewrite map_app, <- firstn_app_skipn, <- H1, <- H2, <- H4. reflexivity.
Qed.

Lemma markFailed_prefix : forall it c m q,
  wakes_prefix q (fst (markFailed it c m q)) (snd (markFailed it c m q)).
Proof.
  intros. unfold markFailed. eapply wakes_prefix_same; [|apply notifyWaiters_prefix].
  reflexivity.
Qed.

Lemma markFailed_prefix_eq : forall it c m q q' ev,
  markFailed it c m q = (q', ev) -> wakes_prefix q q' ev.
Proof.
  intros it c m q q' ev H. pose proof (markFailed_prefix it c m q) as Hp.
  rewrite H in Hp. exact Hp.
Qed.

Lemma run_op_prefix : forall op q, (forall w, op <> OpDequeue w) ->
  wakes_prefix q (fst (run_op op q)) (snd (run_op op q)).
Proof.
  intros op q Hop. destruct op; cbn [run_op].
  - unfold enqueue. destruct (closed q); [apply wakes_prefix_nil; reflexivity|].
    eapply wakes_prefix_same; [|apply notifyWaiters_prefix]. reflexivity.
  - unfold enqueueMany. destruct (closed q); [apply wakes_prefix_nil; reflexivity|].
    eapply wakes_prefix_same; [|apply notifyWaiters_prefix]. reflexivity.
  - exfalso. apply (Hop w). reflexivity.
  - unfold markCompleted. eapply wakes_prefix_same; [|apply notifyWaiters_prefix]. reflexivity.
  - apply markFailed_prefix.
  - unfold markSkipped. eapply wakes_prefix_same; [|apply notifyWaiters_prefix]. reflexivity.
  - unfold requeue, requeue_body. destruct (_ <? _)%Z.
    + destruct (notifyWaiters _) as [q2 ev2] eqn:Hn. simpl.
      eapply wakes_prefix_same; [|exact (notifyWaiters_prefix_eq _ _ _ Hn)]. reflexivity.
    + destruct (markFailed _ _ _ _) as [q1 ev1] eqn:Hm.
      destruct (notifyWaiters q1) as [q2 ev2] eqn:Hn. simpl.
      apply (wakes_prefix_trans _ q1).
      * eapply wakes_prefix_same; [|exact (markFailed_prefix_eq _ _ _ _ _ _ Hm)]. reflexivity.
      * exact (notifyWaiters_prefix_eq _ _ _ Hn).
  - unfold close, wakes_prefix. simpl. rewrite length_map, skipn_all, firstn_all.
    split; [reflexivity|]. rewrite map_map. simpl. apply map_id.
Qed.

(** ** The pool invariant *)

Lemma in_firstn_in : forall {A} n (l : list A) x, In x (firstn n l) -> In x l.
Proof.
  intros A n l x H. rewrite <- (firstn_skipn n l). apply in_or_app. left. exact H.
Qed.

Lemma in_skipn_in : forall {A} n (l : list A) x, In x (skipn n l) -> In x l.
Proof.
  intros A n l x H. rewrite <- (firstn_skipn n l). apply in_or_app. right. exact H.
Qed.

Lemma NoDup_app_disjoint : forall {A} (l1 l2 : list A) x,
  NoDup (l1 ++ l2) -> In x l1 -> ~ In x l2.
Proof.
  intros A l1 l2 x. induction l1 as [|y l1 IH]; intros Hnd Hin; [destruct Hin|].
  simpl in Hnd. inversion Hnd as [|? ? Hy Hnd']; subst.
  destruct Hin as [->|Hin].
  - intros H2. apply Hy. apply in_or_app. right. exact H2.
  - apply IH; assumption.
Qed.

Lemma with_queue_inv : forall p q ev,
  pool_inv p -> wakes_prefix (queue p) q ev -> pool_inv (with_queue p q ev).
Proof.
  intros p q ev [Hnd [Hw Hc]] [Hws Hfst].
  set (W := waiters (queue p)) in *. set (n := List.length ev) in *.
  assert (HW : NoDup (firstn n W ++ skipn n W)) by (rewrite firstn_skipn; exact Hnd).
  assert (Hnde : NoDup (map fst ev)).
  { rewrite Hfst. exact (NoDup_app_remove_r _ _ HW). }
  assert (Hwait : forall w r, In (w, r) ev -> nth_error (workers p) w = Some WWaiting).
  { intros w r Hin. apply Hw. apply (in_firstn_in n). rewrite <- Hfst.
    apply in_map_iff. exists (w, r). split; [reflexivity|exact Hin]. }
  destruct (resume_spec ev (workers p) (acquired p) Hnde Hwait) as [_ [Hsame [Hwoke Hcnt]]].
  unfold with_queue. destruct (resume ev (workers p) (acquired p)) as [ws' acq'] eqn:Hr.
  simpl in Hsame, Hwoke, Hcnt. unfold pool_inv. simpl. repeat split.
  - rewrite Hws. exact (NoDup_app_remove_l _ _ HW).
  - intros Hin. rewrite Hws in Hin.
    assert (Hn : ~ In w (map fst ev)).
    { rewrite Hfst. intros H1. exact (NoDup_app_disjoint _ _ _ HW H1 Hin). }
    rewrite Hsame by exact Hn. apply Hw. exact (in_skipn_in _ _ _ Hin).
  - intros Hwt. rewrite Hws.
    destruct (in_dec Nat.eq_dec w (map fst ev)) as [Hin|Hn].
    + exfalso. exact (Hwoke w Hin Hwt).
    + rewrite Hsame in Hwt by exact Hn. apply Hw in Hwt.
      rewrite <- (firstn_skipn n W) in Hwt. apply in_app_or in Hwt.
      destruct Hwt as [Hwt|Hwt]; [|exact Hwt].
      exfalso. apply Hn. rewrite Hfst. exact Hwt.
  - intros x. specialize (Hc x). specialize (Hcnt x). lia.
Qed.

Lemma dequeue_waiters : forall w q q' r,
  dequeue w q = (q', r) ->
  (r <> Suspended -> waiters q' = waiters q) /\
  (r = Suspended -> waiters q' = waiters q ++ [w]).
Proof.
  intros w q q' r H. unfold dequeue in H.
  destruct (closed q && Nat.eqb (List.length (items q)) 0).
  - injection H as <- <-. split; intros Hr; [reflexivity|discriminate Hr].
  - destruct (items q) as [|it rest]; [|destruct (Nat.ltb _ _)];
      [destruct (closed q) | | destruct (closed q)];
      injection H as <- <-; split; intros Hr;
      solve [reflexivity | discriminate Hr | contradiction].
Qed.

Lemma pool_inv_update_worker : forall p w old s res' acq',
  pool_inv p -> nth_error (workers p) w = Some old -> old <> WWaiting -> s <> WWaiting ->
  (forall x, count_id x (map res_item res') + count_id x (acquired p) + busy_ind x s
             = count_id x acq' + count_id x (map res_item (results p)) + busy_ind x old) ->
  pool_inv (mkPool (workerCount p) (queue p) (set_nth w s (workers p)) res'
              (running p) acq').
Proof.
  intros p w old s res' acq' [Hnd [Hw Hc]] Hold Hno Hns Hacq.
  assert (Hlt : w < List.length (workers p)).
  { apply nth_error_Some. rewrite Hold. discriminate. }
  unfold pool_inv. simpl. repeat split.
  - exact Hnd.
  - intros Hin. apply Hw in Hin. destruct (Nat.eq_dec w w0) as [<-|Hne].
    + rewrite Hold in Hin. injection Hin as Hin. contradiction.
    + rewrite nth_error_set_nth_ne by exact Hne. exact Hin.
  - intros Hwt. apply Hw. destruct (Nat.eq_dec w w0) as [<-|Hne].
    + rewrite nth_error_set_nth_eq in Hwt by exact Hlt. injection Hwt as Hwt. contradiction.
    + rewrite nth_error_set_nth_ne in Hwt by exact Hne. exact Hwt.
  - intros x. specialize (Hc x). specialize (Hacq x).
    pose proof (busy_count_set_nth x w s old (workers p) Hold). lia.
Qed.

Lemma pool_inv_set_worker : forall p w old s acq',
  pool_inv p -> nth_error (workers p) w = Some old -> old <> WWaiting -> s <> WWaiting ->
  (forall x, count_id x acq' + busy_ind x old = count_id x (acquired p) + busy_ind x s) ->
  pool_inv (mkPool (workerCount p) (queue p) (set_nth w s (workers p)) (results p)
              (running p) acq').
Proof.
  intros p w old s acq' Hi Hold Hno Hns Hacq.
  apply pool_inv_update_worker with (old := old); try assumption.
  intros x. specialize (Hacq x). lia.
Qed.

Lemma run_op_inv : forall p op q ev,
  pool_inv p -> (forall w, op <> OpDequeue w) -> run_op op (queue p) = (q, ev) ->
  pool_inv (with_queue p q ev).
Proof.
  intros p op q ev Hi Hop Hr. apply with_queue_inv; [exact Hi|].
  pose proof (run_op_prefix op (queue p) Hop) as Hp. rewrite Hr in Hp. exact Hp.
Qed.

Lemma pool_step_inv : forall s p p', pool_inv p -> pool_step s p = Some p' -> pool_inv p'.
Proof.
  intros s p p' Hi Hs. destruct s; cbn [pool_step] in Hs.
  - destruct (enqueue it (queue p)) as [[q ev]|] eqn:He; injection Hs as <-; [|exact Hi].
    apply (run_op_inv p (OpEnqueue it)); [exact Hi|discriminate|cbn [run_op]; rewrite He; reflexivity].
  - destruct (enqueueMany its (queue p)) as [[q ev]|] eqn:He; injection Hs as <-; [|exact Hi].
    apply (run_op_inv p (OpEnqueueMany its)); [exact Hi|discriminate|cbn [run_op]; rewrite He; reflexivity].
  - destruct (running p); injection Hs as <-; [exact Hi|].
    destruct Hi as [Hnd [Hw Hc]]. unfold pool_inv. simpl. repeat split.
    + exact Hnd.
    + intros Hin. pose proof Hin as Hin'. apply Hw in Hin.
      rewrite nth_error_app1; [exact Hin|]. apply nth_error_Some. rewrite Hin. discriminate.
    + intros Hwt. apply Hw.
      destruct (Nat.lt_ge_cases w (List.length (workers p))) as [Hlt|Hge].
      * rewrite nth_error_app1 in Hwt by exact Hlt. exact Hwt.
      * rewrite nth_error_app2 in Hwt by exact Hge. apply nth_error_In in Hwt.
        apply repeat_spec in Hwt. discriminate.
    + intros x. rewrite busy_count_app, busy_count_repeat_head, Nat.add_0_r. apply Hc.
  - destruct (close (queue p)) as [q ev] eqn:Hc. injection Hs as <-.
    apply (run_op_inv p OpClose); [exact Hi|discriminate|exact Hc].
  - destruct (all_exited (workers p)); [|discriminate]. injection Hs as <-. exact Hi.
  - destruct (close (queue p)) as [q ev] eqn:Hc. injection Hs as <-.
    apply (run_op_inv (mkPool (workerCount p) (queue p) (workers p) (results p) false
             (acquired p)) OpClose); [exact Hi|discriminate|exact Hc].
  - destruct (nth_error (workers p) w) as [[| | |]|] eqn:Hn; try discriminate.
    destruct (running p) eqn:Hrun.
    + destruct (dequeue w (queue p)) as [q r] eqn:Hd.
      destruct (dequeue_waiters _ _ _ _ Hd) as [Hns Hsus].
      assert (Hnotw : ~ In w (waiters (queue p))).
      { intros Hin. destruct Hi as [_ [Hw _]]. apply Hw in Hin. rewrite Hn in Hin. discriminate. }
      destruct r as [[it|]|]; injection Hs as <-.
      * specialize (Hns ltac:(discriminate)).
        pose proof (pool_inv_set_worker p w WLoopHead (WBusy (set_status StProcessing it))
                      (acquired p ++ [id it]) Hi Hn ltac:(discriminate) ltac:(discriminate))
          as Hp.
        destruct Hp as [Hnd [Hw Hc]].
        { intros x. rewrite count_id_app. unfold busy_ind, count_id at 2. simpl.
          destruct (String.eqb x (id it)); simpl; lia. }
        rewrite <- Hrun. unfold pool_inv in *. simpl in *. rewrite Hns. repeat split; auto.
        -- intros Hin. apply Hw. exact Hin.
        -- intros Hwt. apply Hw. exact Hwt.
      * specialize (Hns ltac:(discriminate)).
        pose proof (pool_inv_set_worker p w WLoopHead WExited (acquired p) Hi Hn
                      ltac:(discriminate) ltac:(discriminate)) as Hp.
        destruct Hp as [Hnd [Hw Hc]]; [intros x; unfold busy_ind; simpl; lia|].
        rewrite <- Hrun. unfold pool_inv in *. simpl in *. rewrite Hns. repeat split; auto.
        -- intros Hin. apply Hw. exact Hin.
        -- intros Hwt. apply Hw. exact Hwt.
      * specialize (Hsus eq_refl).
        assert (Hlt : w < List.length (workers p)).
        { apply nth_error_Some. rewrite Hn. discriminate. }
        destruct Hi as [Hnd [Hw Hc]]. unfold pool_inv. simpl. rewrite Hsus. repeat split.
        -- apply NoDup_app; [exact Hnd|constructor; [intros []|constructor]|].
           intros a Ha [Heq|[]]. subst a. contradiction.
        -- intros Hin. apply in_app_or in Hin. destruct Hin as [Hin|[<-|[]]].
           ++ destruct (Nat.eq_dec w w0) as [<-|Hne]; [contradiction|].
              rewrite nth_error_set_nth_ne by exact Hne. apply Hw. exact Hin.
           ++ apply nth_error_set_nth_eq. exact Hlt.
        -- intros Hwt. apply in_or_app. destruct (Nat.eq_dec w w0) as [<-|Hne].
           ++ right. left. reflexivity.
           ++ left. rewrite nth_error_set_nth_ne in Hwt by exact Hne. apply Hw. exact Hwt.
        -- intros x. specialize (Hc x).
           pose proof (busy_count_set_nth x w WWaiting WLoopHead (workers p) Hn) as Hb.
           unfold busy_ind in Hb. simpl in Hb. lia.
    + injection Hs as <-.
      pose proof (pool_inv_set_worker p w WLoopHead WExited (acquired p) Hi Hn
                    ltac:(discriminate) ltac:(discriminate)) as Hp.
      apply Hp. intros x. unfold busy_ind. simpl. lia.
  - destruct (nth_error (workers p) w) as [[| |it|]|] eqn:Hn; try discriminate.
    destruct (after_processor it o) as [it' r] eqn:Ha.
    destruct (update_queue it' (res_success r) (queue p)) as [q ev] eqn:Hu.
    injection Hs as <-.
    destruct (update_queue_op it' (res_success r) (queue p)) as [op [Hop Heq]].
    set (p1 := mkPool (workerCount p) (queue p) (set_nth w WLoopHead (workers p))
                 (results p ++ [r]) (running p) (acquired p)).
    assert (Hr : res_item r = id it).
    { destruct o; simpl in Ha; injection Ha as <- <-; reflexivity. }
    assert (Hi1 : pool_inv p1).
    { apply (pool_inv_update_worker p w (WBusy it) WLoopHead); try assumption; try discriminate.
      intros x. rewrite map_app, count_id_app. unfold count_id at 2. simpl. rewrite Hr.
      unfold busy_ind. simpl. destruct (String.eqb x (id it)); simpl; lia. }
    apply (run_op_inv p1 op); [exact Hi1|exact Hop|]. unfold p1. simpl. rewrite <- Heq. exact Hu.
Qed.

Lemma pool_reachable_inv : forall W p, pool_reachable W p -> pool_inv p.
Proof.
  intros W p Hr. induction Hr as [|p s p' Hr IH Hs].
  - unfold pool_inv, new_WorkerPool. simpl. repeat split.
    + constructor.
    + intros [].
    + intros H. destruct w; discriminate H.
  - exact (pool_step_inv s p p' IH Hs).
Qed.

(** ** Counting results *)

Lemma count_id_nil : forall l, (forall x, count_id x l = 0) -> l = [].
Proof.
  intros [|y l] H; [reflexivity|]. specialize (H y). unfold count_id in H. simpl in H.
  rewrite String.eqb_refl in H. discriminate.
Qed.

Lemma count_id_split : forall x a l1 l2,
  count_id x (l1 ++ a :: l2) = count_id x (l1 ++ l2) + (if String.eqb x a then 1 else 0).
Proof.
  intros. rewrite !count_id_app. unfold count_id at 2. simpl.
  destruct (String.eqb x a); simpl; unfold count_id; lia.
Qed.

Lemma count_id_length : forall l1 l2,
  (forall x, count_id x l1 = count_id x l2) -> List.length l1 = List.length l2.
Proof.
  induction l1 as [|a l1 IH]; intros l2 H.
  - rewrite (count_id_nil l2); [reflexivity|]. intros x. rewrite <- H. reflexivity.
  - assert (Hin : In a l2).
    { assert (Hc := H a). unfold count_id in Hc. simpl in Hc. rewrite String.eqb_refl in Hc.
      simpl in Hc. destruct (filter (String.eqb a) l2) as [|b l] eqn:Hf; [discriminate|].
      assert (Hb : In b (filter (String.eqb a) l2)) by (rewrite Hf; left; reflexivity).
      apply filter_In in Hb. destruct Hb as [Hb Heq]. apply String.eqb_eq in Heq.
      subst b. exact Hb. }
    apply in_split in Hin. destruct Hin as [pre [post ->]].
    rewrite length_app. simpl. rewrite (IH (pre ++ post)).
    + rewrite length_app. lia.
    + intros x. specialize (H x). rewrite count_id_split in H. unfold count_id in H |- *.
      simpl in H. destruct (String.eqb x a); simpl in H; lia.
Qed.

Lemma busy_ids_count : forall x ws, busy_count x ws = count_id x (busy_ids ws).
Proof.
  intros x ws. induction ws as [|s ws IH]; [reflexivity|].
  unfold busy_count, count_id in *. destruct s; simpl; try exact IH.
  destruct (String.eqb x (id it)); simpl; lia.
Qed.

Lemma busy_ids_length : forall ws, List.length (busy_ids ws) = List.length (filter is_busy ws).
Proof. induction ws as [|[| | |] ws IH]; simpl; auto. Qed.

Lemma all_exited_not_busy : forall ws, all_exited ws = true -> filter is_busy ws = [].
Proof.
  induction ws as [|s ws IH]; intros H; [reflexivity|].
  unfold all_exited in *. simpl in H. destruct s; try discriminate. apply IH. exact H.
Qed.

(** Claim C10: [waitForCompletion()] returns [this.results], which holds
    one [ProcessingResult] per acquire-and-process cycle: for every item id,
    the results for that id plus the workers still processing it equal the
    number of times it was acquired, so the length of the list plus the
    number of busy workers is the number of acquisitions; once every worker
    has exited (when the [Promise.all] of [waitForCompletion] settles) the
    returned list has exactly one entry per acquisition, per item and in
    total, whatever the number of items submitted. *)
Theorem results_one_per_cycle : forall W p,
  pool_reachable W p ->
  (forall x, count_id x (map res_item (results p)) + busy_count x (workers p)
             = count_id x (acquired p)) /\
  List.length (results p) + List.length (filter is_busy (workers p))
    = List.length (acquired p) /\
  (forall p', pool_step PCompletionDone p = Some p' ->
     results p' = results p /\
     (forall x, count_id x (map res_item (results p')) = count_id x (acquired p')) /\
     List.length (results p') = List.length (acquired p')).
Proof.
  intros W p Hr. destruct (pool_reachable_inv W p Hr) as [_ [_ Hc]].
  assert (Htot : List.length (results p) + List.length (filter is_busy (workers p))
                 = List.length (acquired p)).
  { rewrite <- busy_ids_length, <- (length_map res_item (results p)), <- length_app.
    apply count_id_length. intros x. rewrite count_id_app, <- busy_ids_count. apply Hc. }
  split; [exact Hc|]. split; [exact Htot|].
  intros p' Hs. cbn [pool_step] in Hs. destruct (all_exited (workers p)) eqn:He; [|discriminate].
  injection Hs as <-. simpl. split; [reflexivity|]. split.
  - intros x. rewrite <- Hc. rewrite busy_ids_count.
    assert (Hb : busy_ids (workers p) = []).
    { apply length_zero_iff_nil. rewrite busy_ids_length, all_exited_not_busy by exact He. reflexivity. }
    rewrite Hb. unfold count_id. simpl. lia.
  - rewrite all_exited_not_busy in Htot by exact He. simpl in Htot. lia.
Qed.

(** ** Runs of the pool *)

Lemma run_steps_reachable : forall W ss p p',
  pool_reachable W p -> run_steps ss p = Some p' -> pool_reachable W p'.
Proof.
  intros W ss. induction ss as [|s ss IH]; intros p p' Hr Hs; simpl in Hs.
  - injection Hs as <-. exact Hr.
  - destruct (pool_step s p) as [p1|] eqn:H1; [|discriminate].
    apply (IH p1); [exact (pr_step W p s p1 Hr H1)|exact Hs].
Qed.

Lemma run_from_reachable : forall W ss, pool_reachable W (run_from W ss).
Proof.
  intros W ss. unfold run_from. destruct (run_steps ss (new_WorkerPool W)) eqn:H.
  - exact (run_steps_reachable W ss _ _ (pr_init W) H).
  - apply pr_init.
Qed.

(** ** A processor that throws *)

Lemma map_get_map_set_eq : forall {V} k (v : V) m, map_get k (map_set k v m) = Some v.
Proof.
  intros V k v m. induction m as [|[k' v'] m IH]; simpl.
  - rewrite String.eqb_refl. reflexivity.
  - destruct (String.eqb k k') eqn:Hk; simpl.
    + rewrite String.eqb_refl. reflexivity.
    + rewrite Hk. exact IH.
Qed.

Lemma notifyWaiters_failed : forall q, failed (fst (notifyWaiters q)) = failed q.
Proof.
  intros q. unfold notifyWaiters.
  destruct (notify_loop (waiters q) (items q) (processing q) (maxConcurrent q))
    as [[[ws its] proc] ev]. reflexivity.
Qed.

Lemma markFailed_items : forall it c m q,
  exists n, items (fst (markFailed it c m q)) = skipn n (items q).
Proof.
  intros. unfold markFailed. eexists. rewrite (proj1 (notifyWaiters_items _)). reflexivity.
Qed.

Lemma markFailed_failed : forall it c m q,
  map_get (id it) (failed (fst (markFailed it c m q)))
  = Some (set_error (Some (mkError c m false)) (set_status StFailed it)).
Proof.
  intros. unfold markFailed. rewrite notifyWaiters_failed. apply map_get_map_set_eq.
Qed.

Lemma pool_inv_finish : forall p w it r,
  pool_inv p -> nth_error (workers p) w = Some (WBusy it) -> res_item r = id it ->
  pool_inv (mkPool (workerCount p) (queue p) (set_nth w WLoopHead (workers p))
              (results p ++ [r]) (running p) (acquired p)).
Proof.
  intros p w it r Hi Hn Hr.
  apply (pool_inv_update_worker p w (WBusy it) WLoopHead); try assumption; try discriminate.
  intros x. rewrite map_app, count_id_app. unfold count_id at 2. simpl. rewrite Hr.
  unfold busy_ind. simpl. destruct (String.eqb x (id it)); simpl; lia.
Qed.

(** A worker that is not suspended in [dequeue()] is not resumed by a queue
    call. *)
Lemma with_queue_other : forall p q ev w,
  pool_inv p -> wakes_prefix (queue p) q ev -> nth_error (workers p) w <> Some WWaiting ->
  nth_error (workers (with_queue p q ev)) w = nth_error (workers p) w.
Proof.
  intros p q ev w [Hnd [Hw _]] [_ Hfst] Hnw.
  set (n := List.length ev) in *.
  assert (HW : NoDup (firstn n (waiters (queue p)) ++ skipn n (waiters (queue p))))
    by (rewrite firstn_skipn; exact Hnd).
  assert (Hnde : NoDup (map fst ev)).
  { rewrite Hfst. exact (NoDup_app_remove_r _ _ HW). }
  assert (Hwait : forall w r, In (w, r) ev -> nth_error (workers p) w = Some WWaiting).
  { intros w' r Hin. apply Hw. apply (in_firstn_in n). rewrite <- Hfst.
    apply in_map_iff. exists (w', r). split; [reflexivity|exact Hin]. }
  destruct (resume_spec ev (workers p) (acquired p) Hnde Hwait) as [_ [Hsame _]].
  unfold with_queue. destruct (resume ev (workers p) (acquired p)) as [ws' acq'] eqn:Hr.
  simpl in Hsame |- *. apply Hsame. intros Hin. apply Hnw. apply Hw.
  apply (in_firstn_in n). rewrite <- Hfst. exact Hin.
Qed.

(** Claim C9: when [await this.processor(item)] rejects, the [catch]
    branch sets [item.error] to [PROCESSOR_ERROR] with [recoverable: false];
    the item is then passed to [markFailed] (whatever its [attempts] and
    [maxAttempts]), so it is stored in [failed] with status [failed] and its
    attempt counter unchanged, nothing is added to the pending array, one
    result with [success: false] is recorded, and the worker goes back to
    the head of its loop. *)
Theorem thrown_error_not_retried : forall W p w it msg p',
  pool_reachable W p ->
  nth_error (workers p) w = Some (WBusy it) ->
  pool_step (PFinish w (ProcThrew msg)) p = Some p' ->
  map_get (id it) (failed (queue p'))
    = Some (set_error (Some (mkError "PROCESSOR_ERROR" msg false)) (set_status StFailed it)) /\
  results p' = results p ++ [mkResult (id it) false] /\
  nth_error (workers p') w = Some WLoopHead /\
  (forall x, In x (items (queue p')) -> In x (items (queue p))).
Proof.
  intros W p w it msg p' Hr Hn Hs.
  pose proof (pool_reachable_inv W p Hr) as Hi.
  cbn [pool_step] in Hs. rewrite Hn in Hs.
  unfold after_processor, update_queue in Hs.
  cbn [set_error error err_recoverable err_code err_message andb res_success] in Hs.
  set (it' := set_error (Some (mkError "PROCESSOR_ERROR" msg false)) it) in Hs.
  destruct (markFailed it' "PROCESSOR_ERROR" msg (queue p)) as [q ev] eqn:Hm.
  injection Hs as <-.
  set (p1 := mkPool (workerCount p) (queue p) (set_nth w WLoopHead (workers p))
               (results p ++ [mkResult (id it) false]) (running p) (acquired p)).
  assert (Hi1 : pool_inv p1) by (apply (pool_inv_finish p w it); auto).
  destruct (with_queue_fields p1 q ev) as [Hq [_ [Hres _]]].
  assert (Hlt : w < List.length (workers p)).
  { apply nth_error_Some. rewrite Hn. discriminate. }
  repeat split.
  - rewrite Hq. pose proof (markFailed_failed it' "PROCESSOR_ERROR" msg (queue p)) as Hf.
    rewrite Hm in Hf. exact Hf.
  - exact Hres.
  - rewrite with_queue_other.
    + unfold p1. simpl. apply nth_error_set_nth_eq. exact Hlt.
    + exact Hi1.
    + exact (markFailed_prefix_eq _ _ _ _ _ _ Hm).
    + unfold p1. simpl. rewrite nth_error_set_nth_eq by exact Hlt. discriminate.
  - intros x Hx. rewrite Hq in Hx.
    destruct (markFailed_items it' "PROCESSOR_ERROR" msg (queue p)) as [n Hn'].
    rewrite Hm in Hn'. simpl in Hn'. rewrite Hn' in Hx. eapply in_skipn_in. exact Hx.
Qed.

Lemma thrown_error_not_retried_witness :
  pool_reachable 1 c9_pool /\
  nth_error (workers c9_pool) 0 = Some (WBusy (set_status StProcessing (sample_item "x" 0))) /\
  pool_step (PFinish 0 (ProcThrew "boom")) c9_pool = Some c9_pool' /\
  map_get "x" (failed (queue c9_pool'))
    = Some (set_error (Some (mkError "PROCESSOR_ERROR" "boom" false))
              (set_status StFailed (set_status StProcessing (sample_item "x" 0)))) /\
  results c9_pool' = results c9_pool ++ [mkResult "x" false] /\
  nth_error (workers c9_pool') 0 = Some WLoopHead /\
  (forall x, In x (items (queue c9_pool')) -> In x (items (queue c9_pool))).
Proof.
  assert (Hr : pool_reachable 1 c9_pool) by apply run_from_reachable.
  assert (Hn : nth_error (workers c9_pool) 0
               = Some (WBusy (set_status StProcessing (sample_item "x" 0)))) by (vm_compute; reflexivity).
  assert (Hs : pool_step (PFinish 0 (ProcThrew "boom")) c9_pool = Some c9_pool')
    by (vm_compute; reflexivity).
  split; [exact Hr|]. split; [exact Hn|]. split; [exact Hs|].
  exact (thrown_error_not_retried 1 c9_pool 0 _ "boom" c9_pool' Hr Hn Hs).
Defined.

(** ** After the last item has failed *)

Lemma filter_busy_set_nth : forall n s ws,
  is_busy s = false -> filter is_busy ws = [] -> filter is_busy (set_nth n s ws) = [].
Proof.
  intros n s ws Hs. revert n. induction ws as [|y ws IH]; intros [|n] H; simpl in *; auto.
  - rewrite Hs. destruct (is_busy y); [discriminate|exact H].
  - destruct (is_busy y); [discriminate|]. apply IH. exact H.
Qed.

Lemma resume_none : forall ev ws acq,
  (forall w r, In (w, r) ev -> r = None) -> filter is_busy ws = [] ->
  snd (resume ev ws acq) = acq /\ filter is_busy (fst (resume ev ws acq)) = [].
Proof.
  induction ev as [|[w r] ev IH]; intros ws acq Hn Hb; [split; [reflexivity|exact Hb]|].
  rewrite (Hn w r (or_introl eq_refl)). simpl. apply IH.
  - intros w' r' Hin. exact (Hn w' r' (or_intror Hin)).
  - apply filter_busy_set_nth; [reflexivity|exact Hb].
Qed.

Lemma quiescent_with_close : forall p,
  quiescent p ->
  quiescent (with_queue p (fst (close (queue p))) (snd (close (queue p)))) /\
  acquired (with_queue p (fst (close (queue p))) (snd (close (queue p)))) = acquired p.
Proof.
  intros p [Hc [Hit Hb]]. unfold close, with_queue. simpl.
  destruct (resume_none (map (fun w => (w, None)) (waiters (queue p))) (workers p) (acquired p))
    as [Ha Hb'].
  { intros w r Hin. apply in_map_iff in Hin. destruct Hin as [w' [Heq _]].
    injection Heq as _ <-. reflexivity. }
  { exact Hb. }
  destruct (resume _ (workers p) (acquired p)) as [ws acq]. simpl in *.
  unfold quiescent. simpl. auto.
Qed.

Lemma quiescent_step : forall s p p',
  quiescent p -> pool_step s p = Some p' -> quiescent p' /\ acquired p' = acquired p.
Proof.
  intros s p p' Hq Hs. pose proof Hq as [Hc [Hit Hb]].
  destruct s; cbn [pool_step] in Hs.
  - unfold enqueue in Hs. rewrite Hc in Hs. injection Hs as <-. auto.
  - unfold enqueueMany in Hs. rewrite Hc in Hs. injection Hs as <-. auto.
  - destruct (running p); injection Hs as <-; [auto|].
    unfold quiescent. simpl. rewrite filter_app, Hb. repeat split; auto.
    induction (workerCount p); simpl; auto.
  - destruct (close (queue p)) as [q ev] eqn:Hcl. injection Hs as <-.
    pose proof (quiescent_with_close p Hq) as H. rewrite Hcl in H. exact H.
  - destruct (all_exited (workers p)); [|discriminate]. injection Hs as <-.
    unfold quiescent. simpl. auto.
  - destruct (close (queue p)) as [q ev] eqn:Hcl. injection Hs as <-.
    pose proof (quiescent_with_close (mkPool (workerCount p) (queue p) (workers p)
                  (results p) false (acquired p)) Hq) as H.
    cbn [queue acquired] in H. rewrite Hcl in H. exact H.
  - destruct (nth_error (workers p) w) as [[| | |]|]; try discriminate.
    assert (Hd : dequeue w (queue p) = (queue p, Returned None)).
    { unfold dequeue. rewrite Hc, Hit. reflexivity. }
    destruct (running p); [rewrite Hd in Hs|]; injection Hs as <-;
      (unfold quiescent; simpl; split; [repeat split; auto|reflexivity]);
      apply filter_busy_set_nth; auto.
  - destruct (nth_error (workers p) w) as [[| |it|]|] eqn:Hn; try discriminate.
    exfalso. apply nth_error_In in Hn.
    assert (Hin : In (WBusy it) (filter is_busy (workers p))) by (apply filter_In; auto).
    rewrite Hb in Hin. exact Hin.
Qed.

Lemma quiescent_run : forall ss p p',
  quiescent p -> run_steps ss p = Some p' -> acquired p' = acquired p.
Proof.
  induction ss as [|s ss IH]; intros p p' Hq Hs; simpl in Hs.
  - injection Hs as <-. reflexivity.
  - destruct (pool_step s p) as [p1|] eqn:H1; [|discriminate].
    destruct (quiescent_step s p p1 Hq H1) as [Hq1 Ha1].
    rewrite <- Ha1. exact (IH p1 p' Hq1 Hs).
Qed.

(** ** Evaluating a schedule on a symbolic item *)

Lemma run_steps_step : forall s ss p p1,
  pool_step s p = Some p1 -> run_steps (s :: ss) p = run_steps ss p1.
Proof. intros s ss p p1 H. simpl. rewrite H. reflexivity. Qed.

(** Reduce, keeping [String.eqb] folded so that [String.eqb_refl] applies to
    the comparisons of an item id with itself. *)
Ltac eval_steps := lazy beta iota zeta delta -[String.eqb].

Ltac run_step :=
  erewrite run_steps_step;
  [|eval_steps; repeat (rewrite String.eqb_refl; eval_steps); reflexivity].

(** Claim C4: an item [X] with [attempts = 0] and [maxAttempts = 3], run
    by [App.processCourse] ([submitMany], [start], [waitForCompletion]) on a
    pool with one worker whose processor always returns
    [{ success: false }] with a recoverable [item.error], is acquired
    exactly three times, ends in [failed] with code [MAX_ATTEMPTS] (and
    attempt counter 3), and no later schedule acquires anything again.
    While attempts remain, [requeue] increments [attempts] and puts the item
    back, with its priority, into the pending array (re-sorted), then calls
    [notifyWaiters]. *)
Theorem retry_exhaustion : forall X c m,
  attempts X = 0%Z -> maxAttempts X = 3%Z ->
  (exists p,
     run_steps (scenario_B_steps (fails_recoverably c m) X) (new_WorkerPool 1) = Some p /\
     acquired p = [id X; id X; id X] /\
     (exists it, map_get (id X) (failed (queue p)) = Some it /\ status it = StFailed /\
        attempts it = 3%Z /\ option_map err_code (error it) = Some "MAX_ATTEMPTS") /\
     (forall ss p', run_steps ss p = Some p' -> acquired p' = acquired p)) /\
  (forall it q, (attempts it + 1 < maxAttempts it)%Z ->
     let it' := set_status StPending (set_attempts (attempts it + 1) it) in
     id it' = id it /\ attempts it' = (attempts it + 1)%Z /\ priority it' = priority it /\
     requeue it q
       = notifyWaiters (with_items (with_processing q (set_delete (id it) (processing q)))
                          (sort_by_priority (items q ++ [it'])))).
Proof.
  intros X c m Ha Hm. split.
  - destruct X as [i f st sg pr a ma r o e]. simpl in Ha, Hm. subst a ma.
    eexists. split.
    { unfold scenario_B_steps, fails_recoverably. do 11 run_step. reflexivity. }
    split; [reflexivity|]. split.
    + eexists. split; [eval_steps; rewrite String.eqb_refl; reflexivity|].
      repeat split; reflexivity.
    + intros ss p' H. apply (quiescent_run ss _ p'); [|exact H].
      unfold quiescent. repeat split; reflexivity.
  - intros it q H. cbn zeta. repeat split.
    unfold requeue, requeue_body. cbn [attempts maxAttempts set_attempts].
    rewrite (proj2 (Z.ltb_lt _ _) H). destruct (notifyWaiters _). reflexivity.
Qed.

Lemma retry_exhaustion_witness :
  (attempts (sample_item "x" 0) = 0%Z /\ maxAttempts (sample_item "x" 0) = 3%Z) /\
  (exists p,
     run_steps (scenario_B_steps (fails_recoverably "E" "failed") (sample_item "x" 0))
       (new_WorkerPool 1) = Some p /\
     acquired p = ["x"; "x"; "x"]).
Proof.
  assert (Ha : attempts (sample_item "x" 0) = 0%Z) by reflexivity.
  assert (Hm : maxAttempts (sample_item "x" 0) = 3%Z) by reflexivity.
  split; [split; assumption|].
  destruct (retry_exhaustion (sample_item "x" 0) "E" "failed" Ha Hm) as [[p [Hr [Hacq _]]] _].
  exists p. split; [exact Hr|exact Hacq].
Defined.

(** One submitted item, three acquire-and-process cycles, three results. *)
Lemma results_one_per_cycle_witness :
  pool_reachable 1 c10_pool /\
  List.length (results c10_pool) = 3 /\ List.length (acquired c10_pool) = 3 /\
  List.length (results c10_pool) + List.length (filter is_busy (workers c10_pool))
    = List.length (acquired c10_pool).
Proof.
  assert (Hr : pool_reachable 1 c10_pool) by apply run_from_reachable.
  destruct (results_one_per_cycle 1 c10_pool Hr) as [_ [Htot _]].
  split; [exact Hr|]. split; [vm_compute; reflexivity|]. split; [vm_compute; reflexivity|].
  exact Htot.
Defined.

(* ------------------------------------------------------------------ *)
(** ** Strings and normalized absolute paths *)

Lemma string_app_assoc : forall a b c : string,
  String.append a (String.append b c) = String.append (String.append a b) c.
Proof. induction a; intros; simpl; [reflexivity | now rewrite IHa]. Qed.

Lemma string_length_app : forall a b : string,
  String.length (String.append a b) = String.length a + String.length b.
Proof. induction a; intros; simpl; [reflexivity | now rewrite IHa]. Qed.

Lemma split_slash_nonempty : forall s, split_slash s <> [].
Proof.
  induction s as [|c s IH]; cbn [split_slash]; [discriminate|].
  destruct (Ascii.eqb c slash); [discriminate|].
  destruct (split_slash s); discriminate.
Qed.

Lemma split_slash_app_slash : forall s t,
  split_slash (String.append s (String "/"%char t)) = split_slash s ++ split_slash t.
Proof.
  induction s as [|c s IH]; intros t; [reflexivity|].
  cbn [String.append split_slash]. rewrite IH.
  destruct (Ascii.eqb c slash); [reflexivity|].
  pose proof (split_slash_nonempty s) as Hne.
  destruct (split_slash s) as [|x r]; [congruence|]. reflexivity.
Qed.

Lemma split_slash_noslash : forall s, has_slash s = false -> split_slash s = [s].
Proof.
  induction s as [|c s IH]; intros H; [reflexivity|].
  unfold has_slash in H; cbn [list_ascii_of_string existsb] in H.
  apply orb_false_iff in H as [H1 H2].
  cbn [split_slash]. rewrite Ascii.eqb_sym, H1. rewrite IH by exact H2. reflexivity.
Qed.


Lemma good_seg_noslash : forall s, good_seg s = true -> has_slash s = false.
Proof. intros s H. unfold good_seg in H. destruct (has_slash s); [|reflexivity].
  rewrite !andb_false_r in H. discriminate. Qed.

Lemma split_slash_concat : forall l, Forall (fun s => good_seg s = true) l -> l <> [] ->
  split_slash (String.concat "/" l) = l.
Proof.
  induction l as [|x l IH]; intros Hg Hne; [congruence|].
  inversion Hg as [|? ? Hx Hl]; subst.
  destruct l as [|y l].
  - simpl. apply split_slash_noslash, good_seg_noslash, Hx.
  - change (String.concat "/" (x :: y :: l)) with (String.append x (String "/"%char (String.concat "/" (y :: l)))).
    rewrite split_slash_app_slash, IH by (auto; discriminate).
    rewrite split_slash_noslash by (apply good_seg_noslash, Hx). reflexivity.
Qed.


Lemma norm_aux_clean : forall allow xs acc, Forall seg_or_empty xs ->
  norm_aux allow xs acc = rev acc ++ filter nonempty xs.
Proof.
  induction xs as [|s xs IH]; intros acc H; simpl.
  - now rewrite app_nil_r.
  - inversion H as [|? ? Hs Hxs]; subst.
    destruct Hs as [-> | Hg].
    + simpl. apply IH, Hxs.
    + unfold good_seg in Hg.
      destruct (String.eqb s "") eqn:E0; [discriminate|].
      destruct (String.eqb s ".") eqn:E1; [discriminate|].
      destruct (String.eqb s "..") eqn:E2; [discriminate|].
      simpl. rewrite IH by exact Hxs. simpl. unfold nonempty at 2. rewrite E0. simpl.
      now rewrite <- app_assoc.
Qed.

Lemma abs_path_cons : forall l, abs_path l = String "/"%char (String.concat "/" l).
Proof. reflexivity. Qed.

Lemma is_absolute_slash : forall t, is_absolute (String "/"%char t) = true.
Proof. destruct t; reflexivity. Qed.

Lemma split_slash_slash : forall t, split_slash (String "/"%char t) = "" :: split_slash t.
Proof. reflexivity. Qed.

Lemma filter_nonempty_good : forall l, Forall (fun s => good_seg s = true) l -> filter nonempty l = l.
Proof.
  induction l as [|x l IH]; intros H; [reflexivity|].
  inversion H as [|? ? Hx Hl]; subst. simpl.
  unfold nonempty at 1. unfold good_seg in Hx.
  destruct (String.eqb x ""); [discriminate|]. simpl. now rewrite IH.
Qed.

Lemma split_concat_clean : forall l, Forall (fun s => good_seg s = true) l ->
  Forall seg_or_empty (split_slash (String.concat "/" l)) /\
  filter nonempty (split_slash (String.concat "/" l)) = l.
Proof.
  intros l H. destruct l as [|x l'].
  - split; [constructor; [left; reflexivity | constructor] | reflexivity].
  - rewrite split_slash_concat by (auto; discriminate). split.
    + eapply Forall_impl; [|exact H]. intros s Hs; right; exact Hs.
    + apply filter_nonempty_good, H.
Qed.

Lemma path_segs_abs : forall l, Forall (fun s => good_seg s = true) l -> path_segs (abs_path l) = l.
Proof.
  intros l H. unfold path_segs. rewrite abs_path_cons, split_slash_slash.
  apply split_concat_clean, H.
Qed.

Lemma abs_path_inj : forall l1 l2, Forall (fun s => good_seg s = true) l1 ->
  Forall (fun s => good_seg s = true) l2 -> abs_path l1 = abs_path l2 -> l1 = l2.
Proof.
  intros l1 l2 H1 H2 E. rewrite <- (path_segs_abs l1 H1), <- (path_segs_abs l2 H2), E. reflexivity.
Qed.

Lemma resolve_absolute : forall cwd cwd' p, is_absolute p = true ->
  resolve cwd [p] = resolve cwd' [p].
Proof.
  intros cwd cwd' p H. unfold resolve. cbn [rev app resolve_aux].
  destruct (String.eqb p "") eqn:E.
  - apply String.eqb_eq in E. subst. discriminate.
  - rewrite H. reflexivity.
Qed.

Lemma resolve_abs_path : forall cwd l, Forall (fun s => good_seg s = true) l ->
  resolve cwd [abs_path l] = abs_path l.
Proof.
  intros cwd l H. unfold resolve. cbn [rev app resolve_aux].
  rewrite abs_path_cons. cbn [String.eqb].
  rewrite is_absolute_slash. cbn iota beta zeta.
  unfold normalizeString.
  replace (String.append (String "/"%char (String.concat "/" l)) (String.append "/" ""))
    with (String "/"%char (String.append (String.concat "/" l) (String "/"%char ""))) by reflexivity.
  rewrite split_slash_slash, split_slash_app_slash.
  destruct (split_concat_clean l H) as [Hc Hf].
  rewrite norm_aux_clean.
  - simpl. rewrite filter_app, Hf. simpl. rewrite app_nil_r. reflexivity.
  - constructor; [left; reflexivity|]. apply Forall_app; split; [exact Hc|].
    constructor; [left; reflexivity | constructor].
Qed.

Lemma substring_app : forall a b k m,
  substring (String.length a + k) m (String.append a b) = substring k m b.
Proof. induction a as [|c a IH]; intros; [reflexivity|]. simpl. apply IH. Qed.

Lemma substring_noslash : forall x k, has_slash x = false -> k < String.length x ->
  substring k 1 x <> String "/"%char "".
Proof.
  induction x as [|c x IH]; intros k H Hk; simpl in Hk; [lia|].
  unfold has_slash in H; cbn [list_ascii_of_string existsb] in H.
  apply orb_false_iff in H as [H1 H2].
  destruct k as [|k].
  - cbn [substring]. intros E. injection E as E. subst c.
    rewrite Ascii.eqb_refl in H1. discriminate.
  - cbn [substring]. apply IH; [exact H2 | lia].
Qed.

Lemma ends_with_slash_good : forall a x, good_seg x = true ->
  ends_with "/" (String.append a x) = false.
Proof.
  intros a x Hx. unfold ends_with.
  assert (Hlen : 0 < String.length x).
  { destruct x; [discriminate | simpl; lia]. }
  rewrite string_length_app. cbn [String.length].
  replace (String.length a + String.length x - 1)
    with (String.length a + (String.length x - 1)) by lia.
  rewrite substring_app.
  destruct (String.eqb (substring (String.length x - 1) 1 x) "/") eqn:E.
  - apply String.eqb_eq in E. exfalso.
    apply (substring_noslash x (String.length x - 1)); [apply good_seg_noslash, Hx | lia | exact E].
  - apply andb_false_r.
Qed.

Lemma concat_snoc : forall l x,
  String.concat "/" (l ++ [x]) =
  match l with [] => x | _ => String.append (String.concat "/" l) (String "/"%char x) end.
Proof.
  induction l as [|y l IH]; intros x; [reflexivity|].
  destruct l as [|z l].
  - reflexivity.
  - specialize (IH x). cbn [app] in IH |- *.
    change (String.concat "/" (y :: z :: l ++ [x]))
      with (String.append y (String "/"%char (String.concat "/" (z :: l ++ [x])))).
    rewrite IH.
    change (String.concat "/" (y :: z :: l))
      with (String.append y (String "/"%char (String.concat "/" (z :: l)))).
    rewrite <- string_app_assoc. reflexivity.
Qed.

Lemma concat_snoc_nonempty : forall l x, good_seg x = true ->
  String.eqb (String.concat "/" (l ++ [x])) "" = false.
Proof.
  intros l x Hx. rewrite concat_snoc. destruct l as [|y l].
  - unfold good_seg in Hx. destruct (String.eqb x ""); [discriminate | reflexivity].
  - destruct (String.concat "/" (y :: l)); reflexivity.
Qed.

Lemma normalize_abs_path_snoc : forall l x, Forall (fun s => good_seg s = true) l ->
  good_seg x = true ->
  normalize (String.append (abs_path l) (String.append "/" x)) = abs_path (l ++ [x]).
Proof.
  intros l x Hl Hx. unfold normalize.
  rewrite abs_path_cons. cbn [String.append String.eqb].
  rewrite is_absolute_slash.
  assert (Hend : ends_with "/" (String "/"%char (String.append (String.concat "/" l) (String "/"%char x))) = false).
  { replace (String "/"%char (String.append (String.concat "/" l) (String "/"%char x)))
      with (String.append (String.append (String "/"%char (String.concat "/" l)) "/") x)
      by (rewrite <- string_app_assoc; reflexivity).
    apply ends_with_slash_good, Hx. }
  rewrite Hend.
  unfold normalizeString.
  rewrite split_slash_slash, split_slash_app_slash.
  rewrite (split_slash_noslash x) by (apply good_seg_noslash, Hx).
  destruct (split_concat_clean l Hl) as [Hc Hf].
  rewrite norm_aux_clean.
  2:{ constructor; [left; reflexivity|]. apply Forall_app; split; [exact Hc|].
      constructor; [right; exact Hx | constructor]. }
  simpl rev. rewrite app_nil_l.
  cbn [filter]. unfold nonempty at 1. cbn [String.eqb negb].
  rewrite filter_app, Hf. cbn [filter]. unfold nonempty.
  unfold good_seg in Hx. destruct (String.eqb x "") eqn:Ex; [discriminate|]. cbn [negb].
  pose proof (concat_snoc_nonempty l x) as Hn. unfold good_seg in Hn. rewrite Ex in Hn.
  rewrite Hn by exact Hx. rewrite abs_path_cons. reflexivity.
Qed.

Lemma join_abs_path : forall l x, Forall (fun s => good_seg s = true) l -> good_seg x = true ->
  join [abs_path l; x] = abs_path (l ++ [x]).
Proof.
  intros l x Hl Hx. unfold join.
  rewrite abs_path_cons. cbn [filter String.eqb negb].
  assert (Ex : String.eqb x "" = false).
  { unfold good_seg in Hx. destruct (String.eqb x ""); [discriminate | reflexivity]. }
  rewrite Ex. cbn [negb fold_left].
  rewrite <- abs_path_cons. apply normalize_abs_path_snoc; assumption.
Qed.

Lemma strip_common_prefix : forall l t, strip_common l (l ++ t) = ([], t).
Proof.
  induction l as [|x l IH]; intros t; [destruct t; reflexivity|].
  cbn [app strip_common]. rewrite String.eqb_refl. apply IH.
Qed.

Lemma relative_abs_path : forall cwd l t, Forall (fun s => good_seg s = true) l ->
  Forall (fun s => good_seg s = true) t -> t <> [] ->
  relative cwd (abs_path l) (abs_path (l ++ t)) = String.concat "/" t.
Proof.
  intros cwd l t Hl Ht Hne.
  assert (Hlt : Forall (fun s => good_seg s = true) (l ++ t)) by (apply Forall_app; auto).
  assert (Hneq : abs_path l <> abs_path (l ++ t)).
  { intros E. apply abs_path_inj in E; [|assumption|assumption].
    apply (f_equal (@List.length string)) in E. rewrite length_app in E.
    destruct t; [congruence | simpl in E; lia]. }
  unfold relative.
  destruct (String.eqb (abs_path l) (abs_path (l ++ t))) eqn:E1.
  { apply String.eqb_eq in E1. contradiction. }
  rewrite !resolve_abs_path by assumption. rewrite E1.
  rewrite !path_segs_abs by assumption.
  rewrite strip_common_prefix. reflexivity.
Qed.



(* ------------------------------------------------------------------ *)
(** ** Scenario D: where the output of [CODE/project1/main.cpp] goes *)

(** The scanner finds the file under any normalized absolute course root. *)
Lemma course_files_c5 : forall cwd segs courseId size, Forall (fun s => good_seg s = true) segs ->
  course_files cwd (abs_path segs) courseId (c5_tree size) =
  [mkScannedFile (abs_path (segs ++ ["CODE"; "project1"; "main.cpp"])) "CODE/project1/main.cpp"
     "main.cpp" ".cpp" size Code courseId (abs_path segs)].
Proof.
  intros cwd segs courseId size H.
  unfold course_files, scanDirectory, c5_tree.
  cbn -[join relative getExtension categorizeFile abs_path].
  rewrite join_abs_path; [|exact H|reflexivity].
  rewrite join_abs_path; [|apply Forall_app; split; [exact H|repeat constructor]|reflexivity].
  rewrite join_abs_path; [|repeat (apply Forall_app; split); [exact H|repeat constructor..]|reflexivity].
  rewrite <- !app_assoc. cbn [app].
  rewrite relative_abs_path; [|exact H|repeat constructor|discriminate].
  reflexivity.
Qed.

(** C5 (code bug). For a course root given by any normalized absolute path
    and any working directory, the scanner reports the file of the course
    at relative path [CODE/project1/main.cpp], and [getOutputPath] with the
    destination root [out/] and no output format maps it to
    [out/CODE_project1_main.cpp]: the whole directory part of the relative
    path, [CODE] included, becomes the prefix, its separators turned into
    underscores.  The usage guide documents [project1_main.cpp] for this
    file. *)
Lemma flattened_output_path : forall cwd segs courseId size,
  Forall (fun s => good_seg s = true) segs ->
  exists f, course_files cwd (abs_path segs) courseId (c5_tree size) = [f] /\
    sf_relativePath f = "CODE/project1/main.cpp" /\
    getOutputPath cwd f "out/" None = "out/CODE_project1_main.cpp".
Proof.
  intros cwd segs courseId size H. eexists. split; [apply course_files_c5, H|]. split; [reflexivity|].
  unfold getOutputPath. cbn [sf_coursePath sf_path sf_name sf_extension].
  rewrite (relative_abs_path cwd segs ["CODE"; "project1"; "main.cpp"]); [|exact H|repeat constructor|discriminate].
  vm_compute. reflexivity.
Qed.

Lemma flattened_output_path_witness :
  Forall (fun s => good_seg s = true) ["courses"; "c1"] /\
  exists f, course_files "/home/user" (abs_path ["courses"; "c1"]) "c1" (c5_tree 100) = [f] /\
    sf_relativePath f = "CODE/project1/main.cpp" /\
    getOutputPath "/home/user" f "out/" None = "out/CODE_project1_main.cpp".
Proof.
  assert (H : Forall (fun s => good_seg s = true) ["courses"; "c1"]) by repeat constructor.
  split; [exact H|]. exact (flattened_output_path "/home/user" ["courses"; "c1"] "c1" 100%Z H).
Defined.

(** Scenario D on the course root [/courses/c1]: the scanned file
    [CODE/project1/main.cpp] goes to [out/CODE_project1_main.cpp], not to
    [out/project1_main.cpp]. *)
Lemma C5_counterexample :
  exists f, In f (course_files "/home/user" "/courses/c1" "c1" (c5_tree 100)) /\
    sf_relativePath f = "CODE/project1/main.cpp" /\
    getOutputPath "/home/user" f "out/" None = "out/CODE_project1_main.cpp" /\
    getOutputPath "/home/user" f "out/" None <> "out/project1_main.cpp".
Proof.
  eexists. split; [vm_compute; left; reflexivity|].
  split; [reflexivity|]. split; [vm_compute; reflexivity | vm_compute; discriminate].
Qed.


(* ------------------------------------------------------------------ *)
(** ** What the scanner keeps *)

(** Induction on file-system trees, through the entries of directories. *)
Section FsNodeInd.
Variable P : FsNode -> Prop.
Hypothesis HFile : forall size, P (FsFile size).
Hypothesis HDir : forall readable entries, Forall (fun e => P (snd e)) entries -> P (FsDir readable entries).
Hypothesis HOther : P FsOther.
Hypothesis HStat : P FsStatError.

Lemma FsNode_ind' : forall n, P n.
Proof.
  fix IH 1. intros [size|readable entries| |]; [apply HFile| |apply HOther|apply HStat].
  apply HDir. induction entries as [|[name n] es IHes]; constructor; [apply IH | exact IHes].
Qed.
End FsNodeInd.

Lemma scanRecursive_pushed : forall sc cwd courseId coursePath options dir currentPath f,
  In f (scanRecursive sc cwd currentPath courseId coursePath options dir) ->
  is_video_or_audio (sf_category f) = false /\
  sf_category f = categorizeFile (sf_extension f) /\
  sf_extension f = getExtension (sf_name f).
Proof.
  intros sc cwd courseId coursePath options dir.
  induction dir as [size|readable entries IH| |] using FsNode_ind'; intros currentPath f Hin;
    try contradiction.
  destruct readable; [|contradiction].
  cbn [scanRecursive] in Hin. revert Hin.
  induction entries as [|[entry node] es IHes]; intros Hin; [contradiction|].
  inversion IH as [|? ? Hnode Hes]; subst. cbn [snd] in Hnode.
  apply in_app_or in Hin as [Hin|Hin]; [|exact (IHes Hes Hin)].
  destruct (negb (includeHidden options) && starts_with "." entry); [contradiction|].
  destruct (starts_with "__cc" entry); [contradiction|].
  destruct (shouldExclude sc (join [currentPath; entry])); [contradiction|].
  destruct node as [size|r es'| |]; try contradiction.
  - destruct (is_video_or_audio (categorizeFile (getExtension entry))) eqn:E; [contradiction|].
    destruct Hin as [<-|[]]. cbn. auto.
  - destruct (recursive options); [|contradiction]. exact (Hnode _ _ Hin).
Qed.

Lemma skip_extensions_categorized : forall e, set_mem e SKIP_EXTENSIONS = true ->
  is_video_or_audio (categorizeFile e) = true.
Proof.
  intros e H. unfold set_mem in H. apply existsb_exists in H as [x [Hx Hex]].
  apply String.eqb_eq in Hex. subst x.
  repeat (destruct Hx as [<-|Hx]; [reflexivity|]). contradiction.
Qed.

(** C7. Every file that [scanDirectory] returns, whatever the scanner's
    exclude patterns, the options and the file system, has an extension
    outside [SKIP_EXTENSIONS] and a category that is neither video nor
    audio, computed by [categorizeFile] from that extension. *)
Theorem scan_drops_video_audio : forall sc cwd dirPath courseId coursePath options root f,
  In f (scanDirectory sc cwd dirPath courseId coursePath options root) ->
  set_mem (sf_extension f) SKIP_EXTENSIONS = false /\
  is_video_or_audio (sf_category f) = false /\
  sf_category f = categorizeFile (sf_extension f).
Proof.
  intros sc cwd dirPath courseId coursePath options root f Hin.
  assert (Hp : is_video_or_audio (sf_category f) = false /\
               sf_category f = categorizeFile (sf_extension f) /\
               sf_extension f = getExtension (sf_name f)).
  { unfold scanDirectory in Hin. destruct root; try contradiction; eapply scanRecursive_pushed; exact Hin. }
  destruct Hp as [Hv [Hc _]]. split; [|split; assumption].
  destruct (set_mem (sf_extension f) SKIP_EXTENSIONS) eqn:E; [|reflexivity].
  apply skip_extensions_categorized in E. rewrite <- Hc in E. congruence.
Qed.

Lemma scan_drops_video_audio_witness :
  exists f, In f (course_files "/home/user" "/courses/c1" "c1" c7_tree) /\
    sf_name f = "notes.md" /\
    set_mem (sf_extension f) SKIP_EXTENSIONS = false /\
    is_video_or_audio (sf_category f) = false /\
    sf_category f = categorizeFile (sf_extension f).
Proof.
  eexists.
  assert (Hin : In {| sf_path := "/courses/c1/01-intro/notes.md";
                      sf_relativePath := "01-intro/notes.md"; sf_name := "notes.md";
                      sf_extension := ".md"; sf_size := 30; sf_category := Text;
                      sf_courseId := "c1"; sf_coursePath := "/courses/c1" |}
                  (course_files "/home/user" "/courses/c1" "c1" c7_tree))
    by (vm_compute; right; left; reflexivity).
  split; [exact Hin|]. split; [reflexivity|].
  exact (scan_drops_video_audio _ _ _ _ _ _ _ _ Hin).
Defined.



(* ------------------------------------------------------------------ *)
(** ** The extensions that [getExtension] returns *)

Lemma desc_ok_snoc : forall p xs b i c, desc_ok p b xs ->
  (forall j c', In (j, c') xs -> (i < j)%Z) -> (0 <= i < b)%Z -> get (Z.to_nat i) p = Some c ->
  desc_ok p b (xs ++ [(i, c)]).
Proof.
  intros p xs. induction xs as [|[j c'] r IH]; intros b i c Hd Hlt Hi Hg.
  - simpl. auto.
  - destruct Hd as [Hj [Hgj Hr]]. cbn [app desc_ok]. split; [exact Hj|]. split; [exact Hgj|].
    apply IH; auto.
    + intros k c'' Hk. apply (Hlt k c''). right; exact Hk.
    + split; [lia|]. apply (Hlt j c'). left; reflexivity.
Qed.

Lemma get_nth_error : forall s n, get n s = nth_error (list_ascii_of_string s) n.
Proof. induction s as [|c s IH]; intros [|n]; simpl; auto. Qed.

Lemma length_list_ascii : forall s, List.length (list_ascii_of_string s) = String.length s.
Proof. induction s as [|c s IH]; simpl; auto. Qed.

Lemma combine_seq_desc : forall p l o,
  (forall k c, nth_error l k = Some c -> get (o + k) p = Some c) ->
  desc_ok p (Z.of_nat (o + List.length l)) (rev (combine (map Z.of_nat (seq o (List.length l))) l)) /\
  (forall j c, In (j, c) (rev (combine (map Z.of_nat (seq o (List.length l))) l)) -> (Z.of_nat o <= j)%Z).
Proof.
  intros p l. induction l as [|c l IH]; intros o Hl.
  - split; [exact I | intros j c []].
  - cbn [List.length seq map combine rev].
    destruct (IH (S o)) as [Hd Hin].
    { intros k c' Hk. rewrite <- (Hl (S k) c') by exact Hk. f_equal. lia. }
    split.
    + replace (o + S (List.length l)) with (S o + List.length l) by lia.
      apply desc_ok_snoc; [exact Hd| | lia |].
      * intros j c' Hj. specialize (Hin j c' Hj). lia.
      * rewrite Nat2Z.id. rewrite <- (Hl 0 c) by reflexivity. f_equal; lia.
    + intros j c' Hj. apply in_app_or in Hj as [Hj|[Hj|[]]].
      * specialize (Hin j c' Hj). lia.
      * injection Hj as <- <-. lia.
Qed.

Lemma rev_indexed_desc : forall p, desc_ok p (Z.of_nat (String.length p)) (rev_indexed p).
Proof.
  intros p. unfold rev_indexed. rewrite <- length_list_ascii.
  apply (combine_seq_desc p (list_ascii_of_string p) 0).
  intros k c Hk. rewrite get_nth_error. exact Hk.
Qed.


Lemma extname_loop_dot : forall p rl startDot startPart e ms pds bound,
  desc_ok p bound rl -> (bound <= Z.of_nat (String.length p))%Z ->
  (e = -1 \/ (bound <= e <= Z.of_nat (String.length p)))%Z ->
  (startDot = -1 \/ dot_at p startDot e)%Z ->
  match extname_loop rl startDot startPart e ms pds with
  | (sd, _, e', _) => (sd = -1)%Z \/ dot_at p sd e'
  end.
Proof.
  intros p rl. induction rl as [|[i c] r IH]; intros startDot startPart e ms pds bound Hd Hb He Hs.
  - exact Hs.
  - destruct Hd as [Hi [Hg Hr]]. cbn [extname_loop].
    destruct (Ascii.eqb c slash).
    + destruct ms.
      * apply (IH _ _ _ _ _ i); auto; [lia | destruct He; [left|right]; lia].
      * exact Hs.
    + assert (Hc : exists ms' e', (if (e =? -1)%Z then (false, (i + 1)%Z) else (ms, e)) = (ms', e') /\
                   (i < e' <= Z.of_nat (String.length p))%Z /\ (startDot = -1 \/ dot_at p startDot e')%Z).
      { destruct (Z.eqb_spec e (-1)) as [->|Hne].
        - do 2 eexists. split; [reflexivity|]. split; [lia|].
          destruct Hs as [Hs|[Hs _]]; [left; exact Hs | lia].
        - do 2 eexists. split; [reflexivity|]. destruct He as [He|He]; [contradiction|]. split; [lia|exact Hs]. }
      destruct Hc as (ms' & e' & -> & He' & Hs').
      destruct (Ascii.eqb c ".") eqn:Edot.
      * destruct (Z.eqb_spec startDot (-1)).
        -- apply (IH _ _ _ _ _ i); auto; [lia | right; lia |].
           right. apply Ascii.eqb_eq in Edot. subst c. unfold dot_at. split; [lia|]. split; [lia|]. exact Hg.
        -- apply (IH _ _ _ _ _ i); auto; lia.
      * destruct (negb (startDot =? -1))%Z; apply (IH _ _ _ _ _ i); auto; lia.
Qed.

Lemma substring_get : forall p k m c, get k p = Some c ->
  substring k (S m) p = String c (substring (S k) m p).
Proof.
  induction p as [|d p IH]; intros k m c H; [discriminate|].
  destruct k as [|k].
  - injection H as <-. destruct m; reflexivity.
  - cbn [get] in H. cbn [substring]. rewrite (IH k m c H). destruct p; reflexivity.
Qed.

Lemma extname_dot : forall p, extname p = "" \/ exists rest, extname p = String "." rest.
Proof.
  intros p. unfold extname.
  pose proof (extname_loop_dot p (rev_indexed p) (-1) 0 (-1) true 0 (Z.of_nat (String.length p))
                (rev_indexed_desc p) (Z.le_refl _) (or_introl eq_refl) (or_introl eq_refl)) as H.
  destruct (extname_loop (rev_indexed p) (-1) 0 (-1) true 0) as [[[sd sp] e] pd].
  destruct (_ || _)%bool eqn:Ec; [left; reflexivity|]. right.
  repeat rewrite orb_false_iff in Ec. destruct Ec as [[[Ec _] _] _].
  destruct H as [H|(Hse & Hel & Hg)]; [subst sd; discriminate|].
  unfold js_slice, js_index.
  destruct (Z.ltb_spec sd 0); [lia|]. destruct (Z.ltb_spec e 0); [lia|].
  rewrite (Nat.min_l (Z.to_nat sd)) by lia. rewrite (Nat.min_l (Z.to_nat e)) by lia.
  destruct (Nat.ltb_spec (Z.to_nat sd) (Z.to_nat e)); [|lia].
  replace (Z.to_nat e - Z.to_nat sd) with (S (Z.to_nat e - Z.to_nat sd - 1)) by lia.
  rewrite (substring_get _ _ _ _ Hg). eexists; reflexivity.
Qed.


Lemma starts_with_dot : forall x, starts_with "." (String "." x) = true.
Proof. destruct x; reflexivity. Qed.

Lemma extension_form_cases : forall e, extension_form e = true -> e = "" \/ exists r, e = String "." r.
Proof.
  intros [|c r] H; [left; reflexivity|right].
  unfold extension_form, starts_with in H. cbn [String.eqb orb String.prefix] in H.
  destruct (ascii_dec "." c) as [<-|]; [eexists; reflexivity|].
  destruct r; discriminate.
Qed.

Lemma getExtension_form : forall name, extension_form (getExtension name) = true.
Proof.
  intros name. unfold getExtension.
  destruct (find _ compoundExtensions) as [ext|] eqn:E.
  - apply find_some in E as [Hin _]. simpl in Hin.
    repeat (destruct Hin as [<-|Hin]; [reflexivity|]). contradiction.
  - destruct (extname_dot name) as [-> | [r ->]]; [reflexivity|].
    cbn [to_lower]. unfold extension_form. rewrite orb_true_iff. right.
    change (lower_ascii ".") with "."%char. apply starts_with_dot.
Qed.

Lemma extension_not_prototype_key : forall e, extension_form e = true ->
  set_mem (to_lower e) OBJECT_PROTOTYPE_KEYS = false.
Proof.
  intros e H. destruct (extension_form_cases e H) as [-> | [r ->]]; reflexivity.
Qed.

(* ------------------------------------------------------------------ *)
(** ** Unsupported files are logged, never queued *)

Lemma build_queue_items_spec : forall cwd validatedFilesPath uuids files n,
  let '(its, ws) := build_queue_items cwd validatedFilesPath uuids n files in
  (forall it, In it its -> In (file it) files /\ routedTo it = Some (routeByExtension (file it)) /\
     method (routeByExtension (file it)) <> Unsupported) /\
  (forall f, In f files -> method (routeByExtension f) = Unsupported ->
     In (mkWarning (String.append "Unsupported file type: " (sf_extension f)) (sf_path f)) ws).
Proof.
  intros cwd vfp uuids files. induction files as [|f fs IH]; intros n.
  - simpl. split; intros ? [].
  - cbn [build_queue_items].
    destruct (method (routeByExtension f)) eqn:Em;
      try (specialize (IH (S n));
           destruct (build_queue_items cwd vfp uuids (S n) fs) as [its ws];
           destruct IH as [IH1 IH2]; split;
           [ intros it [<-|Hit];
             [ cbn [file routedTo build_item]; split; [left; reflexivity|]; split; [reflexivity|]; rewrite Em; discriminate
             | destruct (IH1 it Hit) as (? & ? & ?); split; [right; assumption|]; split; assumption ]
           | intros g [<-|Hg] Hu; [congruence | exact (IH2 g Hg Hu)] ]).
    + specialize (IH n). destruct (build_queue_items cwd vfp uuids n fs) as [its ws].
      destruct IH as [IH1 IH2]. split.
      * intros it Hit. destruct (IH1 it Hit) as (? & ? & ?). split; [right; assumption|]. split; assumption.
      * intros g [<-|Hg] Hu; [congruence | exact (IH2 g Hg Hu)].
    + specialize (IH n). destruct (build_queue_items cwd vfp uuids n fs) as [its ws].
      destruct IH as [IH1 IH2]. split.
      * intros it Hit. destruct (IH1 it Hit) as (? & ? & ?). split; [right; assumption|]. split; assumption.
      * intros g [<-|Hg] Hu; [left; reflexivity | right; exact (IH2 g Hg Hu)].
Qed.

(** C6. For every extension (empty or starting with a dot, which is what
    [getExtension] returns for every file name), [getRoutingDecision]
    checks the skip set, then the passthrough set, then [SKILL_MAPPINGS];
    an extension in none of them gets the decision [unsupported].  The
    loop of [processCourse] queues only files whose decision is not
    [unsupported] and passes exactly its queued items to [submitMany]; every
    file whose decision is [unsupported] is logged with a warning. *)
Theorem unsupported_never_queued :
  (forall extension, extension_form extension = true ->
     let ext := to_lower extension in
     (set_mem ext SKIP_EXTENSIONS = true -> method (getRoutingDecision extension) = Skip) /\
     (set_mem ext SKIP_EXTENSIONS = false -> set_mem ext TEXT_EXTENSIONS = true ->
        method (getRoutingDecision extension) = Passthrough) /\
     (set_mem ext SKIP_EXTENSIONS = false -> set_mem ext TEXT_EXTENSIONS = false ->
        assoc ext SKILL_MAPPINGS <> None ->
        method (getRoutingDecision extension) = Skill \/
        method (getRoutingDecision extension) = ArchiveM) /\
     (set_mem ext SKIP_EXTENSIONS = false -> set_mem ext TEXT_EXTENSIONS = false ->
        assoc ext SKILL_MAPPINGS = None ->
        getRoutingDecision extension = mkDecision Unsupported None None)) /\
  (forall name, extension_form (getExtension name) = true) /\
  (forall cwd validatedFilesPath uuids files,
     exists its ws, build_queue_items cwd validatedFilesPath uuids 0 files = (its, ws) /\
     processCourse_first_step cwd validatedFilesPath uuids files = PSubmitMany its /\
     (forall it, In it its -> In (file it) files /\
        routedTo it = Some (routeByExtension (file it)) /\
        method (routeByExtension (file it)) <> Unsupported) /\
     (forall f, In f files -> method (routeByExtension f) = Unsupported ->
        In (mkWarning (String.append "Unsupported file type: " (sf_extension f)) (sf_path f)) ws)).
Proof.
  split; [|split; [exact getExtension_form|]].
  - intros extension Hf ext. unfold getRoutingDecision. fold ext.
    repeat split.
    + intros Hs. rewrite Hs. reflexivity.
    + intros Hs Ht. rewrite Hs, Ht. reflexivity.
    + intros Hs Ht Ha. rewrite Hs, Ht. unfold skill_mapping.
      destruct (assoc ext SKILL_MAPPINGS) as [[sk fmt]|]; [|congruence].
      destruct (String.eqb fmt "directory"); [right|left]; reflexivity.
    + intros Hs Ht Ha. rewrite Hs, Ht. unfold skill_mapping. rewrite Ha.
      unfold ext. rewrite extension_not_prototype_key by exact Hf. reflexivity.
  - intros cwd vfp uuids files.
    pose proof (build_queue_items_spec cwd vfp uuids files 0) as H.
    unfold processCourse_first_step.
    destruct (build_queue_items cwd vfp uuids 0 files) as [its ws].
    exists its, ws. split; [reflexivity|]. split; [reflexivity|]. exact H.
Qed.

(* ------------------------------------------------------------------ *)
(** ** What [getOutputPath] reads *)

Lemma relative_absolute_cwd : forall cwd cwd' from to,
  is_absolute from = true -> is_absolute to = true -> relative cwd from to = relative cwd' from to.
Proof.
  intros cwd cwd' from to Hf Ht. unfold relative.
  rewrite (resolve_absolute cwd cwd' from Hf), (resolve_absolute cwd cwd' to Ht). reflexivity.
Qed.

(** C8. [getOutputPath] is a function of the file's [path], [coursePath],
    [name] and [extension], the destination root and the output format,
    and of the working directory that [path.relative] reads; when [path]
    and [coursePath] are absolute, the working directory does not matter
    either.  Two calls with the same arguments give the same string. *)
Theorem output_path_deterministic : forall cwd cwd' f f' outputDir outputFormat,
  sf_path f = sf_path f' -> sf_coursePath f = sf_coursePath f' ->
  sf_name f = sf_name f' -> sf_extension f = sf_extension f' ->
  cwd = cwd' \/ (is_absolute (sf_path f) = true /\ is_absolute (sf_coursePath f) = true) ->
  getOutputPath cwd f outputDir outputFormat = getOutputPath cwd' f' outputDir outputFormat.
Proof.
  intros cwd cwd' f f' outputDir outputFormat Hp Hc Hn He Hcwd.
  unfold getOutputPath. rewrite <- Hp, <- Hc, <- Hn, <- He.
  destruct Hcwd as [<- | [Ha Hb]]; [reflexivity|].
  rewrite (relative_absolute_cwd cwd cwd' _ _ Hb Ha). reflexivity.
Qed.

Lemma output_path_deterministic_witness :
  getOutputPath "/home/user" c8_file "/out" (Some ".md") =
  getOutputPath "/tmp" c8_file' "/out" (Some ".md").
Proof.
  apply (output_path_deterministic "/home/user" "/tmp" c8_file c8_file' "/out" (Some ".md"));
    try reflexivity.
  right; split; reflexivity.
Defined.

(* ------------------------------------------------------------------ *)
(** ** Further properties of the queue, the scanner, the router, the
    skill registry, course detection and the output paths *)

Lemma notify_loop_post : forall ws its proc max ws' its' proc' ev,
  notify_loop ws its proc max = (ws', its', proc', ev) ->
  ws' = [] \/ its' = [] \/ max <= List.length proc'.
Proof.
  induction ws as [|w ws IH]; intros its proc max ws' its' proc' ev Hn.
  - simpl in Hn. inversion Hn; subst. left; reflexivity.
  - destruct its as [|it its]; simpl in Hn.
    + inversion Hn; subst. right; left; reflexivity.
    + destruct (Nat.ltb (List.length proc) max) eqn:Hlt.
      * destruct (notify_loop ws its (set_add (id it) proc) max)
          as [[[ws1 its1] proc1] ev1] eqn:Hrec.
        inversion Hn; subst. exact (IH _ _ _ _ _ _ _ Hrec).
      * inversion Hn; subst. right; right. apply Nat.ltb_ge. exact Hlt.
Qed.

Lemma notifyWaiters_nlw : forall q,
  (waiters q <> [] -> closed q = false) -> no_lost_wakeup (fst (notifyWaiters q)).
Proof.
  intros q Hc. unfold notifyWaiters.
  destruct (notify_loop (waiters q) (items q) (processing q) (maxConcurrent q))
    as [[[ws its] proc] ev] eqn:Hn.
  destruct (notify_loop_waiters _ _ _ _ _ _ _ _ Hn) as [Hws _].
  pose proof (notify_loop_post _ _ _ _ _ _ _ _ Hn) as Hp.
  unfold no_lost_wakeup. simpl. intros Hne. split.
  - apply Hc. intros Hq. rewrite Hq in Hws. rewrite skipn_nil in Hws. contradiction.
  - destruct Hp as [Hp|Hp]; [contradiction|exact Hp].
Qed.

Lemma markFailed_nlw : forall it c m q,
  (waiters q <> [] -> closed q = false) -> no_lost_wakeup (fst (markFailed it c m q)).
Proof.
  intros it c m q H. unfold markFailed. apply notifyWaiters_nlw. simpl. exact H.
Qed.

Lemma apply_op_nlw : forall op q, no_lost_wakeup q -> no_lost_wakeup (apply_op op q).
Proof.
  intros op q H. destruct op; unfold apply_op; cbn [run_op].
  - unfold enqueue. destruct (closed q) eqn:Hc; [exact H|].
    apply notifyWaiters_nlw. intros _. exact Hc.
  - unfold enqueueMany. destruct (closed q) eqn:Hc; [exact H|].
    apply notifyWaiters_nlw. intros _. exact Hc.
  - unfold dequeue. destruct (closed q && Nat.eqb (List.length (items q)) 0) eqn:H0; [exact H|].
    destruct (items q) as [|it rest] eqn:Hi.
    + destruct (closed q) eqn:Hc; [exact H|]. unfold no_lost_wakeup. simpl.
      intros _. split; [exact Hc|left; exact Hi].
    + destruct (Nat.ltb (List.length (processing q)) (maxConcurrent q)) eqn:Hlt.
      * unfold no_lost_wakeup. simpl. intros Hne. exfalso.
        destruct (H Hne) as [_ [Hx|Hx]]; [congruence|].
        apply Nat.ltb_lt in Hlt. lia.
      * destruct (closed q) eqn:Hc; [exact H|]. unfold no_lost_wakeup. simpl.
        intros _. split; [exact Hc|right; apply Nat.ltb_ge; exact Hlt].
  - unfold markCompleted. apply notifyWaiters_nlw. simpl. intros Hne. exact (proj1 (H Hne)).
  - apply markFailed_nlw. intros Hne. exact (proj1 (H Hne)).
  - unfold markSkipped. apply notifyWaiters_nlw. simpl. intros Hne. exact (proj1 (H Hne)).
  - unfold requeue, requeue_body. destruct (_ <? _)%Z.
    + destruct (notifyWaiters _) as [q2 ev2] eqn:Hn. simpl.
      pose proof (notifyWaiters_nlw (with_items (with_processing q (set_delete (id it) (processing q)))
        (sort_by_priority (items (with_processing q (set_delete (id it) (processing q)))
           ++ [set_status StPending (set_attempts (attempts it + 1) it)])))) as Hp.
      rewrite Hn in Hp. apply Hp. simpl. intros Hne. exact (proj1 (H Hne)).
    + destruct (markFailed _ _ _ _) as [q1 ev1] eqn:Hm.
      destruct (notifyWaiters q1) as [q2 ev2] eqn:Hn. simpl.
      pose proof (notifyWaiters_nlw q1) as Hp. rewrite Hn in Hp. apply Hp.
      intros Hne.
      pose proof (markFailed_nlw (set_attempts (attempts it + 1) it) "MAX_ATTEMPTS"
        (String.append "Exceeded max attempts ("
          (String.append (NilZero.string_of_int (Z.to_int (maxAttempts (set_attempts (attempts it + 1) it)))) ")"))
        (with_processing q (set_delete (id it) (processing q)))) as Hq.
      rewrite Hm in Hq. simpl in Hq. apply (Hq (fun Hne' => proj1 (H Hne')) Hne).
  - unfold no_lost_wakeup, close. simpl. intros Hne. contradiction.
Qed.

(** The queue never leaves a consumer suspended while it could be served:
    whenever [waiters] is non-empty, the queue is open and either has no
    pending item or already has [maxConcurrent] items in processing. This
    holds for a new queue, is kept by every queue operation, and so holds in
    every reachable queue. *)
Theorem no_lost_wakeup_reachable :
  (forall W, no_lost_wakeup (new_AsyncQueue W)) /\
  (forall op q, no_lost_wakeup q -> no_lost_wakeup (apply_op op q)) /\
  (forall W q, queue_reachable W q -> no_lost_wakeup q).
Proof.
  assert (H0 : forall W, no_lost_wakeup (new_AsyncQueue W)).
  { intros W Hne. contradiction. }
  split; [exact H0|]. split; [exact apply_op_nlw|].
  intros W q Hr. induction Hr as [|q op Hr IH]; [apply H0|apply apply_op_nlw; exact IH].
Qed.

Lemma notifyWaiters_nil : forall q, waiters q = [] -> notifyWaiters q = (q, []).
Proof.
  intros [its proc c f s cl ws m] H. simpl in H. subst ws. unfold notifyWaiters. simpl.
  destruct its; reflexivity.
Qed.

Lemma notifyWaiters_fields : forall q,
  closed (fst (notifyWaiters q)) = closed q /\ completed (fst (notifyWaiters q)) = completed q /\
  failed (fst (notifyWaiters q)) = failed q /\ skipped (fst (notifyWaiters q)) = skipped q /\
  maxConcurrent (fst (notifyWaiters q)) = maxConcurrent q.
Proof.
  intros q. unfold notifyWaiters.
  destruct (notify_loop (waiters q) (items q) (processing q) (maxConcurrent q))
    as [[[ws its] proc] ev]. repeat split.
Qed.

Lemma markFailed_closed : forall it c m q, closed (fst (markFailed it c m q)) = closed q.
Proof. intros. unfold markFailed. rewrite (proj1 (notifyWaiters_fields _)). reflexivity. Qed.

Lemma apply_op_closed : forall op q, closed q = true -> closed (apply_op op q) = true.
Proof.
  intros op q H. destruct op; unfold apply_op; cbn [run_op].
  - unfold enqueue. rewrite H. exact H.
  - unfold enqueueMany. rewrite H. exact H.
  - unfold dequeue. destruct (closed q && _); [exact H|].
    destruct (items q); [|destruct (Nat.ltb _ _)]; rewrite ?H; exact H.
  - unfold markCompleted. rewrite (proj1 (notifyWaiters_fields _)). exact H.
  - unfold markFailed. rewrite (proj1 (notifyWaiters_fields _)). exact H.
  - unfold markSkipped. rewrite (proj1 (notifyWaiters_fields _)). exact H.
  - unfold requeue, requeue_body. destruct (_ <? _)%Z.
    + destruct (notifyWaiters _) as [q2 ev2] eqn:Hn. simpl.
      pose proof (proj1 (notifyWaiters_fields
        (with_items (with_processing q (set_delete (id it) (processing q)))
          (sort_by_priority (items (with_processing q (set_delete (id it) (processing q)))
             ++ [set_status StPending (set_attempts (attempts it + 1) it)]))))) as Hc.
      rewrite Hn in Hc. simpl in Hc. rewrite Hc. exact H.
    + destruct (markFailed _ _ _ _) as [q1 ev1] eqn:Hm.
      destruct (notifyWaiters q1) as [q2 ev2] eqn:Hn. simpl.
      pose proof (proj1 (notifyWaiters_fields q1)) as Hc. rewrite Hn in Hc. simpl in Hc.
      rewrite Hc. pose proof (markFailed_closed (set_attempts (attempts it + 1) it) "MAX_ATTEMPTS"
        (String.append "Exceeded max attempts ("
          (String.append (NilZero.string_of_int (Z.to_int (maxAttempts (set_attempts (attempts it + 1) it)))) ")"))
        (with_processing q (set_delete (id it) (processing q)))) as Hc1.
      rewrite Hm in Hc1. simpl in Hc1. rewrite Hc1. exact H.
  - unfold close. reflexivity.
Qed.

Lemma apply_op_closed_waiters : forall op q, closed q = true -> waiters q = [] ->
  waiters (apply_op op q) = [].
Proof.
  intros op q Hc Hw. destruct op.
  - unfold apply_op. pose proof (run_op_prefix (OpEnqueue it) q ltac:(discriminate)) as [H _].
    rewrite H, Hw, skipn_nil. reflexivity.
  - unfold apply_op. pose proof (run_op_prefix (OpEnqueueMany its) q ltac:(discriminate)) as [H _].
    rewrite H, Hw, skipn_nil. reflexivity.
  - unfold apply_op. cbn [run_op]. unfold dequeue. destruct (closed q && _); [exact Hw|].
    destruct (items q); [|destruct (Nat.ltb _ _)]; rewrite ?Hc; exact Hw.
  - unfold apply_op. pose proof (run_op_prefix (OpMarkCompleted it) q ltac:(discriminate)) as [H _].
    rewrite H, Hw, skipn_nil. reflexivity.
  - unfold apply_op. pose proof (run_op_prefix (OpMarkFailed it code message) q ltac:(discriminate)) as [H _].
    rewrite H, Hw, skipn_nil. reflexivity.
  - unfold apply_op. pose proof (run_op_prefix (OpMarkSkipped it reason) q ltac:(discriminate)) as [H _].
    rewrite H, Hw, skipn_nil. reflexivity.
  - unfold apply_op. pose proof (run_op_prefix (OpRequeue it) q ltac:(discriminate)) as [H _].
    rewrite H, Hw, skipn_nil. reflexivity.
  - reflexivity.
Qed.

(** After [close], whatever operations follow: the queue stays closed and
    has no waiters, [enqueue] and [enqueueMany] throw, and [dequeue] never
    suspends its caller. *)
Theorem close_is_final : forall q ops,
  let qc := fold_left (fun q op => apply_op op q) ops (apply_op OpClose q) in
  closed qc = true /\ waiters qc = [] /\
  (forall it, enqueue it qc = None) /\ (forall its, enqueueMany its qc = None) /\
  (forall w, snd (dequeue w qc) <> Suspended).
Proof.
  intros q ops qc.
  assert (H : closed qc = true /\ waiters qc = []).
  { unfold qc. assert (H0 : closed (apply_op OpClose q) = true /\ waiters (apply_op OpClose q) = [])
      by (split; reflexivity).
    revert H0. generalize (apply_op OpClose q). induction ops as [|op ops IH]; intros q0 [Hc Hw].
    - split; assumption.
    - simpl. apply IH. split; [apply apply_op_closed; exact Hc|apply apply_op_closed_waiters; assumption]. }
  destruct H as [Hc Hw]. split; [exact Hc|]. split; [exact Hw|]. split; [|split].
  - intros it. unfold enqueue. rewrite Hc. reflexivity.
  - intros its. unfold enqueueMany. rewrite Hc. reflexivity.
  - intros w. unfold dequeue. rewrite Hc. simpl.
    destruct (Nat.eqb (List.length (items qc)) 0); [discriminate|].
    destruct (items qc); [discriminate|]. destruct (Nat.ltb _ _); discriminate.
Qed.

Lemma insert_by_priority_perm : forall x l, Permutation (insert_by_priority x l) (x :: l).
Proof.
  intros x l. induction l as [|y l IH]; simpl; [reflexivity|].
  destruct (priority x <? priority y)%Z; [reflexivity|].
  rewrite IH. apply perm_swap.
Qed.

Lemma sort_by_priority_perm : forall l, Permutation (sort_by_priority l) l.
Proof.
  induction l as [|x l IH] using rev_ind; [reflexivity|].
  rewrite sort_by_priority_snoc, insert_by_priority_perm, IH.
  apply Permutation_cons_append.
Qed.

Lemma wake_items_some : forall ev l, map snd ev = map Some l -> wake_items ev = l.
Proof.
  induction ev as [|[w r] ev IH]; intros [|x l] H; simpl in H; try discriminate; [reflexivity|].
  injection H as -> H. simpl. f_equal. apply IH. exact H.
Qed.

Lemma set_add_in : forall x y s, In y s -> In y (set_add x s).
Proof. intros x y s H. unfold set_add. destruct (set_has x s); [exact H|apply in_or_app; left; exact H]. Qed.

Lemma set_add_self : forall x s, In x (set_add x s).
Proof.
  intros x s. unfold set_add, set_has. destruct (existsb (String.eqb x) s) eqn:He.
  - apply existsb_exists in He. destruct He as [y [Hy Heq]]. apply String.eqb_eq in Heq. subst. exact Hy.
  - apply in_or_app. right. left. reflexivity.
Qed.

Lemma notify_loop_proc : forall ws its proc max ws' its' proc' ev,
  notify_loop ws its proc max = (ws', its', proc', ev) ->
  (forall x, In x proc -> In x proc') /\ (forall it, In it (wake_items ev) -> In (id it) proc').
Proof.
  induction ws as [|w ws IH]; intros its proc max ws' its' proc' ev Hn.
  - simpl in Hn. inversion Hn; subst. split; [auto|intros it []].
  - destruct its as [|it its]; simpl in Hn.
    + inversion Hn; subst. split; [auto|intros it []].
    + destruct (Nat.ltb (List.length proc) max).
      * destruct (notify_loop ws its (set_add (id it) proc) max)
          as [[[ws1 its1] proc1] ev1] eqn:Hrec.
        inversion Hn; subst. destruct (IH _ _ _ _ _ _ _ Hrec) as [H1 H2]. split.
        -- intros x Hx. apply H1. apply set_add_in. exact Hx.
        -- intros it' [<-|Hin]; [apply H1; apply set_add_self|apply H2; exact Hin].
      * inversion Hn; subst. split; [auto|intros it' []].
Qed.

(** [enqueueMany] on an open queue loses and duplicates no item: the old
    pending items and the new ones are, up to order, the items handed to
    woken waiters plus the new pending list. Each handed-out item is now in
    processing, processing only grows, the woken waiters are the oldest
    ones in order and are removed, and the result maps are unchanged. *)
Theorem enqueueMany_conserves_items : forall its q,
  closed q = false ->
  exists q' ev, enqueueMany its q = Some (q', ev) /\
    Permutation (items q ++ its) (wake_items ev ++ items q') /\
    (forall it, In it (wake_items ev) -> In (id it) (processing q')) /\
    (forall x, In x (processing q) -> In x (processing q')) /\
    map fst ev = firstn (List.length ev) (waiters q) /\
    waiters q' = skipn (List.length ev) (waiters q) /\
    completed q' = completed q /\ failed q' = failed q /\ skipped q' = skipped q.
Proof.
  intros its q Hc. unfold enqueueMany. rewrite Hc.
  set (q1 := with_items q (sort_by_priority (items q ++ its))).
  exists (fst (notifyWaiters q1)), (snd (notifyWaiters q1)).
  split; [destruct (notifyWaiters q1); reflexivity|].
  destruct (notifyWaiters_items q1) as [Hi Hs].
  destruct (notifyWaiters_fields q1) as [_ [Hco [Hfa [Hsk _]]]].
  pose proof (notifyWaiters_prefix q1) as [Hw1 Hw2].
  unfold notifyWaiters in *.
  destruct (notify_loop (waiters q1) (items q1) (processing q1) (maxConcurrent q1))
    as [[[ws its1] proc] ev] eqn:Hn. simpl in *.
  destruct (notify_loop_proc _ _ _ _ _ _ _ _ Hn) as [Hp1 Hp2].
  split; [|split; [exact Hp2|split; [exact Hp1|]]].
  - rewrite (wake_items_some ev _ Hs), Hi, firstn_skipn. symmetry. apply sort_by_priority_perm.
  - repeat split; assumption.
Qed.

Lemma map_get_map_set_ne : forall {V} k k' (v : V) m, k <> k' ->
  map_get k (map_set k' v m) = map_get k m.
Proof.
  intros V k k' v m Hne. induction m as [|[k0 v0] m IH]; simpl.
  - apply String.eqb_neq in Hne. rewrite Hne. reflexivity.
  - destruct (String.eqb k' k0) eqn:H0; simpl.
    + apply String.eqb_eq in H0. subst k0. apply String.eqb_neq in Hne. rewrite Hne. reflexivity.
    + destruct (String.eqb k k0); [reflexivity|exact IH].
Qed.

Lemma map_set_length : forall {V} k (v : V) m,
  List.length (map_set k v m) = List.length m + match map_get k m with Some _ => 0 | None => 1 end.
Proof.
  intros V k v m. induction m as [|[k0 v0] m IH]; simpl; [reflexivity|].
  destruct (String.eqb k k0); simpl; [lia|]. rewrite IH. reflexivity.
Qed.

(** [markCompleted], [markFailed] and [markSkipped] record the item, with
    its new status (and error, for the last two), under its id in their own
    map and leave the other ids and the other two maps unchanged; the
    matching [getStats] counter grows by one exactly when the id was not
    already in that map. *)
Theorem mark_records_item : forall it q,
  (let q' := fst (markCompleted it q) in
   map_get (id it) (completed q') = Some (set_status StCompleted it) /\
   (forall k, k <> id it -> map_get k (completed q') = map_get k (completed q)) /\
   failed q' = failed q /\ skipped q' = skipped q /\
   st_completed (getStats q') = st_completed (getStats q) + new_entry (id it) (completed q)) /\
  (forall code message,
   let q' := fst (markFailed it code message q) in
   map_get (id it) (failed q') = Some (set_error (Some (mkError code message false)) (set_status StFailed it)) /\
   (forall k, k <> id it -> map_get k (failed q') = map_get k (failed q)) /\
   completed q' = completed q /\ skipped q' = skipped q /\
   st_failed (getStats q') = st_failed (getStats q) + new_entry (id it) (failed q)) /\
  (forall reason,
   let q' := fst (markSkipped it reason q) in
   map_get (id it) (skipped q') = Some (set_error (Some (mkError "SKIPPED" reason false)) (set_status StSkipped it)) /\
   (forall k, k <> id it -> map_get k (skipped q') = map_get k (skipped q)) /\
   completed q' = completed q /\ failed q' = failed q /\
   st_skipped (getStats q') = st_skipped (getStats q) + new_entry (id it) (skipped q)).
Proof.
  intros it q. unfold markCompleted, markFailed, markSkipped, getStats, new_entry.
  repeat split; intros;
    repeat match goal with
    | |- context [fst (notifyWaiters ?x)] =>
        destruct (notifyWaiters_fields x) as [_ [Hco [Hfa [Hsk _]]]];
        rewrite ?Hco, ?Hfa, ?Hsk; clear Hco Hfa Hsk
    end; simpl;
    solve [ apply map_get_map_set_eq | apply map_get_map_set_ne; assumption
          | reflexivity | apply map_set_length ].
Qed.

Lemma resume_nones : forall ev ws acq, (forall w r, In (w, r) ev -> r = None) ->
  snd (resume ev ws acq) = acq.
Proof.
  induction ev as [|[w r] ev IH]; intros ws acq H; [reflexivity|].
  assert (Hr : r = None) by (eapply H; left; reflexivity). subst r. simpl.
  apply IH. intros w' r' Hin. eapply H. right. exact Hin.
Qed.

Lemma with_queue_nones : forall p q ev, (forall w r, In (w, r) ev -> r = None) ->
  acquired (with_queue p q ev) = acquired p /\ queue (with_queue p q ev) = q /\
  running (with_queue p q ev) = running p.
Proof.
  intros p q ev H. unfold with_queue. pose proof (resume_nones ev (workers p) (acquired p) H) as Hr.
  destruct (resume ev (workers p) (acquired p)). simpl in *. repeat split; assumption.
Qed.

Lemma run_op_no_wakes : forall op q, (forall w, op <> OpDequeue w) -> waiters q = [] ->
  snd (run_op op q) = [].
Proof.
  intros op q Hop Hw. destruct (run_op_prefix op q Hop) as [_ H]. rewrite Hw, firstn_nil in H.
  destruct (snd (run_op op q)); [reflexivity|discriminate].
Qed.

(** [shutdown] always succeeds, leaves the pool stopped (not running, queue
    closed, no waiters) and hands out no item; from a stopped pool every
    step other than [start] keeps it stopped and hands out no item. *)
Theorem shutdown_stops_acquisition :
  (forall p, exists p', pool_step PShutdown p = Some p' /\ stopped p' /\ acquired p' = acquired p) /\
  (forall s p p', s <> PStart -> stopped p -> pool_step s p = Some p' ->
     stopped p' /\ acquired p' = acquired p).
Proof.
  split.
  - intros p. cbn [pool_step]. eexists. split; [reflexivity|].
    assert (Hn : forall w r, In (w, r) (map (fun w => (w, @None QueueItem)) (waiters (queue p))) -> r = None).
    { intros w r Hin. apply in_map_iff in Hin. destruct Hin as [w' [Heq _]]. injection Heq as _ <-. reflexivity. }
    unfold close. destruct (with_queue_nones (mkPool (workerCount p) (queue p) (workers p) (results p) false (acquired p))
      (with_waiters (with_closed (queue p) true) []) _ Hn) as [Ha [Hq Hr]].
    unfold stopped. rewrite Ha, Hq, Hr. repeat split.
  - intros s p p' Hs [Hrun [Hc Hw]] Hstep.
    assert (Hop : forall op, (forall w, op <> OpDequeue w) -> run_op op (queue p) = (apply_op op (queue p), [])).
    { intros op Hop. unfold apply_op. rewrite <- (run_op_no_wakes op (queue p) Hop Hw).
      destruct (run_op op (queue p)); reflexivity. }
    assert (Hst : forall op, (forall w, op <> OpDequeue w) ->
      closed (apply_op op (queue p)) = true /\ waiters (apply_op op (queue p)) = []).
    { intros op _. split; [apply apply_op_closed; exact Hc|apply apply_op_closed_waiters; assumption]. }
    destruct s; cbn [pool_step] in Hstep.
    + unfold enqueue in Hstep. rewrite Hc in Hstep. injection Hstep as <-.
      split; [split; [exact Hrun|split; assumption]|reflexivity].
    + unfold enqueueMany in Hstep. rewrite Hc in Hstep. injection Hstep as <-.
      split; [split; [exact Hrun|split; assumption]|reflexivity].
    + exfalso. apply Hs. reflexivity.
    + pose proof (Hop OpClose ltac:(discriminate)) as H1. cbn [run_op] in H1. rewrite H1 in Hstep.
      injection Hstep as <-. destruct (Hst OpClose ltac:(discriminate)) as [Hc' Hw'].
      unfold stopped, with_queue. simpl. repeat split; assumption.
    + destruct (all_exited (workers p)); [|discriminate]. injection Hstep as <-.
      unfold stopped. simpl. repeat split; assumption.
    + pose proof (Hop OpClose ltac:(discriminate)) as H1. cbn [run_op] in H1. rewrite H1 in Hstep.
      injection Hstep as <-. destruct (Hst OpClose ltac:(discriminate)) as [Hc' Hw'].
      unfold stopped, with_queue. simpl. repeat split; assumption.
    + destruct (nth_error (workers p) w) as [[| | |]|]; try discriminate.
      rewrite Hrun in Hstep. injection Hstep as <-.
      unfold stopped. simpl. repeat split; assumption.
    + destruct (nth_error (workers p) w) as [[| |it|]|]; try discriminate.
      destruct (after_processor it o) as [it' r].
      destruct (update_queue_op it' (res_success r) (queue p)) as [op [Hop' Heq]].
      rewrite Heq, (Hop op Hop') in Hstep. injection Hstep as <-.
      destruct (Hst op Hop') as [Hc' Hw'].
      unfold stopped, with_queue. simpl. repeat split; assumption.
Qed.

Lemma scan_skip_entry : forall sc cwd currentPath courseId coursePath options es1 name node es2,
  skipped_by_name options name = true ->
  scanRecursive sc cwd currentPath courseId coursePath options (FsDir true (es1 ++ (name, node) :: es2))
  = scanRecursive sc cwd currentPath courseId coursePath options (FsDir true (es1 ++ es2)).
Proof.
  intros sc cwd currentPath courseId coursePath options es1 name node es2 H.
  unfold skipped_by_name in H. cbn [scanRecursive].
  induction es1 as [|[e n] es1 IH].
  - cbn [app]. cbv beta iota zeta.
    destruct (negb (includeHidden options) && starts_with "." name); [reflexivity|].
    simpl in H. rewrite H. reflexivity.
  - cbn [app]. cbv beta iota zeta. cbv beta iota zeta in IH. rewrite IH. reflexivity.
Qed.

(** The scan of a tree equals the scan of the same tree with every entry
    skipped by name removed at every depth (hidden entries unless
    [includeHidden], and entries whose name starts with [__cc]): such
    entries and everything under them contribute nothing. *)
Theorem scan_ignores_skipped_entries : forall sc cwd currentPath courseId coursePath options root,
  scanRecursive sc cwd currentPath courseId coursePath options root
  = scanRecursive sc cwd currentPath courseId coursePath options (prune_skipped options root).
Proof.
  intros sc cwd currentPath courseId coursePath options root. revert currentPath.
  induction root as [size|readable entries IH| |] using FsNode_ind'; intros currentPath;
    try reflexivity.
  destruct readable; [|reflexivity].
  cbn [prune_skipped scanRecursive].
  induction entries as [|[entry node] es IHes]; [reflexivity|].
  inversion IH as [|? ? Hnode Hes]; subst. cbn [snd] in Hnode.
  specialize (IHes Hes).
  cbv beta iota zeta. cbv beta iota zeta in IHes. unfold skipped_by_name at 1.
  destruct (negb (includeHidden options) && starts_with "." entry) eqn:Hh.
  - exact IHes.
  - destruct (starts_with "__cc" entry) eqn:Hc.
    + exact IHes.
    + rewrite IHes. cbn [negb orb]. rewrite ?Hh, ?Hc. f_equal.
      destruct (shouldExclude sc (join [currentPath; entry])); [reflexivity|].
      destruct node as [size|r es'| |]; cbn [prune_skipped]; try reflexivity.
      destruct (recursive options); [|reflexivity]. exact (Hnode _).
Qed.

(** ** Letter case *)

Lemma lower_ascii_idem : forall c, lower_ascii (lower_ascii c) = lower_ascii c.
Proof. intros [[] [] [] [] [] [] [] []]; reflexivity. Qed.

Lemma lower_ascii_slash : forall c, Ascii.eqb (lower_ascii c) slash = Ascii.eqb c slash.
Proof. intros [[] [] [] [] [] [] [] []]; reflexivity. Qed.

Lemma lower_ascii_dot : forall c, Ascii.eqb (lower_ascii c) "." = Ascii.eqb c ".".
Proof. intros [[] [] [] [] [] [] [] []]; reflexivity. Qed.

Lemma to_lower_idem : forall s, to_lower (to_lower s) = to_lower s.
Proof. induction s as [|c s IH]; simpl; [reflexivity|]. rewrite lower_ascii_idem, IH. reflexivity. Qed.

Lemma to_lower_length : forall s, String.length (to_lower s) = String.length s.
Proof. induction s as [|c s IH]; simpl; congruence. Qed.

Lemma to_lower_list : forall s, list_ascii_of_string (to_lower s) = map lower_ascii (list_ascii_of_string s).
Proof. induction s as [|c s IH]; simpl; congruence. Qed.

Lemma to_lower_substring : forall n m s, substring n m (to_lower s) = to_lower (substring n m s).
Proof.
  induction n as [|n IH]; intros m s.
  - revert s. induction m as [|m IHm]; intros [|c s]; simpl; try reflexivity. rewrite IHm. reflexivity.
  - destruct s as [|c s]; simpl; [destruct m; reflexivity|]. apply IH.
Qed.

Lemma to_lower_js_slice : forall s a b, js_slice (to_lower s) a b = to_lower (js_slice s a b).
Proof.
  intros s a b. unfold js_slice. rewrite to_lower_length.
  destruct (Nat.ltb _ _); [apply to_lower_substring|reflexivity].
Qed.

Lemma combine_map_r : forall {A B C} (f : B -> C) (l1 : list A) l2,
  combine l1 (map f l2) = map (fun x => (fst x, f (snd x))) (combine l1 l2).
Proof. intros A B C f l1. induction l1 as [|a l1 IH]; intros [|b l2]; simpl; try reflexivity. rewrite IH. reflexivity. Qed.

Lemma rev_indexed_to_lower : forall s, rev_indexed (to_lower s) = map lower_pair (rev_indexed s).
Proof.
  intros s. unfold rev_indexed. rewrite to_lower_length, to_lower_list, combine_map_r, map_rev.
  reflexivity.
Qed.

Lemma extname_loop_lower : forall rl sd sp e ms pds,
  extname_loop (map lower_pair rl) sd sp e ms pds = extname_loop rl sd sp e ms pds.
Proof.
  induction rl as [|[i c] rl IH]; intros sd sp e ms pds; [reflexivity|].
  cbn [map extname_loop lower_pair fst snd]. rewrite lower_ascii_slash, lower_ascii_dot.
  destruct (Ascii.eqb c slash); [destruct ms; [apply IH|reflexivity]|].
  destruct ((e =? -1)%Z); destruct (Ascii.eqb c "."); rewrite ?IH; reflexivity.
Qed.

Lemma extname_to_lower : forall p, extname (to_lower p) = to_lower (extname p).
Proof.
  intros p. unfold extname. rewrite rev_indexed_to_lower, extname_loop_lower.
  destruct (extname_loop (rev_indexed p) (-1) 0 (-1) true 0) as [[[sd sp] e] pds].
  destruct (_ || _); [reflexivity|]. apply to_lower_js_slice.
Qed.

(** The extension depends on the name only through its lower-case form. *)
Lemma getExtension_lower : forall n, getExtension n = getExtension (to_lower n).
Proof.
  intros n. unfold getExtension. rewrite to_lower_idem, extname_to_lower, to_lower_idem.
  reflexivity.
Qed.

(** Two file names that are equal up to ASCII letter case get the same
    extension, hence the same category and the same routing decision. *)
Theorem getExtension_case_insensitive : forall n1 n2,
  to_lower n1 = to_lower n2 ->
  getExtension n1 = getExtension n2 /\
  categorizeFile (getExtension n1) = categorizeFile (getExtension n2) /\
  getRoutingDecision (getExtension n1) = getRoutingDecision (getExtension n2).
Proof.
  intros n1 n2 H. assert (He : getExtension n1 = getExtension n2)
    by (rewrite (getExtension_lower n1), (getExtension_lower n2), H; reflexivity).
  rewrite He. repeat split.
Qed.

Lemma getExtension_case_insensitive_witness :
  to_lower "Lecture.PDF" = to_lower "lecture.pdf" /\
  getExtension "Lecture.PDF" = getExtension "lecture.pdf" /\
  categorizeFile (getExtension "Lecture.PDF") = categorizeFile (getExtension "lecture.pdf") /\
  getRoutingDecision (getExtension "Lecture.PDF") = getRoutingDecision (getExtension "lecture.pdf").
Proof.
  assert (H : to_lower "Lecture.PDF" = to_lower "lecture.pdf") by reflexivity.
  split; [exact H|]. exact (getExtension_case_insensitive _ _ H).
Defined.

Lemma set_mem_In : forall x l, set_mem x l = true <-> In x l.
Proof.
  intros x l. unfold set_mem. rewrite existsb_exists. split.
  - intros [y [Hy E]]. apply String.eqb_eq in E. subst. exact Hy.
  - intros H. exists x. split; [exact H|apply String.eqb_refl].
Qed.

Lemma set_mem_outside : forall x l, incl l all_extensions -> ~ In x all_extensions -> set_mem x l = false.
Proof.
  intros x l Hl Hx. destruct (set_mem x l) eqn:E; [|reflexivity].
  apply set_mem_In in E. exfalso. exact (Hx (Hl _ E)).
Qed.

Lemma incl_of_forallb : forall l, forallb (fun k => set_mem k all_extensions) l = true -> incl l all_extensions.
Proof.
  intros l H k Hk. rewrite forallb_forall in H. apply set_mem_In, H, Hk.
Qed.

Lemma categorizeFile_outside : forall e, ~ In e all_extensions -> categorizeFile e = Unknown.
Proof.
  intros e He. unfold categorizeFile.
  destruct (find _ FILE_EXTENSIONS) as [[c l]|] eqn:E; [|reflexivity].
  apply find_some in E as [Hin Hm]. cbn [snd] in Hm. apply set_mem_In in Hm.
  exfalso. apply He. unfold all_extensions. apply in_flat_map. exists (c, l). auto.
Qed.

Lemma assoc_in_keys : forall {V} k (m : list (string * V)) v, assoc k m = Some v -> In k (map fst m).
Proof.
  intros V k m v. induction m as [|[k' v'] m IH]; simpl; [discriminate|].
  destruct (String.eqb k k') eqn:E.
  - intros _. left. symmetry. apply String.eqb_eq, E.
  - intros H. right. apply IH, H.
Qed.

Lemma getRoutingDecision_outside : forall e, to_lower e = e -> extension_form e = true ->
  ~ In e all_extensions -> method (getRoutingDecision e) = Unsupported.
Proof.
  intros e Hl Hf Hout. unfold getRoutingDecision. rewrite Hl.
  rewrite (set_mem_outside e SKIP_EXTENSIONS) by (try apply incl_of_forallb; vm_compute; reflexivity || assumption).
  rewrite (set_mem_outside e TEXT_EXTENSIONS) by (try apply incl_of_forallb; vm_compute; reflexivity || assumption).
  unfold skill_mapping. destruct (assoc e SKILL_MAPPINGS) as [[sk fmt]|] eqn:E.
  - exfalso. apply Hout. apply assoc_in_keys in E.
    assert (Hk : incl (map fst SKILL_MAPPINGS) all_extensions) by (apply incl_of_forallb; vm_compute; reflexivity).
    exact (Hk _ E).
  - pose proof (extension_not_prototype_key e Hf) as Hp. rewrite Hl in Hp. rewrite Hp. reflexivity.
Qed.

Lemma category_route_agree_lower_form : forall e, to_lower e = e -> extension_form e = true ->
  category_route_agree e = true.
Proof.
  intros e Hl Hf. destruct (in_dec string_dec e all_extensions) as [Hin|Hout].
  - assert (Hall : forallb category_route_agree all_extensions = true) by (vm_compute; reflexivity).
    rewrite forallb_forall in Hall. exact (Hall e Hin).
  - unfold category_route_agree.
    rewrite (categorizeFile_outside e Hout).
    pose proof (getRoutingDecision_outside e Hl Hf Hout) as Hm.
    unfold method_is. rewrite Hm. reflexivity.
Qed.

Lemma getExtension_lower_case : forall n, to_lower (getExtension n) = getExtension n.
Proof.
  intros n. unfold getExtension.
  destruct (find _ compoundExtensions) as [ext|] eqn:E.
  - apply find_some in E as [Hin _]. simpl in Hin.
    repeat (destruct Hin as [<-|Hin]; [reflexivity|]). contradiction.
  - apply to_lower_idem.
Qed.

Lemma method_is_true : forall m d, method_is m d = true <-> method d = m.
Proof. intros [] [[] ? ?]; simpl; split; congruence. Qed.

(** For any file name, the scanner's category of its extension and the
    registry's routing method agree: video or audio exactly when skipped,
    text or code exactly when passed through, unsupported exactly when the
    category is unknown or the extension is one of [unrouted_listed]; an
    archive route is an archive, and a skill route is a document, database,
    image or HTML file. *)
Theorem category_matches_routing : forall name,
  let e := getExtension name in
  let c := categorizeFile e in
  let m := method (getRoutingDecision e) in
  ((c = Video \/ c = Audio) <-> m = Skip) /\
  ((c = Text \/ c = Code) <-> m = Passthrough) /\
  (m = Unsupported <-> c = Unknown \/ In e unrouted_listed) /\
  (m = ArchiveM -> c = Archive) /\
  (m = Skill -> c = Document \/ c = Database \/ c = Image \/ c = Html).
Proof.
  intros name e c m.
  pose proof (category_route_agree_lower_form e (getExtension_lower_case name) (getExtension_form name)) as H.
  unfold category_route_agree in H. fold c in H.
  repeat rewrite andb_true_iff in H. destruct H as [[[[H1 H2] H3] H4] H5].
  apply Bool.eqb_prop in H1, H2, H3.
  rewrite <- set_mem_In.
  unfold m. rewrite <- !method_is_true.
  fold c. destruct c; destruct (method_is Skip (getRoutingDecision e)), (method_is Passthrough (getRoutingDecision e)),
    (method_is Unsupported (getRoutingDecision e)), (method_is ArchiveM (getRoutingDecision e)),
    (method_is Skill (getRoutingDecision e)), (set_mem e unrouted_listed);
    simpl in *; try discriminate; intuition congruence.
Qed.

Lemma getRoutingDecision_lower : forall e, getRoutingDecision e = getRoutingDecision (to_lower e).
Proof. intros e. unfold getRoutingDecision. rewrite to_lower_idem. reflexivity. Qed.

Lemma getByExtension_lower : forall m e, SkillRegistry.getByExtension m e = SkillRegistry.getByExtension m (to_lower e).
Proof. intros m e. unfold SkillRegistry.getByExtension. rewrite to_lower_idem. reflexivity. Qed.

Lemma skillName_mapping : forall e sk, skillName (getRoutingDecision e) = Some sk ->
  exists fmt, assoc (to_lower e) SKILL_MAPPINGS = Some (sk, fmt).
Proof.
  intros e sk. unfold getRoutingDecision.
  destruct (set_mem _ SKIP_EXTENSIONS); [discriminate|].
  destruct (set_mem _ TEXT_EXTENSIONS); [discriminate|].
  unfold skill_mapping. destruct (assoc _ SKILL_MAPPINGS) as [[s f]|];
    [|destruct (set_mem _ OBJECT_PROTOTYPE_KEYS); discriminate].
  destruct (String.eqb f "directory"); simpl; intros H; inversion H; subst; eexists; reflexivity.
Qed.

(** Every skill name that [getRoutingDecision] returns is registered in
    [skillRegistry] as a processor (not a generator). Outside the SQLite and
    Access extensions, [getByExtension] finds that same skill and the
    decision's output format is the skill's; for Access files it finds the
    skill but the decision says [.csv] where the skill says [.json]; for
    SQLite files the decision names [db-identify] while [getByExtension]
    finds [db-extractor-sqlite]. *)
Theorem routed_skills_registered : forall ext sk,
  skillName (getRoutingDecision ext) = Some sk ->
  exists info,
    SkillRegistry.get SkillRegistry.skillRegistry sk = Some info /\ sk_isGenerator info = false /\
    (~ In (to_lower ext) (sqlite_exts ++ access_exts) ->
       SkillRegistry.getByExtension SkillRegistry.skillRegistry ext = Some info /\
       outputFormat (getRoutingDecision ext) = Some (sk_outputFormat info)) /\
    (In (to_lower ext) access_exts ->
       SkillRegistry.getByExtension SkillRegistry.skillRegistry ext = Some info /\
       outputFormat (getRoutingDecision ext) = Some ".csv" /\ sk_outputFormat info = ".json") /\
    (In (to_lower ext) sqlite_exts ->
       sk = "db-identify" /\
       option_map sk_name (SkillRegistry.getByExtension SkillRegistry.skillRegistry ext) = Some "db-extractor-sqlite").
Proof.
  intros ext sk H. destruct (skillName_mapping ext sk H) as [fmt E].
  rewrite getRoutingDecision_lower in H |- *. rewrite getByExtension_lower.
  apply assoc_in_keys in E as Hk. generalize dependent (to_lower ext). intros e H E Hk.
  simpl in Hk.
  repeat (destruct Hk as [<-|Hk];
    [vm_compute in E; inversion E; subst; eexists; vm_compute;
     repeat split; intuition discriminate|]).
  contradiction.
Qed.

Lemma assoc_in_values : forall {V} k (m : list (string * V)) v, assoc k m = Some v -> In v (map snd m).
Proof.
  intros V k m v. induction m as [|[k' v'] m IH]; simpl; [discriminate|].
  destruct (String.eqb k k'); [intros H; inversion H; left; reflexivity|].
  intros H. right. apply IH, H.
Qed.

(** Every skill that [getGeneratorSkill] finds as an own entry of
    [GENERATOR_SKILLS] is registered in [skillRegistry] as a generator and
    is listed by [getGenerators]. *)
Theorem generator_skills_registered : forall contentType sk,
  getGeneratorSkill contentType = GOwn sk ->
  exists info, SkillRegistry.get SkillRegistry.skillRegistry sk = Some info /\ sk_isGenerator info = true /\
    In info (SkillRegistry.getGenerators SkillRegistry.skillRegistry).
Proof.
  intros ct sk. unfold getGeneratorSkill.
  destruct (assoc _ GENERATOR_SKILLS) as [s|] eqn:E;
    [|destruct (set_mem _ OBJECT_PROTOTYPE_KEYS); discriminate].
  intros H. inversion H; subst s. clear H.
  apply assoc_in_values in E. simpl in E.
  repeat (destruct E as [<-|E]; [eexists; vm_compute; split; [reflexivity|]; split; [reflexivity|]; tauto|]).
  contradiction.
Qed.

Lemma method_eqb_true : forall a b, method_eqb a b = true <-> a = b.
Proof. intros [] []; simpl; split; congruence. Qed.

Lemma bucket_push : forall m m' f b,
  bucket m (push_bucket m' f b) = bucket m b ++ (if method_eqb m' m then [f] else []).
Proof. intros [] [] f b; simpl; rewrite ?app_nil_r; reflexivity. Qed.

Lemma map_get_map_set_same : forall {V} k (v : V) m, map_get k (map_set k v m) = Some v.
Proof.
  intros V k v m. induction m as [|[k0 v0] m IH]; simpl.
  - rewrite String.eqb_refl. reflexivity.
  - destruct (String.eqb k k0) eqn:E; simpl; [rewrite String.eqb_refl; reflexivity|].
    rewrite E. exact IH.
Qed.

Lemma find_app_or : forall {A} (p : A -> bool) l1 l2,
  find p (l1 ++ l2) = match find p l1 with Some x => Some x | None => find p l2 end.
Proof. intros A p l1 l2. induction l1 as [|a l1 IH]; simpl; [reflexivity|]. destruct (p a); [reflexivity|exact IH]. Qed.

(** What [routeMany] holds for a path: the decision of the last file with
    that path. *)
Lemma routeMany_get : forall files acc p,
  map_get p (fold_left (fun results f => map_set (sf_path f) (routeByExtension f) results) files acc)
  = match find (fun f => String.eqb (sf_path f) p) (rev files) with
    | Some f => Some (routeByExtension f)
    | None => map_get p acc
    end.
Proof.
  induction files as [|f fs IH]; intros acc p; [reflexivity|].
  cbn [fold_left rev]. rewrite IH, find_app_or. cbn [find].
  destruct (find _ (rev fs)); [reflexivity|].
  destruct (String.eqb (sf_path f) p) eqn:E.
  - apply String.eqb_eq in E. subst p. apply map_get_map_set_same.
  - apply map_get_map_set_ne. intros ->. rewrite String.eqb_refl in E. discriminate.
Qed.

Lemma categorizeByMethod_bucket : forall decisions files b m,
  bucket m (fold_left (fun result f =>
               match map_get (sf_path f) decisions with
               | None => result
               | Some decision => push_bucket (method decision) f result
               end) files b)
  = bucket m b ++ filter (fun f => match map_get (sf_path f) decisions with
                                   | Some d => method_eqb (method d) m
                                   | None => false end) files.
Proof.
  intros decisions files. induction files as [|f fs IH]; intros b m.
  - simpl. rewrite app_nil_r. reflexivity.
  - cbn [fold_left filter]. rewrite IH.
    destruct (map_get (sf_path f) decisions) as [d|].
    + rewrite bucket_push, <- app_assoc. destruct (method_eqb (method d) m); reflexivity.
    + reflexivity.
Qed.

(** If files sharing a path get the same decision, [categorizeByMethod]
    applied to [routeMany]'s map puts into each bucket exactly the files,
    in input order and with repetitions, whose extension routes to that
    method. *)
Theorem categorize_routed_files : forall files,
  (forall f g, In f files -> In g files -> sf_path f = sf_path g -> routeByExtension f = routeByExtension g) ->
  forall m, bucket m (categorizeByMethod files (routeMany files))
            = filter (fun f => method_eqb (method (routeByExtension f)) m) files.
Proof.
  intros files Hpath m. unfold categorizeByMethod, routeMany.
  rewrite categorizeByMethod_bucket.
  assert (Hb : bucket m (mkBuckets [] [] [] [] []) = []) by (destruct m; reflexivity).
  rewrite Hb. cbn [app]. apply filter_ext_in. intros f Hf. rewrite routeMany_get.
  destruct (find _ (rev files)) as [g|] eqn:E.
  - apply find_some in E as [Hg Ep]. apply String.eqb_eq in Ep. apply in_rev in Hg.
    rewrite (Hpath g f Hg Hf Ep). reflexivity.
  - exfalso. eapply find_none in E; [|rewrite <- in_rev; exact Hf].
    rewrite String.eqb_refl in E. discriminate.
Qed.

Lemma categorize_routed_files_witness :
  let files := [sample_file "a" ".pdf"; sample_file "b" ".mp4"; sample_file "c" ".txt"] in
  (forall f g, In f files -> In g files -> sf_path f = sf_path g -> routeByExtension f = routeByExtension g) /\
  bucket Skill (categorizeByMethod files (routeMany files))
    = filter (fun f => method_eqb (method (routeByExtension f)) Skill) files.
Proof.
  intros files.
  assert (H : forall f g, In f files -> In g files -> sf_path f = sf_path g -> routeByExtension f = routeByExtension g).
  { intros f g Hf Hg. simpl in Hf, Hg.
    destruct Hf as [<-|[<-|[<-|[]]]]; destruct Hg as [<-|[<-|[<-|[]]]];
      vm_compute; congruence. }
  split; [exact H|]. exact (categorize_routed_files files H Skill).
Defined.

Lemma scanRecursive_paths : forall sc cwd courseId options segs node pre f,
  Forall (fun s => good_seg s = true) (segs ++ pre) -> good_names node = true ->
  In f (scanRecursive sc cwd (abs_path (segs ++ pre)) courseId (abs_path segs) options node) ->
  exists rel, sf_path f = abs_path (segs ++ pre ++ rel ++ [sf_name f]) /\
    sf_relativePath f = String.concat "/" (pre ++ rel ++ [sf_name f]) /\
    Forall (scanned_seg options) (rel ++ [sf_name f]) /\
    sf_courseId f = courseId /\ sf_coursePath f = abs_path segs.
Proof.
  intros sc cwd courseId options segs node.
  induction node as [size|readable entries IH| |] using FsNode_ind'; intros pre f Hp Hn Hin;
    try contradiction.
  destruct readable; [|contradiction].
  cbn [scanRecursive] in Hin. cbn [good_names] in Hn. revert Hn Hin.
  induction entries as [|[entry node] es IHes]; intros Hn Hin; [contradiction|].
  inversion IH as [|? ? Hnode Hes]; subst. cbn [snd] in Hnode.
  apply andb_prop in Hn as [Hn Hns]. apply andb_prop in Hn as [He Hnn].
  apply in_app_or in Hin as [Hin|Hin]; [|exact (IHes Hes Hns Hin)].
  destruct (negb (includeHidden options) && starts_with "." entry) eqn:Hh; [contradiction|].
  destruct (starts_with "__cc" entry) eqn:Hc; [contradiction|].
  assert (Hseg : scanned_seg options entry).
  { split; [exact He|]. split; [exact Hc|]. intros Hi. rewrite Hi in Hh. exact Hh. }
  rewrite join_abs_path in Hin by assumption.
  destruct (shouldExclude sc _); [contradiction|].
  destruct node as [size|r es'| |]; try contradiction.
  - destruct (is_video_or_audio _); [contradiction|].
    destruct Hin as [<-|[]]. exists []. cbn [sf_path sf_relativePath sf_name sf_courseId sf_coursePath app].
    rewrite <- app_assoc. split; [reflexivity|]. split.
    + apply relative_abs_path.
      * apply Forall_app in Hp. apply Hp.
      * apply Forall_app. split; [apply Forall_app in Hp; apply Hp|repeat constructor; exact He].
      * destruct pre; discriminate.
    + split; [constructor; [exact Hseg|constructor]|]. split; reflexivity.
  - destruct (recursive options); [|contradiction].
    rewrite <- app_assoc in Hin.
    assert (Hp' : Forall (fun s => good_seg s = true) (segs ++ pre ++ [entry])).
    { rewrite app_assoc. apply Forall_app. split; [exact Hp|repeat constructor; exact He]. }
    destruct (Hnode (pre ++ [entry]) f Hp' Hnn Hin) as (rel & E1 & E2 & E3 & E4).
    exists (entry :: rel). rewrite <- !app_assoc in E1, E2. cbn [app] in E1, E2.
    split; [exact E1|]. split; [exact E2|]. split; [constructor; assumption|exact E4].
Qed.

Lemma scanDirectory_paths : forall sc cwd courseId options segs root f,
  Forall (fun s => good_seg s = true) segs -> good_names root = true ->
  In f (scanDirectory sc cwd (abs_path segs) courseId (abs_path segs) options root) ->
  exists rel, sf_path f = abs_path (segs ++ rel ++ [sf_name f]) /\
    sf_relativePath f = String.concat "/" (rel ++ [sf_name f]) /\
    Forall (scanned_seg options) (rel ++ [sf_name f]) /\
    sf_courseId f = courseId /\ sf_coursePath f = abs_path segs.
Proof.
  intros sc cwd courseId options segs root f Hs Hn Hin.
  assert (Hin' : In f (scanRecursive sc cwd (abs_path (segs ++ [])) courseId (abs_path segs) options root)).
  { rewrite app_nil_r. destruct root; try exact Hin; contradiction. }
  apply (scanRecursive_paths sc cwd courseId options segs root [] f) in Hin';
    [|rewrite app_nil_r; exact Hs|exact Hn].
  exact Hin'.
Qed.

(** A directory entry that contributes no file to a scan. *)
Lemma scan_empty_entry : forall sc cwd currentPath courseId coursePath options es1 name node es2,
  (node = FsDir true [] \/ node = FsStatError) ->
  scanRecursive sc cwd currentPath courseId coursePath options (FsDir true (es1 ++ (name, node) :: es2))
  = scanRecursive sc cwd currentPath courseId coursePath options (FsDir true (es1 ++ es2)).
Proof.
  intros sc cwd currentPath courseId coursePath options es1 name node es2 Hn. cbn [scanRecursive].
  induction es1 as [|[e n] es1 IH].
  - cbn [app]. cbv beta iota zeta.
    destruct (negb (includeHidden options) && starts_with "." name); [reflexivity|].
    destruct (starts_with "__cc" name); [reflexivity|].
    destruct (shouldExclude sc _); [reflexivity|].
    destruct Hn as [->| ->]; [destruct (recursive options)|]; reflexivity.
  - cbn [app]. cbv beta iota zeta. cbv beta iota zeta in IH. rewrite IH. reflexivity.
Qed.

Lemma assoc_split : forall {V} k (es : list (string * V)) v, assoc k es = Some v ->
  exists es1 es2, es = es1 ++ (k, v) :: es2 /\ assoc k es1 = None.
Proof.
  intros V k es v. induction es as [|[k' v'] es IH]; simpl; [discriminate|].
  destruct (String.eqb k k') eqn:E.
  - intros H. inversion H; subst. apply String.eqb_eq in E; subst.
    exists [], es. split; reflexivity.
  - intros H. destruct (IH H) as (es1 & es2 & -> & H1).
    exists ((k', v') :: es1), es2. split; [reflexivity|]. simpl. rewrite E. exact H1.
Qed.

Lemma map_set_split : forall {V} k (v v' : V) es1 es2, assoc k es1 = None ->
  map_set k v' (es1 ++ (k, v) :: es2) = es1 ++ (k, v') :: es2.
Proof.
  intros V k v v' es1 es2. induction es1 as [|[k0 v0] es1 IH]; simpl.
  - intros _. rewrite String.eqb_refl. reflexivity.
  - destruct (String.eqb k k0) eqn:E; [discriminate|]. intros H.
    rewrite IH by exact H. reflexivity.
Qed.

Lemma map_set_absent : forall {V} k (v : V) es, assoc k es = None -> map_set k v es = es ++ [(k, v)].
Proof.
  intros V k v es. induction es as [|[k0 v0] es IH]; simpl; [reflexivity|].
  destruct (String.eqb k k0) eqn:E; [discriminate|]. intros H.
  rewrite IH by exact H. reflexivity.
Qed.

(** Creating a missing [CODE] directory changes neither the files the
    scanner finds nor [hasSrtFiles]. *)
Lemma mkdir_code_invisible : forall cwd coursePath courseId node,
  child_exists codeFolder node = false ->
  course_files cwd coursePath courseId (mkdir_child codeFolder node) = course_files cwd coursePath courseId node /\
  hasSrtFiles (mkdir_child codeFolder node) = hasSrtFiles node.
Proof.
  intros cwd coursePath courseId node H.
  destruct node as [size|r es| |]; try (split; reflexivity).
  cbn [child_exists] in H. cbn [mkdir_child].
  destruct (assoc codeFolder es) as [old|] eqn:E.
  - destruct old; try discriminate.
    destruct (assoc_split _ _ _ E) as (es1 & es2 & -> & H1).
    rewrite map_set_split by exact H1. split.
    + unfold course_files, scanDirectory. destruct r; [|reflexivity].
      rewrite !scan_empty_entry by auto. reflexivity.
    + destruct r; [|reflexivity]. cbn [hasSrtFiles]. rewrite !map_app, !existsb_app. reflexivity.
  - rewrite map_set_absent by exact E. split.
    + unfold course_files, scanDirectory. destruct r; [|reflexivity].
      rewrite <- (app_nil_r es) at 2. rewrite scan_empty_entry by auto. reflexivity.
    + destruct r; [|reflexivity]. cbn [hasSrtFiles]. rewrite map_app, existsb_app.
      cbn. rewrite orb_false_r. reflexivity.
Qed.

Lemma createCourse_spec : forall mkdirOk cwd segs courseId contentType node c,
  Forall (fun s => good_seg s = true) segs -> good_seg courseId = true ->
  createCourse mkdirOk cwd (abs_path (segs ++ [courseId])) courseId contentType node = Some c ->
  c = expected_course cwd segs contentType (courseId, node).
Proof.
  intros mkdirOk cwd segs courseId contentType node c Hs Hi.
  assert (H1 : Forall (fun s => good_seg s = true) (segs ++ [courseId]))
    by (apply Forall_app; split; [exact Hs|repeat constructor; exact Hi]).
  assert (H2 : Forall (fun s => good_seg s = true) ((segs ++ [courseId]) ++ [codeFolder]))
    by (apply Forall_app; split; [exact H1|repeat constructor]).
  unfold createCourse. rewrite (join_abs_path _ codeFolder H1 eq_refl).
  rewrite (join_abs_path _ validatedFiles H2 eq_refl).
  rewrite <- !app_assoc. cbn [app].
  destruct (child_exists codeFolder node) eqn:Ec.
  - intros H. inversion H. reflexivity.
  - destruct (mkdirOk _); [|discriminate]. intros H. inversion H.
    destruct (mkdir_code_invisible cwd (abs_path (segs ++ [courseId])) courseId node Ec) as [F1 F2].
    unfold course_files in F1. rewrite F1, F2. reflexivity.
Qed.

(** On a readable input directory at a normalized absolute path,
    a successful [detectCourses] returns one course per visible directory
    entry, in entry order, with the paths [createCourse] builds and the
    files the scanner finds in it; it flags root [.srt] files, warns about
    them, and warns when no course was found and there is no root [.srt]. *)
Theorem detectCourses_spec : forall mkdirOk cwd segs contentType rootFiles res,
  Forall (fun s => good_seg s = true) segs ->
  Forall (fun e => good_seg (fst e) = true) rootFiles ->
  detectCourses mkdirOk cwd (abs_path segs) contentType (FsDir true rootFiles) = Some res ->
  courses res = map (expected_course cwd segs contentType) (filter course_entry rootFiles) /\
  hasRootSrtFiles res = existsb has_srt_name (map fst rootFiles) /\
  warnings res = (if hasRootSrtFiles res then [srt_warning] else []) ++
                 (if Nat.eqb (List.length (courses res)) 0 && negb (hasRootSrtFiles res)
                  then ["No course directories found in input path"] else []).
Proof.
  intros mkdirOk cwd segs contentType rootFiles res Hs He.
  unfold detectCourses.
  destruct (detect_loop mkdirOk cwd (abs_path segs) contentType rootFiles) as [cs|] eqn:Ed; [|discriminate].
  intros H. inversion H; subst res. clear H. cbn [courses warnings hasRootSrtFiles].
  split; [|split; [reflexivity|]].
  - revert cs Ed. induction rootFiles as [|[entry node] es IH]; intros cs Ed.
    + inversion Ed. reflexivity.
    + inversion He as [|? ? Hent Hes]; subst. cbn [fst] in Hent.
      cbn [detect_loop] in Ed. cbn [filter]. unfold course_entry at 1. cbn [fst snd].
      destruct node as [size|r es'| |]; cbn [negb]; try exact (IH Hes cs Ed).
      destruct (starts_with "." entry || starts_with "__cc" entry); cbn [negb];
        [exact (IH Hes cs Ed)|].
      rewrite join_abs_path in Ed by assumption.
      destruct (createCourse mkdirOk cwd _ entry contentType (FsDir r es')) as [c|] eqn:Ec; [|discriminate].
      destruct (detect_loop mkdirOk cwd (abs_path segs) contentType es) as [cs'|] eqn:Ed'; [|discriminate].
      inversion Ed; subst cs. cbn [map]. rewrite (IH Hes cs' eq_refl).
      rewrite (createCourse_spec _ _ _ _ _ _ _ Hs Hent Ec). reflexivity.
  - destruct (existsb has_srt_name (map fst rootFiles)); cbn [negb];
      rewrite ?andb_false_r; [rewrite app_nil_r; reflexivity|].
    destruct (Nat.eqb _ 0); [reflexivity|]. rewrite app_nil_r. reflexivity.
Qed.

Lemma idx_app : forall l1 l2 k, idx k (l1 ++ l2) = idx k l1 ++ idx (k + List.length l1) l2.
Proof.
  induction l1 as [|c l1 IH]; intros l2 k; [rewrite Nat.add_0_r; reflexivity|].
  unfold idx in *. cbn [List.length app seq map combine]. rewrite IH.
  replace (S k + List.length l1) with (k + S (List.length l1)) by lia. reflexivity.
Qed.

Lemma list_ascii_app : forall s t,
  list_ascii_of_string (String.append s t) = list_ascii_of_string s ++ list_ascii_of_string t.
Proof. induction s as [|c s IH]; intros t; simpl; [reflexivity|]. rewrite IH. reflexivity. Qed.

Lemma rev_indexed_app : forall s t,
  rev_indexed (String.append s t) = rev (idx (String.length s) (list_ascii_of_string t)) ++ rev_indexed s.
Proof.
  intros s t. unfold rev_indexed. rewrite string_length_app, list_ascii_app.
  rewrite <- (length_list_ascii s), <- (length_list_ascii t).
  rewrite <- length_app. fold (idx 0 (list_ascii_of_string s ++ list_ascii_of_string t)).
  rewrite idx_app, rev_app_distr. reflexivity.
Qed.

Lemma in_idx : forall k l p, In p (idx k l) -> (Z.of_nat k <= fst p)%Z /\ In (snd p) l.
Proof.
  intros k l [i c] H. unfold idx in H. split.
  - apply in_combine_l in H. apply in_map_iff in H as [n [<- Hn]]. apply in_seq in Hn. cbn. lia.
  - apply in_combine_r in H. exact H.
Qed.

Lemma dirname_loop_app : forall l1 l2 ms,
  Forall (fun p => (1 <= fst p)%Z /\ Ascii.eqb (snd p) slash = false) l1 ->
  dirname_loop (l1 ++ l2) ms = dirname_loop l2 (match l1 with [] => ms | _ => false end).
Proof.
  induction l1 as [|[i c] l1 IH]; intros l2 ms H; [reflexivity|].
  inversion H as [|? ? [Hi Hc] Hl]; subst. cbn [fst snd] in Hi, Hc.
  cbn [app dirname_loop]. replace ((i <? 1)%Z) with false by lia. rewrite Hc.
  rewrite IH by exact Hl. destruct l1; reflexivity.
Qed.

Lemma noslash_chars : forall x c, has_slash x = false -> In c (list_ascii_of_string x) -> Ascii.eqb c slash = false.
Proof.
  intros x c H Hc. unfold has_slash in H. destruct (Ascii.eqb c slash) eqn:E; [|reflexivity].
  apply Ascii.eqb_eq in E. subst c. exfalso.
  assert (existsb (Ascii.eqb slash) (list_ascii_of_string x) = true)
    by (apply existsb_exists; exists slash; split; [exact Hc|apply Ascii.eqb_refl]).
  congruence.
Qed.

Lemma idx_forall : forall k x, 1 <= k -> has_slash x = false ->
  Forall (fun p => (1 <= fst p)%Z /\ Ascii.eqb (snd p) slash = false) (rev (idx k (list_ascii_of_string x))).
Proof.
  intros k x Hk Hx. apply Forall_forall. intros p Hp. apply in_rev in Hp.
  apply in_idx in Hp as [H1 H2]. split; [lia|]. exact (noslash_chars x _ Hx H2).
Qed.

Lemma rev_idx_nil : forall k x, x <> "" -> rev (idx k (list_ascii_of_string x)) <> [].
Proof.
  intros k [|c x] H; [congruence|]. unfold idx. cbn. intros E.
  apply (f_equal (@List.length _)) in E. rewrite length_app in E. cbn in E. lia.
Qed.

Lemma substring_prefix : forall a b, substring 0 (String.length a) (String.append a b) = a.
Proof. induction a as [|c a IH]; intros b; [destruct b; reflexivity|]. simpl. rewrite IH. reflexivity. Qed.

Lemma is_absolute_cons : forall c s t, is_absolute (String c s) = is_absolute (String c t).
Proof.
  intros c s t. unfold is_absolute, starts_with.
  change (String.prefix "/" (String c s)) with (if ascii_dec "/" c then String.prefix "" s else false).
  change (String.prefix "/" (String c t)) with (if ascii_dec "/" c then String.prefix "" t else false).
  destruct (ascii_dec "/" c); [destruct s, t|]; reflexivity.
Qed.

(** [dirname] of [a + "/" + x], for a last segment [x]. *)
Lemma dirname_snoc : forall a x, has_slash x = false -> x <> "" -> 1 <= String.length a ->
  dirname (String.append a (String "/"%char x)) =
  if is_absolute a && Nat.eqb (String.length a) 1 then "//" else a.
Proof.
  intros a x Hx Hne Ha. unfold dirname.
  destruct (String.eqb _ "") eqn:E0.
  { apply String.eqb_eq in E0. destruct a; simpl in Ha; [lia|discriminate]. }
  assert (Hr : is_absolute (String.append a (String "/"%char x)) = is_absolute a).
  { destruct a as [|c a]; [simpl in Ha; lia|]. apply is_absolute_cons. }
  rewrite Hr.
  change (String "/"%char x) with (String.append "/" x). rewrite string_app_assoc.
  rewrite rev_indexed_app, dirname_loop_app.
  2:{ apply idx_forall; [rewrite string_length_app; simpl; lia|exact Hx]. }
  destruct (rev (idx _ (list_ascii_of_string x))) eqn:Er;
    [exfalso; exact (rev_idx_nil _ x Hne Er)|].
  rewrite rev_indexed_app. cbn [list_ascii_of_string idx List.length seq map combine rev app].
  cbn [dirname_loop]. rewrite ?Z.add_0_r, ?Nat.add_0_r.
  replace ((Z.of_nat (String.length a) <? 1)%Z) with false by lia.
  rewrite Ascii.eqb_refl.
  replace ((Z.of_nat (String.length a) =? -1)%Z) with false by lia.
  replace ((Z.of_nat (String.length a) =? 1)%Z) with (Nat.eqb (String.length a) 1)
    by (destruct (Nat.eqb_spec (String.length a) 1); symmetry; [apply Z.eqb_eq|apply Z.eqb_neq]; lia).
  destruct (is_absolute a && Nat.eqb (String.length a) 1); [reflexivity|].
  unfold js_slice. rewrite <- string_app_assoc.
  unfold js_index. cbn [Z.ltb Z.compare]. rewrite Nat2Z.id.
  replace ((Z.of_nat (String.length a) <? 0)%Z) with false by lia.
  rewrite string_length_app. cbn [String.length].
  replace (Nat.min (String.length a) _) with (String.length a) by lia.
  replace (Nat.min 0 _) with 0 by lia.
  replace (Nat.ltb 0 (String.length a)) with true by (symmetry; apply Nat.ltb_lt; lia).
  rewrite Nat.sub_0_r. apply substring_prefix.
Qed.

Lemma dirname_loop_noslash : forall rl ms, Forall (fun p => Ascii.eqb (snd p) slash = false) rl ->
  dirname_loop rl ms = (-1)%Z.
Proof.
  induction rl as [|[i c] rl IH]; intros ms H; [reflexivity|].
  inversion H as [|? ? Hc Hl]; subst. cbn [snd] in Hc. cbn [dirname_loop].
  destruct ((i <? 1)%Z); [reflexivity|]. rewrite Hc. apply IH, Hl.
Qed.

Lemma dirname_noslash : forall x, has_slash x = false -> x <> "" -> dirname x = ".".
Proof.
  intros x Hx Hne. unfold dirname.
  destruct (String.eqb x "") eqn:E; [apply String.eqb_eq in E; contradiction|].
  rewrite dirname_loop_noslash.
  - destruct x as [|c x]; [contradiction|].
    assert (Ha : is_absolute (String c x) = false).
    { unfold has_slash in Hx. cbn [list_ascii_of_string existsb] in Hx.
      apply orb_false_iff in Hx as [Hc _]. unfold is_absolute, starts_with.
      change (String.prefix "/" (String c x)) with (if ascii_dec "/" c then String.prefix "" x else false).
      destruct (ascii_dec "/" c) as [<-|]; [rewrite Ascii.eqb_refl in Hc; discriminate|reflexivity]. }
    rewrite Ha. reflexivity.
  - apply Forall_forall. intros [i c] Hin. unfold rev_indexed in Hin. apply in_rev in Hin.
    apply in_combine_r in Hin. exact (noslash_chars x c Hx Hin).
Qed.

Lemma good_seg_nonempty : forall x, good_seg x = true -> x <> "".
Proof. intros x H ->. discriminate. Qed.

Lemma concat_good_length : forall l, Forall (fun s => good_seg s = true) l -> l <> [] ->
  1 <= String.length (String.concat "/" l).
Proof.
  intros [|x l] H Hne; [congruence|]. inversion H as [|? ? Hx _]; subst.
  destruct x as [|c x]; [discriminate|]. destruct l; simpl; lia.
Qed.

Lemma dirname_abs_snoc : forall l x, Forall (fun s => good_seg s = true) l -> good_seg x = true ->
  dirname (abs_path (l ++ [x])) = abs_path l.
Proof.
  intros l x Hl Hx. destruct l as [|y l].
  - unfold abs_path. cbn [app String.concat]. unfold dirname.
    replace (String.concat "/" [x]) with x by (destruct x; reflexivity).
    cbn [String.append]. cbn [String.eqb].
    change (String "/"%char x) with (String.append "/" x). rewrite rev_indexed_app.
    rewrite dirname_loop_app.
    + change (String.append "/" x) with (String "/"%char x). rewrite is_absolute_slash.
      destruct (rev _); reflexivity.
    + apply idx_forall; [reflexivity|apply good_seg_noslash, Hx].
  - rewrite abs_path_cons, concat_snoc. cbn [app].
    change (String "/"%char (String.append (String.concat "/" (y :: l)) (String "/"%char x)))
      with (String.append (abs_path (y :: l)) (String "/"%char x)).
    rewrite dirname_snoc; [|apply good_seg_noslash, Hx|apply good_seg_nonempty, Hx|].
    + rewrite abs_path_cons, is_absolute_slash. cbn [andb String.length].
      pose proof (concat_good_length (y :: l) Hl ltac:(discriminate)).
      destruct (Nat.eqb_spec (S (String.length (String.concat "/" (y :: l)))) 1); [lia|reflexivity].
    + rewrite abs_path_cons. cbn. lia.
Qed.

Lemma noslash_not_absolute : forall y, has_slash y = false -> y <> "" -> forall t,
  is_absolute (String.append y t) = false.
Proof.
  intros [|c y] Hy Hne t; [congruence|]. cbn [String.append].
  unfold has_slash in Hy. cbn [list_ascii_of_string existsb] in Hy.
  apply orb_false_iff in Hy as [Hc _]. unfold is_absolute, starts_with.
  change (String.prefix "/" (String c (String.append y t)))
    with (if ascii_dec "/" c then String.prefix "" (String.append y t) else false).
  destruct (ascii_dec "/" c) as [<-|]; [rewrite Ascii.eqb_refl in Hc; discriminate|reflexivity].
Qed.

Lemma string_app_nil_r : forall s, String.append s "" = s.
Proof. induction s as [|c s IH]; simpl; [reflexivity|]. rewrite IH. reflexivity. Qed.

Lemma concat_cons_cons : forall y z l,
  String.concat "/" (y :: z :: l) = String.append y (String "/"%char (String.concat "/" (z :: l))).
Proof. reflexivity. Qed.

Lemma dirname_rel_snoc : forall rel x, Forall (fun s => good_seg s = true) rel -> good_seg x = true ->
  dirname (String.concat "/" (rel ++ [x])) = match rel with [] => "." | _ => String.concat "/" rel end.
Proof.
  intros rel x Hr Hx. rewrite concat_snoc. destruct rel as [|y l].
  - apply dirname_noslash; [apply good_seg_noslash, Hx|apply good_seg_nonempty, Hx].
  - inversion Hr as [|? ? Hy Hl]; subst.
    rewrite dirname_snoc; [|apply good_seg_noslash, Hx|apply good_seg_nonempty, Hx|
                           apply concat_good_length; [exact Hr|discriminate]].
    assert (Ha : is_absolute (String.concat "/" (y :: l)) = false).
    { destruct l as [|z l].
      - cbn [String.concat]. rewrite <- (string_app_nil_r y).
        apply noslash_not_absolute; [apply good_seg_noslash, Hy|apply good_seg_nonempty, Hy].
      - rewrite concat_cons_cons.
        apply noslash_not_absolute; [apply good_seg_noslash, Hy|apply good_seg_nonempty, Hy]. }
    rewrite Ha. reflexivity.
Qed.

Lemma replace_seps_app : forall a b, replace_seps (String.append a b) = String.append (replace_seps a) (replace_seps b).
Proof. induction a as [|c a IH]; intros b; simpl; [reflexivity|]. rewrite IH. reflexivity. Qed.

Lemma flat_prefix_concat : forall rel, rel <> [] ->
  flat_prefix rel = String.append (replace_seps (String.concat "/" rel)) "_".
Proof.
  unfold flat_prefix. induction rel as [|y l IH]; intros Hne; [congruence|].
  destruct l as [|z l].
  - cbn. rewrite ?string_app_nil_r. reflexivity.
  - rewrite concat_cons_cons, replace_seps_app.
    change (String.concat "" (map (fun s => String.append (replace_seps s) "_") (y :: z :: l)))
      with (String.append (String.append (replace_seps y) "_")
              (String.concat "" (map (fun s => String.append (replace_seps s) "_") (z :: l)))).
    rewrite IH by discriminate. cbn [replace_seps Ascii.eqb slash orb].
    rewrite <- !string_app_assoc. reflexivity.
Qed.

Lemma concat_not_dot : forall rel, Forall (fun s => good_seg s = true) rel -> rel <> [] ->
  String.eqb (String.concat "/" rel) "." = false /\ String.eqb (String.concat "/" rel) "" = false.
Proof.
  intros [|y l] H Hne; [congruence|]. inversion H as [|? ? Hy Hl]; subst.
  destruct l as [|z l].
  - cbn [String.concat]. unfold good_seg in Hy.
    destruct (String.eqb y ""), (String.eqb y "."); try discriminate. split; reflexivity.
  - rewrite concat_cons_cons.
    destruct y as [|c y]; [discriminate|]. cbn [String.append].
    split; [|reflexivity].
    change (String.eqb (String c (String.append y (String "/"%char (String.concat "/" (z :: l))))) ".")
      with (if Ascii.eqb c "."%char then String.eqb (String.append y (String "/"%char (String.concat "/" (z :: l)))) "" else false).
    destruct (Ascii.eqb c "."%char); [destruct y; reflexivity|reflexivity].
Qed.

(** For every file the scan reports, [OutputManager.getOutputPath] is the
    output directory joined with the flattened name (each directory segment
    followed by [_], then the base name, then the output format unless it
    is missing, empty or [directory]), and [FileRouter.getOutputPath] with
    a decision gives the same path as [OutputManager.getOutputPath] with
    the decision's output format. *)
Theorem output_paths_agree : forall sc cwd courseId options segs root f,
  Forall (fun s => good_seg s = true) segs -> good_names root = true ->
  In f (scanDirectory sc cwd (abs_path segs) courseId (abs_path segs) options root) ->
  exists rel, sf_relativePath f = String.concat "/" (rel ++ [sf_name f]) /\
    (forall outputDir outputFormat,
       getOutputPath cwd f outputDir outputFormat =
       join [outputDir; String.append (flat_prefix rel)
               (String.append (basename (sf_name f) (sf_extension f))
                  (match outputFormat with
                   | Some fmt => if js_truthy_string fmt && negb (String.eqb fmt "directory")
                                 then fmt else sf_extension f
                   | None => sf_extension f
                   end))]) /\
    (forall decision validatedFilesPath,
       FileRouter.getOutputPath cwd f decision validatedFilesPath =
       getOutputPath cwd f validatedFilesPath (outputFormat decision)).
Proof.
  intros sc cwd courseId options segs root f Hs Hn Hin.
  destruct (scanDirectory_paths sc cwd courseId options segs root f Hs Hn Hin)
    as (rel & Ep & Er & Hseg & _ & Ec).
  assert (Hg : Forall (fun s => good_seg s = true) (rel ++ [sf_name f])).
  { eapply Forall_impl; [|exact Hseg]. intros s [H _]. exact H. }
  apply Forall_app in Hg as [Hrel Hname]. inversion Hname as [|? ? Hx _]; subst.
  assert (Hrelpath : relative cwd (sf_coursePath f) (sf_path f) = String.concat "/" (rel ++ [sf_name f])).
  { rewrite Ep, Ec. apply relative_abs_path; [exact Hs| |destruct rel; discriminate].
    apply Forall_app. split; [exact Hrel|constructor; [exact Hx|constructor]]. }
  assert (Hom : forall outputDir outputFormat,
       getOutputPath cwd f outputDir outputFormat =
       join [outputDir; String.append (flat_prefix rel)
               (String.append (basename (sf_name f) (sf_extension f))
                  (match outputFormat with
                   | Some fmt => if js_truthy_string fmt && negb (String.eqb fmt "directory")
                                 then fmt else sf_extension f
                   | None => sf_extension f
                   end))]).
  { intros outputDir outputFormat. unfold getOutputPath. rewrite Hrelpath.
    rewrite dirname_rel_snoc by assumption.
    destruct rel as [|y l]; [reflexivity|].
    destruct (concat_not_dot (y :: l) Hrel ltac:(discriminate)) as [D1 D2].
    unfold js_truthy_string. rewrite D1, D2. cbn [negb andb].
    rewrite flat_prefix_concat by discriminate. reflexivity. }
  exists rel. split; [exact Er|]. split; [exact Hom|].
  intros decision vfp. rewrite Hom. unfold FileRouter.getOutputPath.
  rewrite Ep, Ec. rewrite app_assoc, dirname_abs_snoc;
    [|apply Forall_app; split; assumption|exact Hx].
  destruct rel as [|y l].
  - rewrite app_nil_r. unfold relative. rewrite String.eqb_refl. reflexivity.
  - rewrite relative_abs_path; [|exact Hs|exact Hrel|discriminate].
    destruct (concat_not_dot (y :: l) Hrel ltac:(discriminate)) as [_ D2].
    unfold js_truthy_string. rewrite D2. cbn [negb].
    rewrite flat_prefix_concat by discriminate. reflexivity.
Qed.

Lemma enqueueMany_conserves_items_witness :
  closed (new_AsyncQueue 2) = false /\
  exists q' ev, enqueueMany [sample_item "a" 0; sample_item "b" 1] (new_AsyncQueue 2) = Some (q', ev) /\
    Permutation (items (new_AsyncQueue 2) ++ [sample_item "a" 0; sample_item "b" 1]) (wake_items ev ++ items q') /\
    (forall it, In it (wake_items ev) -> In (id it) (processing q')) /\
    (forall x, In x (processing (new_AsyncQueue 2)) -> In x (processing q')) /\
    map fst ev = firstn (List.length ev) (waiters (new_AsyncQueue 2)) /\
    waiters q' = skipn (List.length ev) (waiters (new_AsyncQueue 2)) /\
    completed q' = completed (new_AsyncQueue 2) /\ failed q' = failed (new_AsyncQueue 2) /\
    skipped q' = skipped (new_AsyncQueue 2).
Proof.
  assert (H : closed (new_AsyncQueue 2) = false) by reflexivity.
  split; [exact H|]. exact (enqueueMany_conserves_items _ _ H).
Defined.

Lemma routed_skills_registered_witness :
  skillName (getRoutingDecision ".PDF") = Some "pdf" /\
  exists info,
    SkillRegistry.get SkillRegistry.skillRegistry "pdf" = Some info /\ sk_isGenerator info = false /\
    (~ In (to_lower ".PDF") (sqlite_exts ++ access_exts) ->
       SkillRegistry.getByExtension SkillRegistry.skillRegistry ".PDF" = Some info /\
       outputFormat (getRoutingDecision ".PDF") = Some (sk_outputFormat info)) /\
    (In (to_lower ".PDF") access_exts ->
       SkillRegistry.getByExtension SkillRegistry.skillRegistry ".PDF" = Some info /\
       outputFormat (getRoutingDecision ".PDF") = Some ".csv" /\ sk_outputFormat info = ".json") /\
    (In (to_lower ".PDF") sqlite_exts ->
       "pdf" = "db-identify" /\
       option_map sk_name (SkillRegistry.getByExtension SkillRegistry.skillRegistry ".PDF")
       = Some "db-extractor-sqlite").
Proof.
  assert (H : skillName (getRoutingDecision ".PDF") = Some "pdf") by (vm_compute; reflexivity).
  split; [exact H|]. exact (routed_skills_registered _ _ H).
Defined.

Lemma generator_skills_registered_witness :
  getGeneratorSkill " Quiz " = GOwn "quiz-generator" /\
  exists info, SkillRegistry.get SkillRegistry.skillRegistry "quiz-generator" = Some info /\
    sk_isGenerator info = true /\ In info (SkillRegistry.getGenerators SkillRegistry.skillRegistry).
Proof.
  assert (H : getGeneratorSkill " Quiz " = GOwn "quiz-generator") by (vm_compute; reflexivity).
  split; [exact H|]. exact (generator_skills_registered _ _ H).
Defined.

(** For a course root given by a normalized absolute path and a tree whose
    entry names are proper path segments, every file the scan reports has
    path [root/rel/name] with [relativePath] [rel/name], each segment of
    which is neither [__cc]-prefixed nor (unless [includeHidden]) hidden,
    and carries the given course id and course path. *)
Theorem scanned_paths : forall sc cwd courseId options segs root f,
  Forall (fun s => good_seg s = true) segs -> good_names root = true ->
  In f (scanDirectory sc cwd (abs_path segs) courseId (abs_path segs) options root) ->
  exists rel, sf_path f = abs_path (segs ++ rel ++ [sf_name f]) /\
    sf_relativePath f = String.concat "/" (rel ++ [sf_name f]) /\
    Forall (scanned_seg options) (rel ++ [sf_name f]) /\
    sf_courseId f = courseId /\ sf_coursePath f = abs_path segs.
Proof.
  intros sc cwd courseId options segs root f Hs Hn Hin.
  exact (scanDirectory_paths sc cwd courseId options segs root f Hs Hn Hin).
Qed.

Lemma scanned_paths_witness :
  let f := mkScannedFile "/courses/c1/CODE/project1/main.cpp" "CODE/project1/main.cpp"
             "main.cpp" ".cpp" 100%Z Code "c1" "/courses/c1" in
  Forall (fun s => good_seg s = true) ["courses"; "c1"] /\ good_names (c5_tree 100) = true /\
  In f (scanDirectory (mkScanner []) "/home/user" (abs_path ["courses"; "c1"]) "c1"
          (abs_path ["courses"; "c1"]) default_ScanOptions (c5_tree 100)) /\
  exists rel, sf_path f = abs_path (["courses"; "c1"] ++ rel ++ [sf_name f]) /\
    sf_relativePath f = String.concat "/" (rel ++ [sf_name f]) /\
    Forall (scanned_seg default_ScanOptions) (rel ++ [sf_name f]) /\
    sf_courseId f = "c1" /\ sf_coursePath f = abs_path ["courses"; "c1"].
Proof.
  intros f.
  assert (H1 : Forall (fun s => good_seg s = true) ["courses"; "c1"])
    by (repeat constructor).
  assert (H2 : good_names (c5_tree 100) = true) by (vm_compute; reflexivity).
  assert (H3 : In f (scanDirectory (mkScanner []) "/home/user" (abs_path ["courses"; "c1"]) "c1"
          (abs_path ["courses"; "c1"]) default_ScanOptions (c5_tree 100)))
    by (vm_compute; left; reflexivity).
  split; [exact H1|]. split; [exact H2|]. split; [exact H3|].
  exact (scanned_paths _ _ _ _ _ _ _ H1 H2 H3).
Defined.

Lemma output_paths_agree_witness :
  let f := mkScannedFile "/courses/c1/CODE/project1/main.cpp" "CODE/project1/main.cpp"
             "main.cpp" ".cpp" 100%Z Code "c1" "/courses/c1" in
  Forall (fun s => good_seg s = true) ["courses"; "c1"] /\ good_names (c5_tree 100) = true /\
  In f (scanDirectory (mkScanner []) "/home/user" (abs_path ["courses"; "c1"]) "c1"
          (abs_path ["courses"; "c1"]) default_ScanOptions (c5_tree 100)) /\
  exists rel, sf_relativePath f = String.concat "/" (rel ++ [sf_name f]) /\
    (forall outputDir outputFormat,
       getOutputPath "/home/user" f outputDir outputFormat =
       join [outputDir; String.append (flat_prefix rel)
               (String.append (basename (sf_name f) (sf_extension f))
                  (match outputFormat with
                   | Some fmt => if js_truthy_string fmt && negb (String.eqb fmt "directory")
                                 then fmt else sf_extension f
                   | None => sf_extension f
                   end))]) /\
    (forall decision validatedFilesPath,
       FileRouter.getOutputPath "/home/user" f decision validatedFilesPath =
       getOutputPath "/home/user" f validatedFilesPath (outputFormat decision)).
Proof.
  intros f.
  assert (H1 : Forall (fun s => good_seg s = true) ["courses"; "c1"])
    by (repeat constructor).
  assert (H2 : good_names (c5_tree 100) = true) by (vm_compute; reflexivity).
  assert (H3 : In f (scanDirectory (mkScanner []) "/home/user" (abs_path ["courses"; "c1"]) "c1"
          (abs_path ["courses"; "c1"]) default_ScanOptions (c5_tree 100)))
    by (vm_compute; left; reflexivity).
  split; [exact H1|]. split; [exact H2|]. split; [exact H3|].
  exact (output_paths_agree _ _ _ _ _ _ _ H1 H2 H3).
Defined.

Lemma detectCourses_spec_witness :
  let rootFiles := [("c1", FsDir true [("CODE", FsDir true []); ("a.pdf", FsFile 3%Z)]);
                    ("notes.srt", FsFile 1%Z); (".git", FsDir true [])] in
  Forall (fun s => good_seg s = true) ["input"] /\
  Forall (fun e => good_seg (fst e) = true) rootFiles /\
  exists res,
    detectCourses (fun _ => true) "/home/user" (abs_path ["input"]) "course" (FsDir true rootFiles) = Some res /\
    courses res = map (expected_course "/home/user" ["input"] "course") (filter course_entry rootFiles) /\
    hasRootSrtFiles res = existsb has_srt_name (map fst rootFiles) /\
    warnings res = (if hasRootSrtFiles res then [srt_warning] else []) ++
                   (if Nat.eqb (List.length (courses res)) 0 && negb (hasRootSrtFiles res)
                    then ["No course directories found in input path"] else []).
Proof.
  intros rootFiles.
  assert (H1 : Forall (fun s => good_seg s = true) ["input"]) by (repeat constructor).
  assert (H2 : Forall (fun e => good_seg (fst e) = true) rootFiles) by (repeat constructor).
  split; [exact H1|]. split; [exact H2|].
  eexists. assert (H3 : detectCourses (fun _ => true) "/home/user" (abs_path ["input"]) "course"
                          (FsDir true rootFiles) = Some _) by (vm_compute; reflexivity).
  split; [exact H3|]. exact (detectCourses_spec _ _ _ _ _ _ H1 H2 H3).
Defined.

(** ** Draining the pool *)
Lemma all_exited_nth : forall ws,
  all_exited ws = true <-> forall w s, nth_error ws w = Some s -> s = WExited.
Proof.
  induction ws as [|s0 ws IH]; split.
  - intros _ [|w] s H; discriminate.
  - reflexivity.
  - unfold all_exited in *. simpl. intros H. apply andb_prop in H as [H0 H1].
    intros [|w] s Hs; simpl in Hs.
    + injection Hs as <-. destruct s0; try discriminate; reflexivity.
    + apply (proj1 IH H1 w s Hs).
  - intros H. unfold all_exited in *. simpl. apply andb_true_intro. split.
    + rewrite (H 0 s0 eq_refl). reflexivity.
    + apply (proj2 IH). intros w s Hs. exact (H (S w) s Hs).
Qed.

Lemma not_all_exited : forall ws w s, nth_error ws w = Some s -> s <> WExited ->
  all_exited ws = false.
Proof.
  intros ws w s Hs Hne. destruct (all_exited ws) eqn:E; [|reflexivity].
  exfalso. apply Hne. exact (proj1 (all_exited_nth ws) E w s Hs).
Qed.

Lemma active_set_nth : forall n s old ws, nth_error ws n = Some old ->
  active (set_nth n s ws) + (if is_exited old then 0 else 1)
  = active ws + (if is_exited s then 0 else 1).
Proof.
  unfold active. intros n s old ws. revert n.
  induction ws as [|y ws IH]; intros [|n] H; simpl in *; try discriminate.
  - injection H as ->. destruct (is_exited s), (is_exited old); simpl; lia.
  - specialize (IH n H). destruct (is_exited y); simpl; lia.
Qed.

Lemma active_nonexited : forall ws w s, nth_error ws w = Some s -> is_exited s = false ->
  1 <= active ws.
Proof.
  unfold active. induction ws as [|y ws IH]; intros [|w] s H He; simpl in *; try discriminate.
  - injection H as ->. rewrite He. simpl. lia.
  - destruct (is_exited y); simpl; [|lia]. exact (IH w s H He).
Qed.

Lemma busy_ids_loophead : forall ws w, nth_error ws w = Some WLoopHead ->
  S (List.length (busy_ids ws)) <= active ws.
Proof.
  unfold active. induction ws as [|y ws IH]; intros [|w] H; simpl in *; try discriminate.
  - injection H as ->. simpl.
    assert (forall l, List.length (busy_ids l) <= List.length (filter (fun s => negb (is_exited s)) l)).
    { induction l as [|[| |it|] l IHl]; simpl; lia. }
    specialize (H ws). lia.
  - specialize (IH w H). destruct y; simpl; lia.
Qed.

Lemma busy_ids_all_exited : forall ws, all_exited ws = true -> busy_ids ws = [].
Proof.
  intros ws H. apply length_zero_iff_nil. rewrite busy_ids_length, all_exited_not_busy by exact H.
  reflexivity.
Qed.

Lemma busy_ids_set_nth_keep : forall ws n s old x, nth_error ws n = Some old ->
  In x (busy_ids ws) -> busy_with x old = false -> In x (busy_ids (set_nth n s ws)).
Proof.
  induction ws as [|y ws IH]; intros [|n] s old x H Hin Hb; simpl in *; try discriminate.
  - injection H as ->. destruct old as [| |it|]; simpl in Hin;
      try (apply in_or_app; right; exact Hin).
    destruct Hin as [<-|Hin]; [simpl in Hb; rewrite String.eqb_refl in Hb; discriminate|].
    apply in_or_app. right. exact Hin.
  - apply in_app_or in Hin. apply in_or_app. destruct Hin as [Hin|Hin]; [left; exact Hin|].
    right. exact (IH n s old x H Hin Hb).
Qed.

Lemma busy_ids_set_nth_busy : forall ws n it, n < List.length ws ->
  In (id it) (busy_ids (set_nth n (WBusy it) ws)).
Proof.
  induction ws as [|y ws IH]; intros [|n] it H; simpl in *; try lia.
  - left. reflexivity.
  - apply in_or_app. right. apply IH. lia.
Qed.

Lemma all_exited_app_repeat : forall ws n,
  all_exited (ws ++ repeat WLoopHead n) = all_exited ws && Nat.eqb n 0.
Proof.
  intros ws n. unfold all_exited. rewrite forallb_app. f_equal.
  destruct n; reflexivity.
Qed.

Lemma active_app_repeat : forall ws n, active (ws ++ repeat WLoopHead n) = active ws + n.
Proof.
  intros ws n. unfold active. rewrite filter_app, length_app. f_equal.
  induction n; simpl; lia.
Qed.

Lemma active_all_exited : forall ws, all_exited ws = true -> active ws = 0.
Proof.
  induction ws as [|s ws IH]; intros H; [reflexivity|].
  unfold all_exited, active in *. simpl in *. destruct s; try discriminate. apply IH. exact H.
Qed.

Lemma busy_ids_app_repeat : forall ws n, busy_ids (ws ++ repeat WLoopHead n) = busy_ids ws.
Proof.
  intros ws n. unfold busy_ids. rewrite flat_map_app.
  assert (H : flat_map (fun s => match s with WBusy it => [id it] | _ => [] end)
                (repeat WLoopHead n) = []) by (induction n; simpl; auto).
  rewrite H, app_nil_r. reflexivity.
Qed.

(* ---- resuming suspended workers ---- *)

Lemma resume_facts : forall ev ws acq,
  NoDup (map fst ev) ->
  (forall w r, In (w, r) ev -> nth_error ws w = Some WWaiting) ->
  active (fst (resume ev ws acq)) <= active ws /\
  incl (busy_ids ws ++ map id (wake_items ev)) (busy_ids (fst (resume ev ws acq))) /\
  (forall w r, In (w, r) ev -> nth_error (fst (resume ev ws acq)) w = Some (wake_state r)).
Proof.
  induction ev as [|[w r] ev IH]; intros ws acq Hnd Hw.
  - simpl. split; [lia|]. split; [rewrite app_nil_r; intros x Hx; exact Hx|intros w r []].
  - simpl in Hnd. inversion Hnd as [|? ? Hnotin Hnd']; subst.
    assert (Hw0 : nth_error ws w = Some WWaiting) by (eapply Hw; left; reflexivity).
    assert (Hlt : w < List.length ws).
    { apply nth_error_Some. rewrite Hw0. discriminate. }
    set (ws1 := set_nth w (wake_state r) ws).
    set (acq1 := match r with Some it => acq ++ [id it] | None => acq end).
    assert (Hres : resume ((w, r) :: ev) ws acq = resume ev ws1 acq1).
    { destruct r; reflexivity. }
    rewrite Hres.
    assert (Hw1 : forall w' r', In (w', r') ev -> nth_error ws1 w' = Some WWaiting).
    { intros w' r' Hin. unfold ws1. rewrite nth_error_set_nth_ne.
      - eapply Hw. right. exact Hin.
      - intros Heq. subst w'. apply Hnotin. apply in_map_iff. exists (w, r'). split; [reflexivity|exact Hin]. }
    destruct (IH ws1 acq1 Hnd' Hw1) as [Ha [Hb Hc]].
    split; [|split].
    + pose proof (active_set_nth w (wake_state r) WWaiting ws Hw0) as E.
      fold ws1 in E. simpl in E. destruct (is_exited (wake_state r)); lia.
    + intros x Hx. apply Hb. apply in_app_or in Hx. apply in_or_app.
      destruct Hx as [Hx|Hx].
      * left. unfold ws1. apply (busy_ids_set_nth_keep ws w _ WWaiting); auto.
      * unfold wake_items in Hx. simpl in Hx. destruct r as [it|].
        -- destruct Hx as [<-|Hx]; [left|right; exact Hx].
           unfold ws1. simpl. exact (busy_ids_set_nth_busy ws w (set_status StProcessing it) Hlt).
        -- right. exact Hx.
    + intros w' r' [Heq|Hin].
      * injection Heq as <- <-.
        destruct (resume_spec ev ws1 acq1 Hnd' Hw1) as [_ [Hsame _]].
        rewrite Hsame by exact Hnotin. unfold ws1. apply nth_error_set_nth_eq. exact Hlt.
      * apply Hc. exact Hin.
Qed.

Lemma resume_all_exited : forall (ev : list wake) ws, all_exited ws = true ->
  (forall w r, In (w, r) ev -> nth_error ws w = Some WWaiting) -> ev = [].
Proof.
  intros [|[w r] ev] ws Ha Hw; [reflexivity|].
  specialize (Hw w r (or_introl eq_refl)).
  pose proof (proj1 (all_exited_nth ws) Ha w WWaiting Hw) as E. discriminate E.
Qed.

Lemma wakes_of_inv : forall p q ev, pool_inv p -> wakes_prefix (queue p) q ev ->
  NoDup (map fst ev) /\ (forall w r, In (w, r) ev -> nth_error (workers p) w = Some WWaiting).
Proof.
  intros p q ev [Hnd [Hw _]] [_ Hfst].
  set (n := List.length ev) in *.
  assert (HW : NoDup (firstn n (waiters (queue p)) ++ skipn n (waiters (queue p))))
    by (rewrite firstn_skipn; exact Hnd).
  split.
  - rewrite Hfst. exact (NoDup_app_remove_r _ _ HW).
  - intros w r Hin. apply Hw. apply (in_firstn_in n). rewrite <- Hfst.
    apply in_map_iff. exists (w, r). split; [reflexivity|exact Hin].
Qed.

Lemma with_queue_workers : forall p q ev,
  workers (with_queue p q ev) = fst (resume ev (workers p) (acquired p)).
Proof. intros p q ev. unfold with_queue. destruct (resume _ _ _). reflexivity. Qed.

(* ---- the processing set ---- *)

Lemma set_add_nodup : forall x s, NoDup s -> NoDup (set_add x s).
Proof.
  intros x s H. unfold set_add. destruct (set_has x s) eqn:E; [exact H|].
  apply (Permutation_NoDup (Permutation_app_comm [x] s)). simpl. constructor; [|exact H].
  intros Hin. unfold set_has in E.
  assert (E' : existsb (String.eqb x) s = true).
  { apply existsb_exists. exists x. split; [exact Hin|apply String.eqb_refl]. }
  congruence.
Qed.

Lemma set_add_cases : forall x y s, In y (set_add x s) -> In y s \/ y = x.
Proof.
  intros x y s H. unfold set_add in H. destruct (set_has x s); [left; exact H|].
  apply in_app_or in H. destruct H as [H|[<-|[]]]; [left; exact H|right; reflexivity].
Qed.

Lemma set_delete_nodup : forall x s, NoDup s -> NoDup (set_delete x s).
Proof. intros x s H. unfold set_delete. apply NoDup_filter. exact H. Qed.

Lemma set_delete_in : forall x y s, In y (set_delete x s) -> In y s /\ y <> x.
Proof.
  intros x y s H. unfold set_delete in H. apply filter_In in H. destruct H as [H1 H2].
  split; [exact H1|]. intros ->. rewrite String.eqb_refl in H2. discriminate.
Qed.

Lemma notify_loop_nodup : forall ws its proc max ws' its' proc' ev,
  notify_loop ws its proc max = (ws', its', proc', ev) -> NoDup proc ->
  NoDup proc' /\ incl proc' (proc ++ map id (wake_items ev)).
Proof.
  induction ws as [|w ws IH]; intros its proc max ws' its' proc' ev Hn Hnd.
  - simpl in Hn. inversion Hn; subst. split; [exact Hnd|rewrite app_nil_r; intros x Hx; exact Hx].
  - destruct its as [|it its]; simpl in Hn.
    + inversion Hn; subst. split; [exact Hnd|rewrite app_nil_r; intros x Hx; exact Hx].
    + destruct (Nat.ltb (List.length proc) max).
      * destruct (notify_loop ws its (set_add (id it) proc) max)
          as [[[ws1 its1] proc1] ev1] eqn:Hrec.
        inversion Hn; subst.
        destruct (IH _ _ _ _ _ _ _ Hrec (set_add_nodup _ _ Hnd)) as [H1 H2].
        split; [exact H1|]. intros x Hx. apply H2 in Hx. apply in_app_or in Hx.
        unfold wake_items. simpl. fold (wake_items ev1).
        destruct Hx as [Hx|Hx].
        -- apply set_add_cases in Hx. destruct Hx as [Hx| ->].
           ++ apply in_or_app. left. exact Hx.
           ++ apply in_or_app. right. left. reflexivity.
        -- apply in_or_app. right. right. exact Hx.
      * inversion Hn; subst. split; [exact Hnd|rewrite app_nil_r; intros x Hx; exact Hx].
Qed.

Lemma notifyWaiters_nodup : forall q, NoDup (processing q) ->
  NoDup (processing (fst (notifyWaiters q))) /\
  incl (processing (fst (notifyWaiters q)))
       (processing q ++ map id (wake_items (snd (notifyWaiters q)))).
Proof.
  intros q H. unfold notifyWaiters.
  destruct (notify_loop (waiters q) (items q) (processing q) (maxConcurrent q))
    as [[[ws its] proc] ev] eqn:Hn.
  exact (notify_loop_nodup _ _ _ _ _ _ _ _ Hn H).
Qed.

Lemma notifyWaiters_nodup_eq : forall q q' ev, notifyWaiters q = (q', ev) ->
  NoDup (processing q) ->
  NoDup (processing q') /\ incl (processing q') (processing q ++ map id (wake_items ev)).
Proof.
  intros q q' ev E H. pose proof (notifyWaiters_nodup q H) as R. rewrite E in R. exact R.
Qed.

Lemma wake_items_app : forall ev1 ev2, wake_items (ev1 ++ ev2) = wake_items ev1 ++ wake_items ev2.
Proof. intros. unfold wake_items. apply flat_map_app. Qed.

Lemma notify_after_delete : forall x q q1 q2 ev2,
  processing q1 = set_delete x (processing q) -> notifyWaiters q1 = (q2, ev2) ->
  NoDup (processing q) ->
  NoDup (processing q2) /\ incl (processing q2) (set_delete x (processing q) ++ map id (wake_items ev2)).
Proof.
  intros x q q1 q2 ev2 Hp Hn Hnd. rewrite <- Hp. apply (notifyWaiters_nodup_eq q1); [exact Hn|].
  rewrite Hp. apply set_delete_nodup. exact Hnd.
Qed.

Lemma requeue_processing : forall it q q' ev, requeue it q = (q', ev) -> NoDup (processing q) ->
  NoDup (processing q') /\
  incl (processing q') (set_delete (id it) (processing q) ++ map id (wake_items ev)).
Proof.
  intros it q q' ev Hu Hnd.
  unfold requeue, requeue_body in Hu. destruct (_ <? _)%Z.
  - destruct (notifyWaiters _) as [q2 ev2] eqn:Hn. injection Hu as <- <-.
    simpl. eapply notify_after_delete; [|exact Hn|exact Hnd]. reflexivity.
  - unfold markFailed in Hu.
    destruct (notifyWaiters (with_failed _ _)) as [q1 ev1] eqn:Hn1.
    destruct (notifyWaiters q1) as [q2 ev2] eqn:Hn2. injection Hu as <- <-.
    pose proof (fun H => notify_after_delete (id it) (with_processing q (set_delete (id it) (processing q)))
                  _ q1 ev1 H Hn1 (set_delete_nodup _ _ Hnd)) as Hq1.
    specialize (Hq1 eq_refl).
    simpl in Hq1.
    destruct Hq1 as [H1 H2].
    destruct (notifyWaiters_nodup_eq q1 q2 ev2 Hn2 H1) as [H3 H4].
    split; [exact H3|]. intros x Hx. apply H4 in Hx. rewrite wake_items_app, map_app.
    apply in_app_or in Hx. destruct Hx as [Hx|Hx].
    + apply H2 in Hx. apply in_app_or in Hx. destruct Hx as [Hx|Hx].
      * apply set_delete_in in Hx. destruct Hx as [Hx _]. apply in_or_app. left. exact Hx.
      * apply in_or_app. right. apply in_or_app. left. exact Hx.
    + apply in_or_app. right. apply in_or_app. right. exact Hx.
Qed.

(** The mark operations and [requeue] of [it]: the processing set loses
    [id it] and gains the items handed to resumed callers. *)
Lemma update_queue_processing : forall it b q q' ev,
  update_queue it b q = (q', ev) -> NoDup (processing q) ->
  NoDup (processing q') /\
  incl (processing q') (set_delete (id it) (processing q) ++ map id (wake_items ev)).
Proof.
  intros it b q q' ev Hu Hnd. unfold update_queue in Hu. destruct b.
  - unfold markCompleted in Hu. eapply notify_after_delete; [|exact Hu|exact Hnd]. reflexivity.
  - destruct (_ && _).
    + exact (requeue_processing it q q' ev Hu Hnd).
    + destruct (error it) as [e|]; unfold markFailed in Hu;
        (eapply notify_after_delete; [|exact Hu|exact Hnd]); reflexivity.
Qed.

Lemma apply_op_nodup : forall op q, NoDup (processing q) -> NoDup (processing (apply_op op q)).
Proof.
  intros op q H. unfold apply_op. destruct op; cbn [run_op].
  - unfold enqueue. destruct (closed q); [exact H|]. apply notifyWaiters_nodup. exact H.
  - unfold enqueueMany. destruct (closed q); [exact H|]. apply notifyWaiters_nodup. exact H.
  - unfold dequeue. destruct (closed q && _); [exact H|].
    destruct (items q) as [|it rest]; [destruct (closed q); exact H|].
    destruct (Nat.ltb _ _); [apply set_add_nodup; exact H|destruct (closed q); exact H].
  - unfold markCompleted. apply notifyWaiters_nodup. apply set_delete_nodup. exact H.
  - unfold markFailed. apply notifyWaiters_nodup. apply set_delete_nodup. exact H.
  - unfold markSkipped. apply notifyWaiters_nodup. apply set_delete_nodup. exact H.
  - destruct (requeue it q) as [q' ev] eqn:E. exact (proj1 (requeue_processing it q q' ev E H)).
  - exact H.
Qed.

(* ---- the invariant ---- *)

Lemma dequeue_cases : forall w q q' r, dequeue w q = (q', r) ->
  (r = Returned None /\ q' = q /\ closed q = true /\
     (items q = [] \/ maxConcurrent q <= List.length (processing q))) \/
  (exists it rest, r = Returned (Some it) /\ items q = it :: rest /\
     q' = with_processing (with_items q rest) (set_add (id it) (processing q))) \/
  (r = Suspended /\ q' = with_waiters q (waiters q ++ [w])).
Proof.
  intros w q q' r H. unfold dequeue in H.
  destruct (closed q) eqn:Hc; simpl in H.
  - destruct (Nat.eqb (List.length (items q)) 0) eqn:E0.
    + injection H as <- <-. left. repeat split; auto. left.
      apply Nat.eqb_eq, length_zero_iff_nil in E0. exact E0.
    + destruct (items q) as [|it rest] eqn:Ei; [injection H as <- <-; left; repeat split; auto|].
      destruct (Nat.ltb _ _) eqn:El.
      * injection H as <- <-. right. left. exists it, rest. repeat split; auto.
      * injection H as <- <-. left. repeat split; auto. right.
        apply Nat.ltb_ge in El. exact El.
  - destruct (items q) as [|it rest] eqn:Ei; [injection H as <- <-; right; right; split; reflexivity|].
    destruct (Nat.ltb _ _) eqn:El.
    + injection H as <- <-. right. left. exists it, rest. repeat split; auto.
    + injection H as <- <-. right. right. split; reflexivity.
Qed.

Lemma drain_with_queue : forall W p q ev,
  pool_inv p -> wakes_prefix (queue p) q ev ->
  NoDup (processing q) -> incl (processing q) (busy_ids (workers p) ++ map id (wake_items ev)) ->
  active (workers p) <= W -> (running p = false -> all_exited (workers p) = true) ->
  no_lost_wakeup q ->
  (workers (with_queue p q ev) <> [] -> all_exited (workers (with_queue p q ev)) = true ->
     closed q = true /\ items q = []) ->
  drain_inv W (with_queue p q ev).
Proof.
  intros W p q ev Hi Hw Hnd Hinc Ha Hrun Hnlw H8.
  destruct (wakes_of_inv p q ev Hi Hw) as [Hnde Hwait].
  destruct (resume_facts ev (workers p) (acquired p) Hnde Hwait) as [Ha' [Hb' _]].
  destruct (with_queue_fields p q ev) as [Hq [_ [_ Hr]]].
  unfold drain_inv. rewrite Hq, Hr, with_queue_workers. rewrite with_queue_workers in H8.
  split; [exact Hnd|]. split; [|split; [lia|split; [|split; [exact H8|exact Hnlw]]]].
  - intros x Hx. apply Hb'. apply Hinc. exact Hx.
  - intros Hf. specialize (Hrun Hf). rewrite (resume_all_exited ev (workers p) Hrun Hwait).
    exact Hrun.
Qed.

Lemma after_processor_id : forall it o, id (fst (after_processor it o)) = id it.
Proof. intros it []; reflexivity. Qed.

Lemma drain_step : forall W s p p', pool_reachable W p -> drain_inv W p -> s <> PShutdown ->
  pool_step s p = Some p' -> drain_inv W p'.
Proof.
  intros W s p p' Hreach Hd Hns Hs.
  pose proof (pool_reachable_inv W p Hreach) as Hi.
  destruct (pool_reachable_queue W p Hreach) as [Hqr Hwc].
  destruct (queue_reachable_bound W (queue p) Hqr) as [_ Hmax].
  pose proof Hd as Hd0.
  destruct Hd as [D4 [D5 [D6 [D7 [D8 D9]]]]].
  assert (Henq : forall op q ev, run_op op (queue p) = (q, ev) -> (forall w, op <> OpDequeue w) ->
            closed (queue p) = false -> (forall w r, In (w, r) ev -> r <> None) ->
            NoDup (processing q) -> incl (processing q) (processing (queue p) ++ map id (wake_items ev)) ->
            drain_inv W (with_queue p q ev)).
  { intros op q ev Hrun Hop Hcl Hsome Hnd Hinc.
    assert (Hwp : wakes_prefix (queue p) q ev).
    { pose proof (run_op_prefix op (queue p) Hop) as X. rewrite Hrun in X. exact X. }
    destruct (wakes_of_inv p q ev Hi Hwp) as [Hnde Hwait].
    destruct (resume_facts ev (workers p) (acquired p) Hnde Hwait) as [_ [_ Hc']].
    apply drain_with_queue; auto.
    - intros x Hx. apply Hinc in Hx. apply in_app_or in Hx. apply in_or_app.
      destruct Hx as [Hx|Hx]; [left; apply D5; exact Hx|right; exact Hx].
    - replace q with (apply_op op (queue p)) by (unfold apply_op; rewrite Hrun; reflexivity).
      apply apply_op_nlw. exact D9.
    - rewrite with_queue_workers. intros Hne Hall. exfalso.
      destruct ev as [|[w r] ev'].
      + simpl in Hne, Hall. destruct (D8 Hne Hall) as [Hc _]. congruence.
      + specialize (Hc' w r (or_introl eq_refl)).
        destruct r as [it|]; [|exact (Hsome w None (or_introl eq_refl) eq_refl)].
        rewrite (not_all_exited _ _ _ Hc' ltac:(discriminate)) in Hall. discriminate. }
  destruct s; cbn [pool_step] in Hs.
  - (* submit *)
    destruct (enqueue it (queue p)) as [[q ev]|] eqn:He; injection Hs as <-;
      [|exact Hd0].
    unfold enqueue in He. destruct (closed (queue p)) eqn:Hcl; [discriminate|].
    injection He as He.
    pose proof (notifyWaiters_nodup (with_items (queue p) (sort_by_priority (items (queue p) ++ [it]))) D4) as NW.
    pose proof (notifyWaiters_wakes_some (with_items (queue p) (sort_by_priority (items (queue p) ++ [it])))) as WS.
    rewrite He in NW, WS. simpl in NW, WS. destruct NW as [NW1 NW2].
    apply (Henq (OpEnqueue it)).
    + cbn [run_op]. unfold enqueue. rewrite Hcl, He. reflexivity.
    + discriminate.
    + reflexivity.
    + exact WS.
    + exact NW1.
    + exact NW2.
  - (* submitMany *)
    destruct (enqueueMany its (queue p)) as [[q ev]|] eqn:He; injection Hs as <-;
      [|exact Hd0].
    unfold enqueueMany in He. destruct (closed (queue p)) eqn:Hcl; [discriminate|].
    injection He as He.
    pose proof (notifyWaiters_nodup (with_items (queue p) (sort_by_priority (items (queue p) ++ its))) D4) as NW.
    pose proof (notifyWaiters_wakes_some (with_items (queue p) (sort_by_priority (items (queue p) ++ its)))) as WS.
    rewrite He in NW, WS. simpl in NW, WS. destruct NW as [NW1 NW2].
    apply (Henq (OpEnqueueMany its)).
    + cbn [run_op]. unfold enqueueMany. rewrite Hcl, He. reflexivity.
    + discriminate.
    + reflexivity.
    + exact WS.
    + exact NW1.
    + exact NW2.
  - (* start *)
    destruct (running p) eqn:Hrun; injection Hs as <-; [exact Hd0|].
    specialize (D7 eq_refl). unfold drain_inv. simpl.
    rewrite busy_ids_app_repeat, active_app_repeat, all_exited_app_repeat, Hwc.
    rewrite (active_all_exited _ D7).
    refine (conj D4 (conj D5 (conj (le_n _) (conj _ (conj _ D9))))); [intro E; discriminate E|].
    intros Hne Hall. apply andb_prop in Hall. destruct Hall as [_ H0].
    apply Nat.eqb_eq in H0. subst W. rewrite H0 in Hne. simpl in Hne. rewrite app_nil_r in Hne.
    exact (D8 Hne D7).
  - (* close *)
    destruct (close (queue p)) as [q ev] eqn:Hc. injection Hs as <-.
    assert (Hwp : wakes_prefix (queue p) q ev).
    { pose proof (run_op_prefix OpClose (queue p) ltac:(discriminate)) as X.
      cbn [run_op] in X. rewrite Hc in X. exact X. }
    unfold close in Hc. injection Hc as Hq Hev.
    destruct (wakes_of_inv p q ev Hi Hwp) as [Hnde Hwait].
    destruct (resume_facts ev (workers p) (acquired p) Hnde Hwait) as [_ [Hb' _]].
    assert (Hproc : processing q = processing (queue p)) by (rewrite <- Hq; reflexivity).
    apply drain_with_queue; auto.
    + rewrite Hproc. exact D4.
    + rewrite Hproc. intros x Hx. apply in_or_app. left. apply D5. exact Hx.
    + replace q with (apply_op OpClose (queue p))
        by (unfold apply_op; cbn [run_op]; unfold close; rewrite Hq, Hev; reflexivity).
      apply apply_op_nlw. exact D9.
    + rewrite with_queue_workers. intros Hne Hall.
      split; [rewrite <- Hq; reflexivity|].
      replace (items q) with (items (queue p)) by (rewrite <- Hq; reflexivity).
      destruct (waiters (queue p)) as [|w0 ws0] eqn:Hws.
      * subst ev. simpl in Hne, Hall. exact (proj2 (D8 Hne Hall)).
      * destruct (D9 ltac:(rewrite Hws; discriminate)) as [_ [Hit|Hfull]]; [exact Hit|].
        exfalso.
        assert (Hw0 : nth_error (workers p) w0 = Some WWaiting).
        { destruct Hi as [_ [Hwi _]]. apply Hwi. rewrite Hws. left. reflexivity. }
        pose proof (active_nonexited _ _ _ Hw0 eq_refl) as A1.
        assert (Hp0 : processing (queue p) = []).
        { destruct (processing (queue p)) as [|x l] eqn:Hp; [reflexivity|].
          assert (Hx : In x (busy_ids (fst (resume ev (workers p) (acquired p))))).
          { apply Hb'. apply in_or_app. left. apply D5. rewrite ?Hp. left. reflexivity. }
          rewrite (busy_ids_all_exited _ Hall) in Hx. destruct Hx. }
        rewrite Hp0, Hmax in Hfull. simpl in Hfull. lia.
  - (* completion *)
    destruct (all_exited (workers p)) eqn:Hall; [|discriminate]. injection Hs as <-.
    exact (conj D4 (conj D5 (conj D6 (conj (fun _ => Hall) (conj (fun Hne _ => D8 Hne eq_refl) D9))))).
  - (* shutdown *)
    exfalso. apply Hns. reflexivity.
  - (* loop *)
    destruct (nth_error (workers p) w) as [[| | |]|] eqn:Hn; try discriminate.
    destruct (running p) eqn:Hrun.
    + destruct (dequeue w (queue p)) as [q r] eqn:Hdq.
      assert (Hnlw : no_lost_wakeup q).
      { replace q with (apply_op (OpDequeue w) (queue p))
          by (unfold apply_op; cbn [run_op]; rewrite Hdq; destruct r as [[]|]; reflexivity).
        apply apply_op_nlw. exact D9. }
      assert (Hlt : w < List.length (workers p)).
      { apply nth_error_Some. rewrite Hn. discriminate. }
      assert (Hkeep : forall s x, In x (busy_ids (workers p)) -> In x (busy_ids (set_nth w s (workers p))))
        by (intros s x Hx; exact (busy_ids_set_nth_keep _ w s WLoopHead x Hn Hx eq_refl)).
      pose proof (active_set_nth w WExited WLoopHead (workers p) Hn) as AE.
      pose proof (active_set_nth w WWaiting WLoopHead (workers p) Hn) as AW.
      destruct (dequeue_cases w (queue p) q r Hdq) as [[-> [-> [Hcl Hcase]]]|[[it [rest [-> [Hit ->]]]]|[-> ->]]];
        injection Hs as <-; unfold drain_inv; simpl.
      * refine (conj D4 (conj _ (conj _ (conj _ (conj _ Hnlw))))).
        -- intros x Hx. apply Hkeep. apply D5. exact Hx.
        -- simpl in AE. lia.
        -- intro E; rewrite ?Hrun in E; discriminate E.
        -- intros _ _. split; [exact Hcl|]. destruct Hcase as [Hcase|Hcase]; [exact Hcase|].
           exfalso. pose proof (NoDup_incl_length D4 D5) as L.
           pose proof (busy_ids_loophead _ _ Hn) as L2. lia.
      * refine (conj _ (conj _ (conj _ (conj _ (conj _ Hnlw))))).
        -- apply set_add_nodup. exact D4.
        -- intros x Hx. apply set_add_cases in Hx. destruct Hx as [Hx| ->].
           ++ apply Hkeep. apply D5. exact Hx.
           ++ exact (busy_ids_set_nth_busy _ w (set_status StProcessing it) Hlt).
        -- pose proof (active_set_nth w (WBusy (set_status StProcessing it)) WLoopHead (workers p) Hn) as AB.
           simpl in AB. lia.
        -- intro E; rewrite ?Hrun in E; discriminate E.
        -- intros _ Hall. rewrite (not_all_exited _ w (WBusy (set_status StProcessing it))) in Hall;
             [discriminate|apply nth_error_set_nth_eq; exact Hlt|discriminate].
      * refine (conj D4 (conj _ (conj _ (conj _ (conj _ Hnlw))))).
        -- intros x Hx. apply Hkeep. apply D5. exact Hx.
        -- simpl in AW. lia.
        -- intro E; rewrite ?Hrun in E; discriminate E.
        -- intros _ Hall. rewrite (not_all_exited _ w WWaiting) in Hall;
             [discriminate|apply nth_error_set_nth_eq; exact Hlt|discriminate].
    + exfalso. specialize (D7 eq_refl).
      pose proof (proj1 (all_exited_nth _) D7 w WLoopHead Hn) as E. discriminate E.
  - (* finish *)
    destruct (nth_error (workers p) w) as [[| |it|]|] eqn:Hn; try discriminate.
    destruct (after_processor it o) as [it' r] eqn:Ha.
    destruct (update_queue it' (res_success r) (queue p)) as [q ev] eqn:Hu.
    injection Hs as <-.
    destruct (update_queue_op it' (res_success r) (queue p)) as [op [Hop Heq]].
    set (p1 := mkPool (workerCount p) (queue p) (set_nth w WLoopHead (workers p))
                 (results p ++ [r]) (running p) (acquired p)).
    assert (Hr : res_item r = id it).
    { destruct o; simpl in Ha; injection Ha as <- <-; reflexivity. }
    assert (Hid : id it' = id it).
    { pose proof (after_processor_id it o) as X. rewrite Ha in X. exact X. }
    assert (Hi1 : pool_inv p1) by (exact (pool_inv_finish p w it r Hi Hn Hr)).
    assert (Hwp : wakes_prefix (queue p1) q ev).
    { pose proof (run_op_prefix op (queue p) Hop) as X. rewrite <- Heq, Hu in X. exact X. }
    assert (Hlt : w < List.length (workers p)).
    { apply nth_error_Some. rewrite Hn. discriminate. }
    destruct (update_queue_processing it' (res_success r) (queue p) q ev Hu D4) as [Hnd Hinc].
    rewrite Hid in Hinc.
    pose proof (active_set_nth w WLoopHead (WBusy it) (workers p) Hn) as AL. simpl in AL.
    apply drain_with_queue; auto.
    + intros x Hx. apply Hinc in Hx. apply in_app_or in Hx. apply in_or_app.
      destruct Hx as [Hx|Hx]; [left|right; exact Hx].
      apply set_delete_in in Hx. destruct Hx as [Hx Hne].
      apply (busy_ids_set_nth_keep _ w WLoopHead (WBusy it) x Hn); [apply D5; exact Hx|].
      simpl. apply String.eqb_neq. exact Hne.
    + unfold p1. simpl. lia.
    + unfold p1. simpl. intros Hf. exfalso. specialize (D7 Hf).
      pose proof (proj1 (all_exited_nth _) D7 w (WBusy it) Hn) as E. discriminate E.
    + replace q with (apply_op op (queue p)) by (unfold apply_op; rewrite <- Heq, Hu; reflexivity).
      apply apply_op_nlw. exact D9.
    + intros _ Hall. exfalso.
      assert (Hsame : nth_error (workers (with_queue p1 q ev)) w = nth_error (workers p1) w).
      { apply with_queue_other; [exact Hi1|exact Hwp|].
        unfold p1. simpl. rewrite nth_error_set_nth_eq by exact Hlt. discriminate. }
      assert (H1 : nth_error (workers p1) w = Some WLoopHead)
        by (unfold p1; simpl; apply nth_error_set_nth_eq; exact Hlt).
      rewrite H1 in Hsame.
      pose proof (not_all_exited _ w WLoopHead Hsame ltac:(discriminate)) as Hne.
      congruence.
Qed.

Lemma drain_inv_init : forall W, drain_inv W (new_WorkerPool W).
Proof.
  intros W. unfold drain_inv. simpl.
  refine (conj (NoDup_nil _) (conj (incl_refl _) (conj (Nat.le_0_l W) (conj (fun _ => eq_refl) (conj _ _))))).
  - intros Hne. exfalso. apply Hne. reflexivity.
  - intros Hne. exfalso. apply Hne. reflexivity.
Qed.

Lemma drain_run : forall W ss p, run_steps ss (new_WorkerPool W) = Some p -> ~ In PShutdown ss ->
  drain_inv W p.
Proof.
  intros W ss. cut (forall p0 p, pool_reachable W p0 -> drain_inv W p0 ->
                     run_steps ss p0 = Some p -> ~ In PShutdown ss -> drain_inv W p).
  { intros H p Hr Hn. exact (H _ p (pr_init W) (drain_inv_init W) Hr Hn). }
  induction ss as [|s ss IH]; intros p0 p Hr Hd Hs Hn; simpl in Hs.
  - injection Hs as <-. exact Hd.
  - destruct (pool_step s p0) as [p1|] eqn:H1; [|discriminate].
    apply (IH p1 p (pr_step W p0 s p1 Hr H1)); [|exact Hs|intros Hin; apply Hn; right; exact Hin].
    apply (drain_step W s p0 p1 Hr Hd); [intros E; apply Hn; left; exact E|exact H1].
Qed.

(** Drain on completion ([waitForCompletion] with [workerLoop] and
    [dequeue]): in any run without [shutdown], once every started worker
    loop has returned, the queue is closed, no item is pending or being
    processed, and [isComplete] holds. *)
Theorem completion_drains : forall W ss p,
  run_steps ss (new_WorkerPool W) = Some p -> ~ In PShutdown ss ->
  workers p <> [] -> all_exited (workers p) = true ->
  closed (queue p) = true /\ items (queue p) = [] /\ processing (queue p) = [] /\
  isComplete (queue p) = true.
Proof.
  intros W ss p Hr Hn Hne Hall.
  destruct (drain_run W ss p Hr Hn) as [_ [D5 [_ [_ [D8 _]]]]].
  destruct (D8 Hne Hall) as [Hc Hi].
  assert (Hp : processing (queue p) = []).
  { destruct (processing (queue p)) as [|x l] eqn:Hp; [reflexivity|].
    exfalso. assert (Hx : In x (busy_ids (workers p))) by (apply D5; rewrite ?Hp; left; reflexivity).
    rewrite (busy_ids_all_exited _ Hall) in Hx. destruct Hx. }
  split; [exact Hc|]. split; [exact Hi|]. split; [exact Hp|].
  unfold isComplete, isEmpty. rewrite Hc, Hi, Hp. reflexivity.
Qed.

(** The drain property on a one-worker run of [drain_schedule]. *)
Lemma completion_drains_witness : exists p,
  run_steps drain_schedule (new_WorkerPool 1) = Some p /\ ~ In PShutdown drain_schedule /\
  workers p <> [] /\ all_exited (workers p) = true /\
  (closed (queue p) = true /\ items (queue p) = [] /\ processing (queue p) = [] /\
   isComplete (queue p) = true).
Proof.
  eexists. split; [vm_compute; reflexivity|].
  assert (Hn : ~ In PShutdown drain_schedule) by (simpl; intros H; repeat (destruct H as [H|H]; [discriminate H|]); exact H).
  split; [exact Hn|]. split; [vm_compute; discriminate|]. split; [vm_compute; reflexivity|].
  apply (completion_drains 1 drain_schedule); [vm_compute; reflexivity|exact Hn|vm_compute; discriminate|vm_compute; reflexivity].
Defined.

(** ** Counting by category *)
Lemma category_key_inj : forall c d, category_key c = category_key d -> c = d.
Proof. intros [] [] H; try reflexivity; discriminate H. Qed.

Lemma count_fold_get : forall c files m,
  map_get (category_key c) (fold_left count_step files m) =
  if Nat.eqb (files_of c files) 0 then map_get (category_key c) m
  else Some (match map_get (category_key c) m with Some n => n | None => 0 end + files_of c files).
Proof.
  intros c files. induction files as [|f fs IH]; intros m; simpl; [reflexivity|].
  rewrite IH. unfold files_of. simpl.
  destruct (String.eqb (category_key (sf_category f)) (category_key c)) eqn:E.
  - apply String.eqb_eq in E. unfold count_step. rewrite E, map_get_map_set_eq. simpl.
    destruct (map_get (category_key c) m) as [n|];
      destruct (Nat.eqb _ 0) eqn:Z0; try apply Nat.eqb_eq in Z0; unfold files_of in *; apply (f_equal Some); lia.
  - apply String.eqb_neq in E. unfold count_step.
    rewrite (map_get_map_set_ne (category_key c)) by (intros H; apply E; symmetry; exact H).
    reflexivity.
Qed.

Lemma sum_counts_map_set : forall k v m,
  sum_counts (map_set k v m) + match map_get k m with Some n => n | None => 0 end = sum_counts m + v.
Proof.
  intros k v m. induction m as [|[k0 v0] m IH]; simpl; [lia|].
  destruct (String.eqb k k0); simpl; lia.
Qed.

Lemma count_fold_sum : forall files m,
  sum_counts (fold_left count_step files m) = sum_counts m + List.length files.
Proof.
  intros files. induction files as [|f fs IH]; intros m; simpl; [lia|].
  rewrite IH. unfold count_step.
  pose proof (sum_counts_map_set (category_key (sf_category f))
    (match map_get (category_key (sf_category f)) m with Some n => n | None => 0 end + 1) m). lia.
Qed.

(** [countByCategory] counts every file once: the entry of a category is the
    number of files of that category, a category with no file has no entry
    (reading it gives [undefined], not 0), and the entries add up to
    [files.length]. *)
Theorem countByCategory_counts : forall files,
  (forall c, map_get (category_key c) (countByCategory files) =
             if Nat.eqb (files_of c files) 0 then None else Some (files_of c files)) /\
  sum_counts (countByCategory files) = List.length files.
Proof.
  intros files. split.
  - intros c. unfold countByCategory. rewrite count_fold_get. reflexivity.
  - unfold countByCategory. rewrite count_fold_sum. reflexivity.
Qed.
